(** * bombardier: the request-driver engine and its statistics

    A shallow embedding of [bombardier.go] and [client_cert.go]:
    - machine integers are [Z] with the wrap-around written out;
    - [float64] values are rationals rounded to binary64 (round to nearest,
      ties to even), with the two infinities and NaN;
    - the histograms of [github.com/codesenberg/concurrent] are association
      lists in visiting order;
    - the goroutines of [bombard] are an interleaving of atomic steps over
      the shared [bombardier] record. *)

From Stdlib Require Import ZArith QArith Qround Qpower Qabs Lia Lqa List.
From Stdlib Require Import Floats.SpecFloat.
From stdpp Require Import base list sorting strings gmap.

Open Scope Z_scope.

(** ** Machine integers *)

(** [uint64] arithmetic wraps modulo 2^64. *)
Definition wrap64 (z : Z) : Z := z mod 2 ^ 64.

(** [int64] arithmetic wraps into [-2^63, 2^63). *)
Definition wrapi64 (z : Z) : Z := (z + 2 ^ 63) mod 2 ^ 64 - 2 ^ 63.

(** ** IEEE 754 binary64 *)

Module F64.

(** A finite value is the rational it denotes; the sign of zero is not
    tracked (every zero stands for +0). *)
Inductive float64 : Type :=
| FFin (q : Q)
| FInf (neg : bool)
| FNaN.

Definition pow2 (e : Z) : Q := (2 ^ e)%Q.

(** [ilog2 x] is the exponent [e] with [2^e <= x < 2^(e+1)], for [x > 0]. *)
Definition ilog2 (x : Q) : Z :=
  let e0 := Z.log2 (Qnum x) - Z.log2 (Zpos (Qden x)) in
  if Qle_bool (pow2 e0) x then e0 else e0 - 1.

(** Nearest integer, ties to even. *)
Definition rne (x : Q) : Z :=
  let f := Qfloor x in
  match Qcompare (x - inject_Z f) (1 # 2) with
  | Lt => f
  | Gt => f + 1
  | Eq => if Z.even f then f else f + 1
  end.

(** Exponent of the last place of a binary64 number of magnitude [2^e]:
    53 significant bits, subnormals below [2^-1022]. *)
Definition fexp (e : Z) : Z := Z.max (e - 52) (-1074).

(** [rnd_at c x]: the multiple of [2^c] nearest to [x]. *)
Definition rnd_at (c : Z) (x : Q) : Q :=
  (inject_Z (rne (x / pow2 c)) * pow2 c)%Q.

Definition round_pos (x : Q) : Q := rnd_at (fexp (ilog2 x)) x.

(** Overflow past the largest finite number gives an infinity. *)
Definition pack (neg : bool) (y : Q) : float64 :=
  if Qle_bool (pow2 1024) y then FInf neg
  else FFin (Qred (if neg then - y else y)).

(** The binary64 number nearest to the rational [x]. *)
Definition round64 (x : Q) : float64 :=
  match Qcompare x 0 with
  | Eq => FFin 0
  | Gt => pack false (round_pos x)
  | Lt => pack true (round_pos (- x))
  end.

Definition Qneg (x : Q) : bool :=
  match Qcompare x 0 with Lt => true | _ => false end.

Definition Qzero (x : Q) : bool :=
  match Qcompare x 0 with Eq => true | _ => false end.

Definition fadd (a b : float64) : float64 :=
  match a, b with
  | FNaN, _ | _, FNaN => FNaN
  | FInf s, FInf t => if Bool.eqb s t then FInf s else FNaN
  | FInf s, FFin _ | FFin _, FInf s => FInf s
  | FFin x, FFin y => round64 (x + y)
  end.

Definition fneg (a : float64) : float64 :=
  match a with
  | FFin x => FFin (Qred (- x))
  | FInf s => FInf (negb s)
  | FNaN => FNaN
  end.

Definition fsub (a b : float64) : float64 := fadd a (fneg b).

Definition fmul (a b : float64) : float64 :=
  match a, b with
  | FNaN, _ | _, FNaN => FNaN
  | FInf s, FInf t => FInf (xorb s t)
  | FInf s, FFin y | FFin y, FInf s =>
      if Qzero y then FNaN else FInf (xorb s (Qneg y))
  | FFin x, FFin y => round64 (x * y)
  end.

Definition fdiv (a b : float64) : float64 :=
  match a, b with
  | FNaN, _ | _, FNaN => FNaN
  | FInf _, FInf _ => FNaN
  | FInf s, FFin y => FInf (xorb s (Qneg y))
  | FFin _, FInf _ => FFin 0
  | FFin x, FFin y =>
      if Qzero y then (if Qzero x then FNaN else FInf (Qneg x))
      else round64 (x / y)
  end.

(** Square root, correctly rounded: the integer part of [sqrt x / 2^c] and
    the position of the rest against one half decide the last bit. *)
Definition sqrt_pos (x : Q) : Q :=
  let c := fexp (Z.div (ilog2 x) 2) in
  let y := (x / pow2 (2 * c))%Q in
  let f := Z.sqrt (Qfloor y) in
  let m :=
    match Qcompare (inject_Z ((2 * f + 1) * (2 * f + 1)) / 4) y with
    | Gt => f
    | Lt => f + 1
    | Eq => if Z.even f then f else f + 1
    end in
  (inject_Z m * pow2 c)%Q.

Definition fsqrt (a : float64) : float64 :=
  match a with
  | FNaN => FNaN
  | FInf true => FNaN
  | FInf false => FInf false
  | FFin x =>
      match Qcompare x 0 with
      | Eq => FFin 0
      | Lt => FNaN
      | Gt => pack false (sqrt_pos x)
      end
  end.

(** [a > b] of Go: false as soon as one side is NaN. *)
Definition fgt (a b : float64) : bool :=
  match a, b with
  | FNaN, _ | _, FNaN => false
  | FInf s, FInf t => andb (negb s) t
  | FInf s, FFin _ => negb s
  | FFin _, FInf t => t
  | FFin x, FFin y => match Qcompare x y with Gt => true | _ => false end
  end.

(** [math.IsInf(f, 0)] and [math.IsNaN(f)]. *)
Definition IsInf (a : float64) : bool :=
  match a with FInf _ => true | _ => false end.

Definition IsNaN (a : float64) : bool :=
  match a with FNaN => true | _ => false end.

(** [math.Pow(x, 2)]: for a finite [x] the library squares the mantissa and
    scales the result, which is the rounded square in the normal range. *)
Definition Pow2 (a : float64) : float64 := fmul a a.

(** [float64(n)] for an integer [n]. *)
Definition of_int (n : Z) : float64 := round64 (inject_Z n).

(** Truncation toward zero. *)
Definition qtrunc (x : Q) : Z :=
  if Qneg x then Qceiling x else Qfloor x.

(** [uint64(f)]: the truncated value when it is representable; otherwise
    the conversion succeeds with an implementation-dependent value, [impl]. *)
Definition to_uint64 (impl : Z) (a : float64) : Z :=
  match a with
  | FFin x =>
      let t := qtrunc x in
      if (0 <=? t) && (t <? 2 ^ 64) then t else impl
  | _ => impl
  end.

(** Reading of a [SpecFloat] value, to compare with the library's binary64. *)
Definition of_spec (f : spec_float) : float64 :=
  match f with
  | S754_zero _ => FFin 0
  | S754_infinity s => FInf s
  | S754_nan => FNaN
  | S754_finite s m e =>
      FFin (Qred ((if s then -1 else 1) * inject_Z (Zpos m) * pow2 e))
  end.

End F64.
Export F64.

(** ** Histograms of [github.com/codesenberg/concurrent]

    A histogram maps keys to counts; [Increment] adds one to the count of a
    key, [Get] reads it, and [VisitAll] passes every entry once to the
    visitor, in an order the library chooses.  The model is the list of
    entries in that order: every key occurs once, with a count of at least
    one. *)

Module Hist.

Definition uhist : Type := list (Z * Z).

Definition Get (h : uhist) (k : Z) : Z :=
  match List.find (fun e => fst e =? k) h with
  | Some e => snd e
  | None => 0
  end.

Fixpoint Increment (h : uhist) (k : Z) : uhist :=
  match h with
  | [] => [(k, 1)]
  | (k', v) :: t =>
      if k' =? k then (k', wrap64 (v + 1)) :: t else (k', v) :: Increment t k
  end.

(** [h.VisitAll(fn)] with a visitor that always returns [true]: the visitor
    updates the variables it captured, here the accumulator [a]. *)
Definition VisitAll {K A : Type} (h : list (K * Z)) (fn : A -> K -> Z -> A)
    (a : A) : A :=
  fold_left (fun acc e => fn acc (fst e) (snd e)) h a.

Definition fhist : Type := list (float64 * Z).

(** [==] of Go on [float64]: NaN differs from everything. *)
Definition feq (a b : float64) : bool :=
  match a, b with
  | FFin x, FFin y => Qeq_bool x y
  | FInf s, FInf t => Bool.eqb s t
  | _, _ => false
  end.

Fixpoint fIncrement (h : fhist) (k : float64) : fhist :=
  match h with
  | [] => [(k, 1)]
  | (k', v) :: t =>
      if feq k' k then (k', wrap64 (v + 1)) :: t else (k', v) :: fIncrement t k
  end.

(** The entries of a histogram that [Increment] can build. *)
Definition wf (h : uhist) : Prop :=
  NoDup (map fst h) /\
  Forall (fun e => 0 <= fst e < 2 ^ 64 /\ 1 <= snd e < 2 ^ 64) h.

(** Number of recorded samples. *)
Definition samples (h : uhist) : Z := fold_right Z.add 0 (map snd h).

End Hist.
Export Hist.

(** ** Statistics over histograms ([bombardier.go], lines 291-378) *)

(** [sort.Slice(keys, func(i, j) { return keys[i] < keys[j] })]. *)
Definition sort_keys (keys : list Z) : list Z := merge_sort Z.le keys.

(** The loop [for _, k := range keys] of [latenciesPercentile], with the
    running [total]; falling out of the loop returns 0. *)
Fixpoint percentile_walk (h : uhist) (rank total : Z) (keys : list Z) : Z :=
  match keys with
  | [] => 0
  | k :: ks =>
      let total := wrap64 (total + Get h k) in
      if rank <=? total then k else percentile_walk h rank total ks
  end.

(** [uint64((p/100.0)*float64(totalCount) + 0.5)]. *)
Definition percentile_rank (impl : Z) (p : float64) (totalCount : Z) : Z :=
  to_uint64 impl
    (fadd (fmul (fdiv p (FFin 100)) (of_int totalCount)) (FFin (1 # 2))).

Definition latenciesPercentile (impl : Z) (h : uhist) (p : float64) : Z :=
  let '(keys, totalCount) :=
    VisitAll h (fun '(keys, totalCount) k v =>
                  (keys ++ [k], wrap64 (totalCount + v))) ([], 0) in
  let keys := sort_keys keys in
  let rank := percentile_rank impl p totalCount in
  percentile_walk h rank 0 keys.

(** The three figures of a statistics line. *)
Record figures : Type := mkFigures {
  fig_mean : float64;
  fig_stddev : float64;
  fig_max : float64
}.

Definition nonfinite (f : float64) : bool := IsInf f || IsNaN f.

(** The computation of [rpsString] before formatting. *)
Definition rpsFigures (h : fhist) : figures :=
  let '(sum, count, max) :=
    VisitAll h (fun '(sum, count, max) f c =>
      if nonfinite f then (sum, count, max)
      else
        let max := if fgt f max then f else max in
        (fadd sum (fmul f (of_int c)), wrap64 (count + c), max))
      (FFin 0, 1, FFin 0) in
  let mean := fdiv sum (of_int count) in
  let sumOfSquares :=
    VisitAll h (fun sumOfSquares f c =>
      if nonfinite f then sumOfSquares
      else fadd sumOfSquares (Pow2 (fsub f mean)))
      (FFin 0) in
  let stddev := fsqrt (fdiv sumOfSquares (of_int count)) in
  mkFigures mean stddev max.

(** The computation of [latenciesString] before formatting. *)
Definition latenciesFigures (h : uhist) : figures :=
  let '(sum, count, max) :=
    VisitAll h (fun '(sum, count, max) f c =>
      let max := if max <? f then f else max in
      (wrap64 (sum + wrap64 (f * c)), wrap64 (count + c), max))
      (0, 1, 0) in
  let mean := fdiv (of_int sum) (of_int count) in
  let sumOfSquares :=
    VisitAll h (fun sumOfSquares f c =>
      fadd sumOfSquares (Pow2 (fsub (of_int f) mean)))
      (FFin 0) in
  let stddev := fsqrt (fdiv sumOfSquares (of_int count)) in
  mkFigures mean stddev (of_int max).

(** What a weighted sample would give for the sum of squared deviations:
    every key counts as often as it was recorded. *)
Definition weightedSquares (h : uhist) (mean : float64) : float64 :=
  VisitAll h (fun acc f c =>
    fadd acc (fmul (of_int c) (Pow2 (fsub (of_int f) mean)))) (FFin 0).

Definition fweightedSquares (h : fhist) (mean : float64) : float64 :=
  VisitAll h (fun acc f c =>
    if nonfinite f then acc
    else fadd acc (fmul (of_int c) (Pow2 (fsub f mean)))) (FFin 0).

(** Left and right padding of [fmt]'s width verbs. *)
Definition pad_right (n : nat) (s : string) : string :=
  s +:+ String.concat EmptyString (repeat " "%string (n - String.length s)).

Definition pad_left (n : nat) (s : string) : string :=
  String.concat EmptyString (repeat " "%string (n - String.length s)) +:+ s.

(** [rpsString]; [f2] renders a float under the verb [%10.2f]. *)
Definition rpsString (f2 : float64 -> string) (h : fhist) : string :=
  let s := rpsFigures h in
  "  " +:+ pad_right 10 "Reqs/sec" +:+ " " +:+ f2 (fig_mean s) +:+ " "
       +:+ f2 (fig_stddev s) +:+ " " +:+ f2 (fig_max s).

(** [latenciesString]; [formatTimeUs] is the repository's unit formatter. *)
Definition latenciesString (formatTimeUs : float64 -> string) (h : uhist)
    : string :=
  let s := latenciesFigures h in
  "  " +:+ pad_right 10 "Latency" +:+ " " +:+ pad_left 10 (formatTimeUs (fig_mean s))
       +:+ " " +:+ pad_left 10 (formatTimeUs (fig_stddev s))
       +:+ " " +:+ pad_left 10 (formatTimeUs (fig_max s)).

(** ** Configuration, barrier, limiter and error aggregator

    [config.go], [completion_barriers.go], [limiter.go] and [error_map.go]
    are modelled from the specification of the repository, as far as
    [bombardier.go] uses them. *)

Inductive clientTyp : Type := fhttp | nhttp1 | nhttp2.

(** The fields of [config] that [bombardier.go] and [client_cert.go] read. *)
Record config : Type := mkConfig {
  numConns : Z;
  numReqs : option Z;
  duration : option Z;
  url : string;
  headers : list (string * string);
  timeout : Z;
  method : string;
  body : string;
  bodyFilePath : string;
  stream : bool;
  clientCert : string;
  printLatencies : bool;
  insecure : bool;
  rate : option Z;
  clientType : clientTyp
}.

Inductive testTyp : Type := none | counted | timed.

(** Modelled from the spec: [testType] of the missing [config.go]; a test is
    counted when a request count is set, timed when a duration is. *)
Definition testType (c : config) : testTyp :=
  match numReqs c, duration c with
  | Some _, _ => counted
  | None, Some _ => timed
  | None, None => none
  end.

Inductive barrierKind : Type :=
| Counting (R : Z)
| TimedUntil (deadline : Z).

(** Modelled from the spec: the completion barrier of the missing
    [completion_barriers.go].  Counted: an issued and a completed counter
    against the target; timed: a deadline; both: an idempotent cancel. *)
Record completionBarrier : Type := mkBarrier {
  kind : barrierKind;
  issued : Z;
  completedReqs : Z;
  cancelled : bool
}.

(** Modelled from the spec: the done signal of the missing barrier, ready
    when all requests are completed, the deadline has passed, or the test
    was cancelled. *)
Definition done (bar : completionBarrier) (now : Z) : bool :=
  cancelled bar ||
  match kind bar with
  | Counting R => completedReqs bar =? R
  | TimedUntil deadline => deadline <=? now
  end.

(** Modelled from the spec: [tryGrabWork] of the missing barrier reserves
    one unit of work iff not done; counted, it compares and increments
    [issued] against the target. *)
Definition tryGrabWork (bar : completionBarrier) (now : Z)
    : bool * completionBarrier :=
  if done bar now then (false, bar)
  else
    match kind bar with
    | Counting R =>
        if issued bar <? R
        then (true, mkBarrier (kind bar) (issued bar + 1) (completedReqs bar)
                      (cancelled bar))
        else (false, bar)
    | TimedUntil _ => (true, bar)
    end.

(** Modelled from the spec: [jobDone] of the missing barrier; counted, it
    increments [completed]; timed, it keeps no books. *)
Definition jobDone (bar : completionBarrier) : completionBarrier :=
  match kind bar with
  | Counting _ =>
      mkBarrier (kind bar) (issued bar) (completedReqs bar + 1) (cancelled bar)
  | TimedUntil _ => bar
  end.

(** Modelled from the spec: [cancel] of the missing barrier. *)
Definition cancel (bar : completionBarrier) : completionBarrier :=
  mkBarrier (kind bar) (issued bar) (completedReqs bar) true.

(** Modelled from the spec: the two constructors of the missing barrier;
    a counted barrier starts with nothing issued, a timed one sets its
    deadline when it is made. *)
Definition newCountingCompletionBarrier (R : Z) : completionBarrier :=
  mkBarrier (Counting R) 0 0 false.

Definition newTimedCompletionBarrier (now d : Z) : completionBarrier :=
  mkBarrier (TimedUntil (now + d)) 0 0 false.

Inductive limiter : Type :=
| nooplimiter
| bucketLimiter (r : Z).

Inductive token : Type := brk | cont.

(** Modelled from the spec: [pace] of the missing [limiter.go].  The no-op
    limiter lets the caller go at once.  The token bucket lets it go when a
    token is [granted]; while it sleeps for one, a fired done signal makes
    it return [brk]; otherwise it keeps sleeping ([None]). *)
Definition pace (l : limiter) (fired granted : bool) : option token :=
  match l with
  | nooplimiter => Some cont
  | bucketLimiter _ =>
      if granted then Some cont else if fired then Some brk else None
  end.

Definition errorMap : Type := gmap string Z.

(** Modelled from the spec: [add] of the missing [error_map.go] counts one
    more occurrence of the description of the error. *)
Definition errorMap_add (m : errorMap) (err : string) : errorMap :=
  <[err := wrap64 (default 0 (m !! err) + 1)]> m.

(** Modelled from the spec: [sum] of the missing [error_map.go], the number
    of errors recorded. *)
Definition errorMap_sum (m : errorMap) : Z :=
  map_fold (fun _ n acc => wrap64 (acc + n)) 0 m.

(** ** The [bombardier] record and the accounting of one request *)

(** What one call of [client.do()] reports, and what it adds to the two
    byte meters it shares with the record. *)
Record response : Type := mkResponse {
  code : Z;
  msTaken : Z;
  err : option string;
  rd : Z;
  wr : Z
}.

Inductive bucket : Type := b1xx | b2xx | b3xx | b4xx | b5xx | bothers.

(** What the goroutines do to the shared record, to be logged in the order
    it happens: the calls of the client, the updates of the accumulators,
    and the synchronisations of [rateMeter], [barUpdater] and [bombard]. *)
Inductive event : Type :=
| EvDo (n : nat)
| EvErrorsAdd (description : string)
| EvLatencies (us : Z)
| EvReqs
| EvCounter (c : bucket)
| EvCancel
| EvMeterDone
| EvMeterWaited
| EvRecordRps (n : Z)
| EvMeterToken
| EvBarToken
| EvWorkersDone
| EvTimeTaken (d : Z)
| EvToken
| EvReturn.

(** The struct [bombardier].  [workers] is the counter of the wait group,
    [doneChan] the number of tokens in the channel, [client] the answer of
    the client to its n-th call.  Two ghost fields: [calls] counts the calls
    of [client.do()], [trace] logs the events.  The progress bar and the
    output writer are left out. *)
Record bombardier : Type := mkBombardier {
  bytesRead : Z;
  bytesWritten : Z;
  req1xx : Z;
  req2xx : Z;
  req3xx : Z;
  req4xx : Z;
  req5xx : Z;
  others : Z;
  conf : config;
  barrier : completionBarrier;
  ratelimiter : limiter;
  workers : nat;
  timeTaken : Z;
  latencies : uhist;
  requests : fhist;
  client : nat -> response;
  doneChan : nat;
  reqs : Z;
  start : Z;
  errors : errorMap;
  calls : nat;
  trace : list event
}.

(** Assignment to one field of the record. *)
Definition set_bytesRead (v : Z) (b : bombardier) : bombardier :=
  mkBombardier v (bytesWritten b) (req1xx b) (req2xx b) (req3xx b) (req4xx b)
    (req5xx b) (others b) (conf b) (barrier b) (ratelimiter b) (workers b)
    (timeTaken b) (latencies b) (requests b) (client b) (doneChan b) (reqs b)
    (start b) (errors b) (calls b) (trace b).
Definition set_bytesWritten (v : Z) (b : bombardier) : bombardier :=
  mkBombardier (bytesRead b) v (req1xx b) (req2xx b) (req3xx b) (req4xx b)
    (req5xx b) (others b) (conf b) (barrier b) (ratelimiter b) (workers b)
    (timeTaken b) (latencies b) (requests b) (client b) (doneChan b) (reqs b)
    (start b) (errors b) (calls b) (trace b).
Definition set_req1xx (v : Z) (b : bombardier) : bombardier :=
  mkBombardier (bytesRead b) (bytesWritten b) v (req2xx b) (req3xx b)
    (req4xx b) (req5xx b) (others b) (conf b) (barrier b) (ratelimiter b)
    (workers b) (timeTaken b) (latencies b) (requests b) (client b)
    (doneChan b) (reqs b) (start b) (errors b) (calls b) (trace b).
Definition set_req2xx (v : Z) (b : bombardier) : bombardier :=
  mkBombardier (bytesRead b) (bytesWritten b) (req1xx b) v (req3xx b)
    (req4xx b) (req5xx b) (others b) (conf b) (barrier b) (ratelimiter b)
    (workers b) (timeTaken b) (latencies b) (requests b) (client b)
    (doneChan b) (reqs b) (start b) (errors b) (calls b) (trace b).
Definition set_req3xx (v : Z) (b : bombardier) : bombardier :=
  mkBombardier (bytesRead b) (bytesWritten b) (req1xx b) (req2xx b) v
    (req4xx b) (req5xx b) (others b) (conf b) (barrier b) (ratelimiter b)
    (workers b) (timeTaken b) (latencies b) (requests b) (client b)
    (doneChan b) (reqs b) (start b) (errors b) (calls b) (trace b).
Definition set_req4xx (v : Z) (b : bombardier) : bombardier :=
  mkBombardier (bytesRead b) (bytesWritten b) (req1xx b) (req2xx b)
    (req3xx b) v (req5xx b) (others b) (conf b) (barrier b) (ratelimiter b)
    (workers b) (timeTaken b) (latencies b) (requests b) (client b)
    (doneChan b) (reqs b) (start b) (errors b) (calls b) (trace b).
Definition set_req5xx (v : Z) (b : bombardier) : bombardier :=
  mkBombardier (bytesRead b) (bytesWritten b) (req1xx b) (req2xx b)
    (req3xx b) (req4xx b) v (others b) (conf b) (barrier b) (ratelimiter b)
    (workers b) (timeTaken b) (latencies b) (requests b) (client b)
    (doneChan b) (reqs b) (start b) (errors b) (calls b) (trace b).
Definition set_others (v : Z) (b : bombardier) : bombardier :=
  mkBombardier (bytesRead b) (bytesWritten b) (req1xx b) (req2xx b)
    (req3xx b) (req4xx b) (req5xx b) v (conf b) (barrier b) (ratelimiter b)
    (workers b) (timeTaken b) (latencies b) (requests b) (client b)
    (doneChan b) (reqs b) (start b) (errors b) (calls b) (trace b).
Definition set_barrier (v : completionBarrier) (b : bombardier) : bombardier :=
  mkBombardier (bytesRead b) (bytesWritten b) (req1xx b) (req2xx b)
    (req3xx b) (req4xx b) (req5xx b) (others b) (conf b) v (ratelimiter b)
    (workers b) (timeTaken b) (latencies b) (requests b) (client b)
    (doneChan b) (reqs b) (start b) (errors b) (calls b) (trace b).
Definition set_workers (v : nat) (b : bombardier) : bombardier :=
  mkBombardier (bytesRead b) (bytesWritten b) (req1xx b) (req2xx b)
    (req3xx b) (req4xx b) (req5xx b) (others b) (conf b) (barrier b)
    (ratelimiter b) v (timeTaken b) (latencies b) (requests b) (client b)
    (doneChan b) (reqs b) (start b) (errors b) (calls b) (trace b).
Definition set_timeTaken (v : Z) (b : bombardier) : bombardier :=
  mkBombardier (bytesRead b) (bytesWritten b) (req1xx b) (req2xx b)
    (req3xx b) (req4xx b) (req5xx b) (others b) (conf b) (barrier b)
    (ratelimiter b) (workers b) v (latencies b) (requests b) (client b)
    (doneChan b) (reqs b) (start b) (errors b) (calls b) (trace b).
Definition set_latencies (v : uhist) (b : bombardier) : bombardier :=
  mkBombardier (bytesRead b) (bytesWritten b) (req1xx b) (req2xx b)
    (req3xx b) (req4xx b) (req5xx b) (others b) (conf b) (barrier b)
    (ratelimiter b) (workers b) (timeTaken b) v (requests b) (client b)
    (doneChan b) (reqs b) (start b) (errors b) (calls b) (trace b).
Definition set_requests (v : fhist) (b : bombardier) : bombardier :=
  mkBombardier (bytesRead b) (bytesWritten b) (req1xx b) (req2xx b)
    (req3xx b) (req4xx b) (req5xx b) (others b) (conf b) (barrier b)
    (ratelimiter b) (workers b) (timeTaken b) (latencies b) v (client b)
    (doneChan b) (reqs b) (start b) (errors b) (calls b) (trace b).
Definition set_doneChan (v : nat) (b : bombardier) : bombardier :=
  mkBombardier (bytesRead b) (bytesWritten b) (req1xx b) (req2xx b)
    (req3xx b) (req4xx b) (req5xx b) (others b) (conf b) (barrier b)
    (ratelimiter b) (workers b) (timeTaken b) (latencies b) (requests b)
    (client b) v (reqs b) (start b) (errors b) (calls b) (trace b).
Definition set_reqs (v : Z) (b : bombardier) : bombardier :=
  mkBombardier (bytesRead b) (bytesWritten b) (req1xx b) (req2xx b)
    (req3xx b) (req4xx b) (req5xx b) (others b) (conf b) (barrier b)
    (ratelimiter b) (workers b) (timeTaken b) (latencies b) (requests b)
    (client b) (doneChan b) v (start b) (errors b) (calls b) (trace b).
Definition set_start (v : Z) (b : bombardier) : bombardier :=
  mkBombardier (bytesRead b) (bytesWritten b) (req1xx b) (req2xx b)
    (req3xx b) (req4xx b) (req5xx b) (others b) (conf b) (barrier b)
    (ratelimiter b) (workers b) (timeTaken b) (latencies b) (requests b)
    (client b) (doneChan b) (reqs b) v (errors b) (calls b) (trace b).
Definition set_errors (v : errorMap) (b : bombardier) : bombardier :=
  mkBombardier (bytesRead b) (bytesWritten b) (req1xx b) (req2xx b)
    (req3xx b) (req4xx b) (req5xx b) (others b) (conf b) (barrier b)
    (ratelimiter b) (workers b) (timeTaken b) (latencies b) (requests b)
    (client b) (doneChan b) (reqs b) (start b) v (calls b) (trace b).
Definition set_calls (v : nat) (b : bombardier) : bombardier :=
  mkBombardier (bytesRead b) (bytesWritten b) (req1xx b) (req2xx b)
    (req3xx b) (req4xx b) (req5xx b) (others b) (conf b) (barrier b)
    (ratelimiter b) (workers b) (timeTaken b) (latencies b) (requests b)
    (client b) (doneChan b) (reqs b) (start b) (errors b) v (trace b).
Definition set_trace (v : list event) (b : bombardier) : bombardier :=
  mkBombardier (bytesRead b) (bytesWritten b) (req1xx b) (req2xx b)
    (req3xx b) (req4xx b) (req5xx b) (others b) (conf b) (barrier b)
    (ratelimiter b) (workers b) (timeTaken b) (latencies b) (requests b)
    (client b) (doneChan b) (reqs b) (start b) (errors b) (calls b) v.

(** The ghost field [trace] records an update when it happens. *)
Definition emit (e : event) (b : bombardier) : bombardier :=
  set_trace (trace b ++ [e]) b.

(** [switch code / 100]: the counter that [writeStatistics] points at. *)
Definition counterOf (code : Z) : bucket :=
  match Z.quot code 100 with
  | 1 => b1xx
  | 2 => b2xx
  | 3 => b3xx
  | 4 => b4xx
  | 5 => b5xx
  | _ => bothers
  end.

Definition counter (c : bucket) (b : bombardier) : Z :=
  match c with
  | b1xx => req1xx b
  | b2xx => req2xx b
  | b3xx => req3xx b
  | b4xx => req4xx b
  | b5xx => req5xx b
  | bothers => others b
  end.

(** [atomic.AddUint64(counter, delta)]. *)
Definition AddUint64 (c : bucket) (delta : Z) (b : bombardier) : bombardier :=
  let v := wrap64 (counter c b + delta) in
  emit (EvCounter c)
    match c with
    | b1xx => set_req1xx v b
    | b2xx => set_req2xx v b
    | b3xx => set_req3xx v b
    | b4xx => set_req4xx v b
    | b5xx => set_req5xx v b
    | bothers => set_others v b
    end.

Definition writeStatistics (code msTaken : Z) (b : bombardier) : bombardier :=
  let b := emit (EvLatencies msTaken)
             (set_latencies (Increment (latencies b) msTaken) b) in
  let b := emit EvReqs (set_reqs (wrapi64 (reqs b + 1)) b) in
  AddUint64 (counterOf code) 1 b.

(** [b.client.do()]: the next answer of the client, which also moves the
    two byte meters. *)
Definition client_do (b : bombardier) : response * bombardier :=
  let r := client b (calls b) in
  let b := set_bytesWritten (wrapi64 (bytesWritten b + wr r)) b in
  let b := set_bytesRead (wrapi64 (bytesRead b + rd r)) b in
  (r, emit (EvDo (calls b)) (set_calls (S (calls b)) b)).

Definition performSingleRequest (b : bombardier) : bombardier :=
  let '(r, b) := client_do b in
  let b :=
    match err r with
    | Some e => emit (EvErrorsAdd e) (set_errors (errorMap_add (errors b) e) b)
    | None => b
    end in
  writeStatistics (code r) (msTaken r) b.

(** [Duration.Seconds] of package [time], on nanoseconds. *)
Definition Seconds (d : Z) : float64 :=
  fadd (of_int (Z.quot d 1000000000))
       (fdiv (of_int (Z.rem d 1000000000)) (FFin 1000000000)).

Definition recordRps (now : Z) (b : bombardier) : bombardier :=
  let duration := now - start b in
  let n := reqs b in
  let b := set_start now (set_reqs 0 b) in
  let reqsf := fdiv (of_int n) (Seconds duration) in
  emit (EvRecordRps n) (set_requests (fIncrement (requests b) reqsf) b).

(** ** Printing ([bombardier.go], lines 313-402) *)

(** The formatters of the missing [format.go], the verbs of [fmt] and the
    frequency order of the missing [error_map.go]. *)
Record formatters : Type := mkFormatters {
  formatBinary : float64 -> string;
  formatTimeUs : float64 -> string;
  formatUnitsUs : float64 -> string;
  verb_10_2f : float64 -> string;
  verb_v : Z -> string;
  byFrequency : errorMap -> list (string * Z)
}.

Definition printLatencyStats (fm : formatters) (b : bombardier)
    (impl : Z) : list string :=
  "  Latency Distribution"%string ::
  map (fun '(p, shown) =>
         let n := latenciesPercentile impl (latencies b) p in
         "     " +:+ shown +:+ "% " +:+ pad_left 10 (formatUnitsUs fm (of_int n)))
      [(FFin 50, "50"); (FFin 75, "75"); (FFin 90, "90"); (FFin 99, "99")]%string.

(** The argument of [formatBinary] in the last line of [printStats]. *)
Definition throughputFigure (b : bombardier) : float64 :=
  fdiv (of_int (wrapi64 (bytesRead b + bytesWritten b))) (Seconds (timeTaken b)).

(** [printStats], as the list of the lines written to [b.out]. *)
Definition printStats (fm : formatters) (impl : Z) (b : bombardier)
    : list string :=
  [ pad_left 10 "Statistics" +:+ " " +:+ pad_left 10 "Avg" +:+ " "
      +:+ pad_left 10 "Stdev" +:+ " " +:+ pad_left 10 "Max";
    rpsString (verb_10_2f fm) (requests b);
    latenciesString (formatTimeUs fm) (latencies b) ]
  ++ (if printLatencies (conf b) then printLatencyStats fm b impl else [])
  ++ [ "  HTTP codes:"%string;
       "    1xx - " +:+ verb_v fm (req1xx b) +:+ ", 2xx - " +:+ verb_v fm (req2xx b)
         +:+ ", 3xx - " +:+ verb_v fm (req3xx b) +:+ ", 4xx - "
         +:+ verb_v fm (req4xx b) +:+ ", 5xx - " +:+ verb_v fm (req5xx b);
       "    others - " +:+ verb_v fm (others b) ]
  ++ (if 0 <? errorMap_sum (errors b)
      then "  Errors:"%string ::
           map (fun e => "    " +:+ pad_left 10 (fst e) +:+ " - " +:+ verb_v fm (snd e))
               (byFrequency fm (errors b))
      else [])
  ++ [ "  " +:+ pad_right 10 "Throughput:" +:+ " "
         +:+ pad_left 10 (formatBinary fm (throughputFigure b)) +:+ "/s" ].

(** ** The goroutines of [bombard] ([bombardier.go], lines 195-279)

    The workers, the rate meter, the bar updater and [bombard] itself each
    advance by atomic steps; a schedule picks who moves next.  Time moves
    by [Sleep]; [Cancel] is the interrupt handler of [main]. *)

Inductive wpc : Type := WGrab | WPace | WPerform | WJobDone | WExit.
Inductive mpc : Type := MIdle | MSelect | MWait | MRecord | MSend | MExit.
Inductive upc : Type := UIdle | USelect | USend | UExit.
Inductive opc : Type :=
  OBegin | OStart | OSpawn | OWait | OSince | ORecv1 | ORecv2 | OReturned.

Record sys : Type := mkSys {
  sb : bombardier;
  gos : list wpc;
  meter : mpc;
  updater : upc;
  orch : opc;
  now : Z;
  bombardmentBegin : Z
}.

Definition with_sb (b : bombardier) (s : sys) : sys :=
  mkSys b (gos s) (meter s) (updater s) (orch s) (now s) (bombardmentBegin s).

Definition with_go (i : nat) (pc : wpc) (s : sys) : sys :=
  mkSys (sb s) (<[i := pc]> (gos s)) (meter s) (updater s) (orch s) (now s)
        (bombardmentBegin s).

Definition with_meter (pc : mpc) (s : sys) : sys :=
  mkSys (sb s) (gos s) pc (updater s) (orch s) (now s) (bombardmentBegin s).

Definition with_updater (pc : upc) (s : sys) : sys :=
  mkSys (sb s) (gos s) (meter s) pc (orch s) (now s) (bombardmentBegin s).

Definition with_orch (pc : opc) (s : sys) : sys :=
  mkSys (sb s) (gos s) (meter s) (updater s) pc (now s) (bombardmentBegin s).

Definition fired (s : sys) : bool := done (barrier (sb s)) (now s).

(** The worker leaves its loop; the deferred [b.workers.Done()] runs. *)
Definition leave (i : nat) (s : sys) : sys :=
  with_go i WExit (with_sb (set_workers (pred (workers (sb s))) (sb s)) s).

(** One step of the [i]-th worker goroutine.  [granted] tells whether the
    limiter has a token for it.  The step from [WPerform] stands for the
    whole call of [performSingleRequest]: the call of the client and the
    updates that record its answer are one step here, where other
    goroutines can run between them in the code.  What is stated on the
    books of the requests is therefore stated where no request is under
    way. *)
Definition worker (i : nat) (granted : bool) (s : sys) : option sys :=
  match gos s !! i with
  | Some WGrab =>
      let '(ok, bar) := tryGrabWork (barrier (sb s)) (now s) in
      if ok then Some (with_go i WPace (with_sb (set_barrier bar (sb s)) s))
      else Some (leave i s)
  | Some WPace =>
      match pace (ratelimiter (sb s)) (fired s) granted with
      | Some brk => Some (leave i s)
      | Some cont => Some (with_go i WPerform s)
      | None => None
      end
  | Some WPerform =>
      Some (with_go i WJobDone (with_sb (performSingleRequest (sb s)) s))
  | Some WJobDone =>
      Some (with_go i WGrab
              (with_sb (set_barrier (jobDone (barrier (sb s))) (sb s)) s))
  | Some WExit | None => None
  end.

(** A send on [b.doneChan], a channel of capacity 2. *)
Definition send (e : event) (s : sys) : option sys :=
  if (doneChan (sb s) <? 2)%nat
  then Some (with_sb (emit e (set_doneChan (S (doneChan (sb s))) (sb s))) s)
  else None.

(** One step of [rateMeter]; at the [select], [tick] tells whether the
    ticker case is taken. *)
Definition rateMeter (tick : bool) (s : sys) : option sys :=
  match meter s with
  | MSelect =>
      if tick then Some (with_sb (recordRps (now s) (sb s)) s)
      else if fired s
      then Some (with_meter MWait (with_sb (emit EvMeterDone (sb s)) s))
      else None
  | MWait =>
      if (workers (sb s) =? 0)%nat
      then Some (with_meter MRecord (with_sb (emit EvMeterWaited (sb s)) s))
      else None
  | MRecord => Some (with_meter MSend (with_sb (recordRps (now s) (sb s)) s))
  | MSend => with_meter MExit <$> send EvMeterToken s
  | MIdle | MExit => None
  end.

(** One step of [barUpdater]; the progress bar itself is not modelled. *)
Definition barUpdater (s : sys) : option sys :=
  match updater s with
  | USelect => if fired s then Some (with_updater USend s) else Some s
  | USend => with_updater UExit <$> send EvBarToken s
  | UIdle | UExit => None
  end.

(** A receive from [b.doneChan]. *)
Definition recv (s : sys) : option sys :=
  match doneChan (sb s) with
  | O => None
  | S n => Some (with_sb (emit EvToken (set_doneChan n (sb s))) s)
  end.

(** One step of [bombard].  The goroutines are spawned in one step: a
    goroutine that was spawned and has not run yet cannot be told from one
    that is not spawned yet. *)
Definition bombard (s : sys) : option sys :=
  match orch s with
  | OBegin =>
      Some (mkSys (sb s) (gos s) (meter s) (updater s) OStart (now s) (now s))
  | OStart => Some (with_orch OSpawn (with_sb (set_start (now s) (sb s)) s))
  | OSpawn =>
      Some (mkSys (sb s) (replicate (Z.to_nat (numConns (conf (sb s)))) WGrab)
              MSelect USelect OWait (now s) (bombardmentBegin s))
  | OWait =>
      if (workers (sb s) =? 0)%nat
      then Some (with_orch OSince (with_sb (emit EvWorkersDone (sb s)) s))
      else None
  | OSince =>
      let d := now s - bombardmentBegin s in
      Some (with_orch ORecv1
              (with_sb (emit (EvTimeTaken d) (set_timeTaken d (sb s))) s))
  | ORecv1 => with_orch ORecv2 <$> recv s
  | ORecv2 =>
      (fun s => with_orch OReturned (with_sb (emit EvReturn (sb s)) s))
        <$> recv s
  | OReturned => None
  end.

Inductive choice : Type :=
| Worker (i : nat) (granted : bool)
| RateMeter (tick : bool)
| BarUpdater
| Bombard
| Cancel
| Sleep (d : Z).

Definition step (c : choice) (s : sys) : option sys :=
  match c with
  | Worker i granted => worker i granted s
  | RateMeter tick => rateMeter tick s
  | BarUpdater => barUpdater s
  | Bombard => bombard s
  | Cancel =>
      Some (with_sb (emit EvCancel
                       (set_barrier (cancel (barrier (sb s))) (sb s))) s)
  | Sleep d =>
      if 0 <=? d
      then Some (mkSys (sb s) (gos s) (meter s) (updater s) (orch s)
                   (now s + d) (bombardmentBegin s))
      else None
  end.

Fixpoint run (cs : list choice) (s : sys) : option sys :=
  match cs with
  | [] => Some s
  | c :: cs =>
      match step c s with
      | Some s' => run cs s'
      | None => None
      end
  end.

(** ** Construction ([bombardier.go], lines 59-160, and [client_cert.go]) *)

Definition bytes : Type := list Byte.byte.

(** [pem.Block], [tls.Certificate] and [tls.Config], as far as they are
    used. *)
Record pemBlock : Type := mkBlock { blockType : string; blockBytes : bytes }.

Record certificate : Type := mkCertificate { certPEM : bytes; keyPEM : bytes }.

Record tlsConfig : Type := mkTLSConfig {
  InsecureSkipVerify : bool;
  Certificates : list certificate
}.

Inductive bodyStreamProducer : Type :=
| openFile (path : string)
| readString (s : string).

Record clientOpts : Type := mkClientOpts {
  HTTP2 : bool;
  maxConns : Z;
  co_timeout : Z;
  co_tlsConfig : tlsConfig;
  co_headers : list (string * string);
  co_url : string;
  co_method : string;
  co_body : option string;
  bodProd : option bodyStreamProducer
}.

(** What the construction calls outside of the two files: the file system,
    packages [crypto/tls] and [encoding/pem], [checkArgs] of the missing
    [config.go] and the client constructors of the missing client files. *)
Record world : Type := mkWorld {
  checkArgs : config -> option string;
  ioutilReadFile : string -> bytes + string;
  tlsX509KeyPair : bytes -> bytes -> certificate + string;
  pemDecode : bytes -> option (pemBlock * bytes);
  pemEncodeToMemory : pemBlock -> bytes;
  newHTTPClient : clientOpts -> nat -> response;
  newFastHTTPClient : clientOpts -> nat -> response
}.

(** A call returns, or ends the process: [log.Fatalf] prints and exits, a
    run-time panic unwinds. *)
Inductive outcome (A : Type) : Type :=
| Ret (a : A)
| Fatal (msg : string)
| Panic (msg : string).
Arguments Ret {A} a.
Arguments Fatal {A} msg.
Arguments Panic {A} msg.

(** Computations that read files: the state is the list of the names of the
    files read so far. *)
Definition io (A : Type) : Type := list string -> outcome A * list string.

Definition io_ret {A : Type} (a : A) : io A := fun l => (Ret a, l).

Definition io_bind {A B : Type} (m : io A) (k : A -> io B) : io B :=
  fun l =>
    match m l with
    | (Ret a, l') => k a l'
    | (Fatal msg, l') => (Fatal msg, l')
    | (Panic msg, l') => (Panic msg, l')
    end.

Notation "x <~ m ;; k" := (io_bind m (fun x => k))
  (at level 100, m at next level, right associativity).

Definition ReadFile (w : world) (filename : string) : io (bytes + string) :=
  fun l => (Ret (ioutilReadFile w filename), l ++ [filename]).

(** [logFatalf], that is [log.Fatalf], with the message already formatted. *)
Definition logFatalf {A : Type} (msg : string) : io A := fun l => (Fatal msg, l).

(** [strings.HasSuffix]. *)
Definition HasSuffix (s suffix : string) : bool :=
  let n := String.length s in
  let m := String.length suffix in
  (m <=? n)%nat && String.eqb (String.substring (n - m) m s) suffix.

(** The loop over the PEM blocks of the file; [pem.Decode] consumes at
    least one byte for every block it finds, so the length of the file
    bounds the number of turns. *)
Fixpoint pemBlocks (w : world) (turns : nat) (certFileBytes pkeyPem certPem : bytes)
    : bytes * bytes :=
  match turns with
  | O => (pkeyPem, certPem)
  | S turns =>
      match pemDecode w certFileBytes with
      | None => (pkeyPem, certPem)
      | Some (block, rest) =>
          let pkeyPem :=
            if HasSuffix (blockType block) "PRIVATE KEY"
            then pemEncodeToMemory w block else pkeyPem in
          let certPem :=
            if HasSuffix (blockType block) "CERTIFICATE"
            then pemEncodeToMemory w block else certPem in
          pemBlocks w turns rest pkeyPem certPem
      end
  end.

Definition readClientCert (w : world) (filename : string)
    : io (list certificate) :=
  if String.eqb filename EmptyString then io_ret []
  else
    r <~ ReadFile w filename ;;
    certFileBytes <~
      match r with
      | inl data => io_ret data
      | inr e => logFatalf ("failed to read client certificate file: " +:+ e)
      end ;;
    let '(pkeyPem, certPem) :=
      pemBlocks w (S (length certFileBytes)) certFileBytes [] [] in
    match tlsX509KeyPair w certPem pkeyPem with
    | inl cert => io_ret [cert]
    | inr e => logFatalf ("unable to load client cert and key pair: " +:+ e)
    end.

Definition generateTLSConfig (w : world) (c : config) : io tlsConfig :=
  certs <~ readClientCert w (clientCert c) ;;
  io_ret (mkTLSConfig (insecure c) certs).

Definition makeHTTPClient (w : world) (t : clientTyp) (cc : clientOpts)
    : nat -> response :=
  match t with
  | nhttp1 => newHTTPClient w cc
  | nhttp2 =>
      newHTTPClient w
        (mkClientOpts true (maxConns cc) (co_timeout cc) (co_tlsConfig cc)
           (co_headers cc) (co_url cc) (co_method cc) (co_body cc) (bodProd cc))
  | fhttp => newFastHTTPClient w cc
  end.

(** The record that [newBombardier] returns when nothing fails. *)
Definition constructed (c : config) (bar : completionBarrier) (cl : nat -> response)
    : bombardier :=
  mkBombardier 0 0 0 0 0 0 0 0 c bar
    (match rate c with Some r => bucketLimiter r | None => nooplimiter end)
    (Z.to_nat (numConns c)) 0 [] [] cl 0 0 0 ∅ 0 [].

(** The call [tlsConfig, err := generateTLSConfig(c)] at line 91 of
    [bombardier.go] binds two results.  The [generateTLSConfig] of
    [client_cert.go] has one: it reports a failure through [logFatalf],
    and whenever it comes back the error is nil. *)
Definition generateTLSConfig_call (w : world) (c : config)
    : io (tlsConfig + string) :=
  tlsConfig <~ generateTLSConfig w c ;;
  io_ret (inl tlsConfig).

(** [newBombardier] of [bombardier.go], lines 59-144, over the
    [generateTLSConfig] that it calls; [now] is the time of the call, from
    which a timed barrier counts.  The progress bar is left out, but for
    the two assignments through [b.bar], which panic when neither a request
    count nor a duration is set. *)
Definition newBombardier_from (gen : config -> io (tlsConfig + string))
    (w : world) (now : Z) (c : config) : io (bombardier + string) :=
  match checkArgs w c with
  | Some e => io_ret (inr e)
  | None =>
      match testType c, numReqs c, duration c with
      | counted, Some R, _ | timed, _, Some R =>
          let bar :=
            match testType c with
            | counted => newCountingCompletionBarrier R
            | _ => newTimedCompletionBarrier now R
            end in
          r <~ gen c ;;
          match r with
          | inr err => io_ret (inr err)
          | inl tlsConfig =>
              body <~
                (if stream c then
                   io_ret (inl (None,
                                Some (if String.eqb (bodyFilePath c) EmptyString
                                      then readString (body c)
                                      else openFile (bodyFilePath c))))
                 else if String.eqb (bodyFilePath c) EmptyString then
                   io_ret (inl (Some (body c), None))
                 else
                   r <~ ReadFile w (bodyFilePath c) ;;
                   io_ret match r with
                          | inl data =>
                              inl (Some (String.string_of_list_byte data), None)
                          | inr e => inr e
                          end) ;;
              match body with
              | inr e => io_ret (inr e)
              | inl (pbody, bsp) =>
                  let cc := mkClientOpts false (numConns c) (timeout c) tlsConfig
                              (headers c) (url c) (method c) pbody bsp in
                  io_ret (inl (constructed c bar
                                 (makeHTTPClient w (clientType c) cc)))
              end
          end
      | _, _, _ =>
          fun l => (Panic "invalid memory address or nil pointer dereference", l)
      end
  end.

(** [newBombardier] with the [generateTLSConfig] of [client_cert.go]. *)
Definition newBombardier (w : world) (now : Z) (c : config)
    : io (bombardier + string) :=
  newBombardier_from (generateTLSConfig_call w) w now c.

(** The state in which [main] calls [bombard]. *)
Definition boot (b : bombardier) (now : Z) : sys :=
  mkSys b [] MIdle UIdle OBegin now 0.

(** ** The percentile as the specification words it

    Second definitions, from the words of the specification: the distinct
    keys with a count above zero, the rank, the cumulative count of a key,
    and the first key whose cumulative count reaches the rank. *)

Module Spec.

Definition is_key (h : uhist) (k : Z) : Prop := 0 < Get h k.

Definition total_count (h : uhist) : Z := samples h.

(** [rank = floor(p/100 * total_count + 0.5)], in exact arithmetic. *)
Definition rank (p : Q) (h : uhist) : Z :=
  Qfloor (p / 100 * inject_Z (total_count h) + (1 # 2)).

(** The counts of all keys up to [k], added up. *)
Definition cumulative (h : uhist) (k : Z) : Z :=
  fold_right (fun e acc => if fst e <=? k then snd e + acc else acc) 0 h.

Definition first_reaching (h : uhist) (r k : Z) : Prop :=
  is_key h k /\ r <= cumulative h k /\
  forall k', is_key h k' -> k' < k -> cumulative h k' < r.

(** The result of the percentile: 0 when the total count is zero, and
    else the first key whose cumulative count reaches the rank. *)
Definition percentile (p : Q) (h : uhist) (result : Z) : Prop :=
  (total_count h = 0 -> result = 0) /\
  (0 < total_count h -> first_reaching h (rank p h) result).

End Spec.

(** ** Auxiliary definitions for the statements *)

Definition sumZ (l : list Z) : Z := fold_right Z.add 0 l.

(** Sum of the counts of the keys [ks]. *)
Definition sumGet (h : uhist) (ks : list Z) : Z := sumZ (map (Get h) ks).

(** The float of which [percentile_rank] takes the integer part. *)
Definition rank_float (p : Q) (n : Z) : float64 :=
  fadd (fmul (fdiv (FFin p) (FFin 100)) (of_int n)) (FFin (1 # 2)).

(** The binary64 numbers: at most 53 significant bits, exponent at least
    that of the subnormal numbers.  (The largest exponent is the business
    of [pack].) *)
Definition representable (y : Q) : Prop :=
  exists m e,
    (y == inject_Z m * pow2 e)%Q /\ Z.abs m < 2 ^ 53 /\ -1074 <= e.

(** [float64(n)] by the binary64 operations of the standard library. *)
Definition b64 (n : Z) : spec_float := binary_normalize 53 1024 n 0 false.

(** ** Inputs of the examples *)

Definition hist3 : uhist := [(30, 2); (10, 1); (20, 5)].

(** Fifty samples: the latency 1 fourteen times, the latency 2 thirty-six
    times. *)
Definition hist_50 : uhist := [(1, 14); (2, 36)].

(** One key recorded [2^52 + 1] times. *)
Definition hist_large : uhist := [(5, 2 ^ 52 + 1)].

(** The latency 2 recorded three times. *)
Definition hist_2x3 : uhist := [(2, 3)].

(** The rate 2 sampled three times. *)
Definition rps_2x3 : fhist := [(FFin 2, 3)].

Definition config0 (N : Z) (R D : option Z) (cert : string) : config :=
  mkConfig N R D "http://localhost" [] 2000000000 "GET" EmptyString EmptyString false cert false
    false None fhttp.

(** A client that always gets [200 OK] after 150 microseconds. *)
Definition ok200 (n : nat) : response := mkResponse 200 150 None 1024 80.

(** A client whose requests time out. *)
Definition timing_out (n : nat) : response :=
  mkResponse 0 2000000 (Some "timeout"%string) 0 80.

(** The status codes of scenario S3, ten times each. *)
Definition codes_S3 : list Z :=
  concat (replicate 10 [101; 201; 301; 401; 501; 601; 701]).

(** A world without files. *)
Definition no_files : world :=
  mkWorld (fun _ => None)
    (fun name => inr ("open " +:+ name +:+ ": no such file or directory"))
    (fun _ _ => inr "tls: failed to find any PEM data in certificate input"%string)
    (fun _ => None) (fun _ => []) (fun _ => ok200) (fun _ => ok200).



(** ** Observations on the goroutines and on the trace *)

(** Number of goroutines whose place satisfies [f]. *)
Definition cntZ (f : wpc -> bool) (l : list wpc) : Z :=
  sumZ (map (fun pc => if f pc then 1 else 0) l).

(** Between a successful [tryGrabWork] and the end of [jobDone]. *)
Definition inflight (pc : wpc) : bool :=
  match pc with WPace | WPerform | WJobDone => true | _ => false end.

(** The request is performed, [jobDone] is still to come. *)
Definition answered (pc : wpc) : bool :=
  match pc with WJobDone => true | _ => false end.

Definition exited (pc : wpc) : bool :=
  match pc with WExit => true | _ => false end.

Definition running (pc : wpc) : bool := negb (exited pc).

(** [bombard] has started its goroutines. *)
Definition spawned (s : sys) : bool :=
  match orch s with OBegin | OStart | OSpawn => false | _ => true end.

(** [b.workers.Wait()] has returned in [bombard]. *)
Definition joined (pc : opc) : bool :=
  match pc with OSince | ORecv1 | ORecv2 | OReturned => true | _ => false end.

(** [b.workers.Wait()] has returned in [rateMeter]. *)
Definition waited (pc : mpc) : bool :=
  match pc with MRecord | MSend | MExit => true | _ => false end.

(** [b.timeTaken] is assigned. *)
Definition timed_bombard (pc : opc) : bool :=
  match pc with ORecv1 | ORecv2 | OReturned => true | _ => false end.

Definition isMeterEvent (e : event) : bool :=
  match e with
  | EvMeterDone | EvMeterWaited | EvRecordRps _ | EvMeterToken => true
  | _ => false
  end.

Definition isMeterDone (e : event) : bool :=
  match e with EvMeterDone => true | _ => false end.

(** The rate meter has taken the done case of its [select]. *)
Definition sawDone (l : list event) : bool := existsb isMeterDone l.

(** What the rate meter does after it has taken the done case. *)
Fixpoint afterDone (l : list event) : list event :=
  match l with
  | [] => []
  | EvMeterDone :: t => List.filter isMeterEvent t
  | _ :: t => afterDone t
  end.

(** No cancel so far. *)
Definition quiet (s : sys) : Prop := cancelled (barrier (sb s)) = false.

(** ** Schedules of the examples *)

(** Two workers share three requests; then the observers and [bombard]
    finish. *)
Definition schedule_2x3 : list choice :=
  [Bombard; Bombard; Bombard;
   Worker 0 true; Worker 0 true; Worker 0 true; Worker 0 true;
   Worker 1 true; Worker 1 true; Worker 1 true; Worker 1 true;
   Worker 0 true; Worker 0 true; Worker 0 true; Worker 0 true;
   Worker 0 true; Worker 1 true; Sleep 1000;
   RateMeter false; RateMeter false; RateMeter false; RateMeter false;
   BarUpdater; BarUpdater;
   Bombard; Bombard; Bombard; Bombard].

Definition boot_2x3 : sys :=
  boot (constructed (config0 2 (Some 3) None EmptyString)
          (newCountingCompletionBarrier 3) ok200) 0.

(** A timed test of one worker: the deadline passes while the worker is
    about to perform a request; the rate meter takes the done case, the
    request is performed and recorded, the worker leaves, and only then the
    meter records its last sample. *)
Definition schedule_late : list choice :=
  [Bombard; Bombard; Bombard;
   Worker 0 true; Worker 0 true;
   Sleep 1000;
   RateMeter false;
   Worker 0 true; Worker 0 true; Worker 0 true;
   RateMeter false; RateMeter false; RateMeter false].

Definition boot_late : sys :=
  boot (constructed (config0 1 None (Some 1000) EmptyString)
          (newTimedCompletionBarrier 0 1000) ok200) 0.

(** ** Towards the return of [bombard]

    A bound on the number of steps that are left when every goroutine that
    can move does move: a worker needs four steps for a request and one to
    leave. *)

Definition weight (pc : wpc) : Z :=
  match pc with
  | WExit => 0
  | WGrab => 1
  | WJobDone => 2
  | WPerform => 3
  | WPace => 4
  end.

Definition orchW (N : Z) (pc : opc) : Z :=
  match pc with
  | OBegin => N + 7
  | OStart => N + 6
  | OSpawn => N + 5
  | OWait => 4
  | OSince => 3
  | ORecv1 => 2
  | ORecv2 => 1
  | OReturned => 0
  end.

Definition meterW (pc : mpc) : Z :=
  match pc with
  | MIdle | MSelect => 4
  | MWait => 3
  | MRecord => 2
  | MSend => 1
  | MExit => 0
  end.

Definition updaterW (pc : upc) : Z :=
  match pc with
  | UIdle | USelect => 2
  | USend => 1
  | UExit => 0
  end.

Definition toGo (R N : Z) (s : sys) : Z :=
  orchW N (orch s) + 4 * (R - issued (barrier (sb s)))
  + sumZ (map weight (gos s)) + meterW (meter s) + updaterW (updater s).

(** Tokens sent to and received from [b.doneChan]. *)
Definition sentM (pc : mpc) : Z := match pc with MExit => 1 | _ => 0 end.
Definition sentU (pc : upc) : Z := match pc with UExit => 1 | _ => 0 end.
Definition received (pc : opc) : Z :=
  match pc with ORecv2 => 1 | OReturned => 2 | _ => 0 end.

(** The channel holds the tokens sent and not yet received; the observers
    run as soon as they are spawned. *)
Definition chan_inv (s : sys) : Prop :=
  Z.of_nat (doneChan (sb s)) = sentM (meter s) + sentU (updater s) - received (orch s)
  /\ (spawned s = true -> meter s <> MIdle /\ updater s <> UIdle).

(** Formatters that show nothing of their argument. *)
Definition formatters0 : formatters :=
  mkFormatters (fun _ => "?"%string) (fun _ => "?"%string) (fun _ => "?"%string)
    (fun _ => "?"%string) (fun _ => "?"%string) (fun _ => []).

(** ** The steps as a relation

    The same steps, told by what they change: the place of the goroutine
    that moves and the shared record. *)

Inductive wmove (s : sys) : wpc -> wpc -> bombardier -> Prop :=
| wm_grab bar :
    tryGrabWork (barrier (sb s)) (now s) = (true, bar) ->
    wmove s WGrab WPace (set_barrier bar (sb s))
| wm_nowork bar :
    tryGrabWork (barrier (sb s)) (now s) = (false, bar) ->
    wmove s WGrab WExit (set_workers (pred (workers (sb s))) (sb s))
| wm_cont : wmove s WPace WPerform (sb s)
| wm_brk :
    fired s = true ->
    wmove s WPace WExit (set_workers (pred (workers (sb s))) (sb s))
| wm_perform : wmove s WPerform WJobDone (performSingleRequest (sb s))
| wm_jobDone :
    wmove s WJobDone WGrab (set_barrier (jobDone (barrier (sb s))) (sb s)).

Inductive mmove (s : sys) : mpc -> mpc -> bombardier -> Prop :=
| mm_tick : mmove s MSelect MSelect (recordRps (now s) (sb s))
| mm_done : fired s = true -> mmove s MSelect MWait (emit EvMeterDone (sb s))
| mm_wait :
    workers (sb s) = 0%nat -> mmove s MWait MRecord (emit EvMeterWaited (sb s))
| mm_record : mmove s MRecord MSend (recordRps (now s) (sb s))
| mm_send :
    (doneChan (sb s) < 2)%nat ->
    mmove s MSend MExit
      (emit EvMeterToken (set_doneChan (S (doneChan (sb s))) (sb s))).

Inductive umove (s : sys) : upc -> upc -> bombardier -> Prop :=
| um_poll : fired s = false -> umove s USelect USelect (sb s)
| um_done : fired s = true -> umove s USelect USend (sb s)
| um_send :
    (doneChan (sb s) < 2)%nat ->
    umove s USend UExit
      (emit EvBarToken (set_doneChan (S (doneChan (sb s))) (sb s))).

Inductive Step (s : sys) : sys -> Prop :=
| St_worker i pc pc' b' :
    gos s !! i = Some pc -> wmove s pc pc' b' ->
    Step s (mkSys b' (<[i := pc']> (gos s)) (meter s) (updater s) (orch s)
              (now s) (bombardmentBegin s))
| St_meter pc' b' :
    mmove s (meter s) pc' b' ->
    Step s (mkSys b' (gos s) pc' (updater s) (orch s) (now s)
              (bombardmentBegin s))
| St_updater pc' b' :
    umove s (updater s) pc' b' ->
    Step s (mkSys b' (gos s) (meter s) pc' (orch s) (now s)
              (bombardmentBegin s))
| St_begin :
    orch s = OBegin ->
    Step s (mkSys (sb s) (gos s) (meter s) (updater s) OStart (now s) (now s))
| St_start :
    orch s = OStart ->
    Step s (mkSys (set_start (now s) (sb s)) (gos s) (meter s) (updater s)
              OSpawn (now s) (bombardmentBegin s))
| St_spawn :
    orch s = OSpawn ->
    Step s (mkSys (sb s) (replicate (Z.to_nat (numConns (conf (sb s)))) WGrab)
              MSelect USelect OWait (now s) (bombardmentBegin s))
| St_wait :
    orch s = OWait -> workers (sb s) = 0%nat ->
    Step s (mkSys (emit EvWorkersDone (sb s)) (gos s) (meter s) (updater s)
              OSince (now s) (bombardmentBegin s))
| St_since :
    orch s = OSince ->
    Step s (mkSys (emit (EvTimeTaken (now s - bombardmentBegin s))
                     (set_timeTaken (now s - bombardmentBegin s) (sb s)))
              (gos s) (meter s) (updater s) ORecv1 (now s)
              (bombardmentBegin s))
| St_recv1 n :
    orch s = ORecv1 -> doneChan (sb s) = S n ->
    Step s (mkSys (emit EvToken (set_doneChan n (sb s))) (gos s) (meter s)
              (updater s) ORecv2 (now s) (bombardmentBegin s))
| St_recv2 n :
    orch s = ORecv2 -> doneChan (sb s) = S n ->
    Step s (mkSys (emit EvReturn (emit EvToken (set_doneChan n (sb s))))
              (gos s) (meter s) (updater s) OReturned (now s)
              (bombardmentBegin s))
| St_cancel :
    Step s (mkSys (emit EvCancel (set_barrier (cancel (barrier (sb s))) (sb s)))
              (gos s) (meter s) (updater s) (orch s) (now s)
              (bombardmentBegin s))
| St_sleep d :
    0 <= d ->
    Step s (mkSys (sb s) (gos s) (meter s) (updater s) (orch s) (now s + d)
              (bombardmentBegin s)).

(** ** Invariants of the goroutines *)

(** The wait group counts the workers that are still running; whoever got
    past [b.workers.Wait()] found it at zero. *)
Record wg_inv (N : nat) (s : sys) : Prop := mkWgInv {
  g_conns : Z.to_nat (numConns (conf (sb s))) = N;
  g_workers :
    Z.of_nat (workers (sb s))
    = if spawned s then cntZ running (gos s) else Z.of_nat N;
  g_gos : if spawned s then length (gos s) = N else gos s = [];
  g_idle : spawned s = false -> meter s = MIdle /\ updater s = UIdle;
  g_joined : joined (orch s) = true -> workers (sb s) = 0%nat;
  g_waited : waited (meter s) = true -> workers (sb s) = 0%nat
}.

(** The books of a counted test that nobody cancelled. *)
Record counted_inv (R : Z) (s : sys) : Prop := mkCountedInv {
  c_kind : kind (barrier (sb s)) = Counting R;
  c_issued :
    issued (barrier (sb s))
    = completedReqs (barrier (sb s)) + cntZ inflight (gos s);
  c_calls :
    Z.of_nat (calls (sb s))
    = completedReqs (barrier (sb s)) + cntZ answered (gos s);
  c_target : issued (barrier (sb s)) <= R;
  c_exited : 0 < cntZ exited (gos s) -> issued (barrier (sb s)) = R
}.

(** What the rate meter did after the done case, by its place, and the
    request counter once the last sample is taken. *)
Definition meter_inv (s : sys) : Prop :=
  match meter s with
  | MIdle | MSelect => sawDone (trace (sb s)) = false
  | MWait => sawDone (trace (sb s)) = true /\ afterDone (trace (sb s)) = []
  | MRecord =>
      sawDone (trace (sb s)) = true /\
      afterDone (trace (sb s)) = [EvMeterWaited]
  | MSend =>
      sawDone (trace (sb s)) = true /\ reqs (sb s) = 0 /\
      exists n, afterDone (trace (sb s)) = [EvMeterWaited; EvRecordRps n]
  | MExit =>
      sawDone (trace (sb s)) = true /\ reqs (sb s) = 0 /\
      exists n,
        afterDone (trace (sb s)) = [EvMeterWaited; EvRecordRps n; EvMeterToken]
  end.

(** A counted test that nobody cancelled, with all its invariants. *)
Definition good (R : Z) (N : nat) (s : sys) : Prop :=
  wg_inv N s /\ counted_inv R s /\ chan_inv s /\ quiet s.

(** ** Further observations

    Closed forms and observations for the properties of the code beyond
    the statistics of one request. *)

(** The sum that the first pass of [latenciesString] accumulates: every
    key times its count. *)
Definition weightedSum (h : uhist) : Z :=
  sumZ (map (fun e => fst e * snd e) h).

(** The largest key, 0 for the empty histogram. *)
Definition maxKey (h : uhist) : Z := fold_right Z.max 0 (map fst h).

(** A float that is a number at least 0, or plus infinity. *)
Definition nonnegative (a : float64) : Prop :=
  match a with
  | FFin q => (0 <= q)%Q
  | FInf neg => neg = false
  | FNaN => False
  end.

(** The entries of an RPS histogram whose key is a finite number. *)
Definition finiteEntries (h : fhist) : fhist :=
  List.filter (fun e => negb (nonfinite (fst e))) h.

(** One line of the latency distribution that [printLatencyStats] prints:
    the percentage under [%2.0f%%], the latency under [%10s]. *)
Definition latencyRow (fm : formatters) (shown : string) (n : Z) : string :=
  "     " +:+ shown +:+ "% " +:+ pad_left 10 (formatUnitsUs fm (of_int n)).

(** The six status counters, added up. *)
Definition statusTotal (b : bombardier) : Z :=
  req1xx b + req2xx b + req3xx b + req4xx b + req5xx b + others b.

(** The requests that the calls of [recordRps] have taken off the request
    counter, by the events of the trace. *)
Fixpoint drained (l : list event) : Z :=
  match l with
  | [] => 0
  | EvRecordRps n :: t => n + drained t
  | _ :: t => drained t
  end.

(** What the loop of [readClientCert] sees: the blocks that [pem.Decode]
    finds in the file, in their order. *)
Fixpoint decodeAll (w : world) (turns : nat) (data : bytes) : list pemBlock :=
  match turns with
  | O => []
  | S turns =>
      match pemDecode w data with
      | None => []
      | Some (block, rest) => block :: decodeAll w turns rest
      end
  end.

(** The encoding of the last block whose type ends in [suffix]; [init]
    when there is none. *)
Definition lastEncoded (w : world) (suffix : string) (blocks : list pemBlock)
    (init : bytes) : bytes :=
  fold_left (fun acc block =>
               if HasSuffix (blockType block) suffix
               then pemEncodeToMemory w block else acc) blocks init.

(** [pem.Decode] returns a rest that is shorter than its input. *)
Definition consuming (w : world) : Prop :=
  forall data block rest,
    pemDecode w data = Some (block, rest) -> (length rest < length data)%nat.

(** The client that [makeHTTPClient] builds, by the constructor it calls. *)
Definition clientOf (w : world) (t : clientTyp) (cc : clientOpts)
    : nat -> response :=
  match t with
  | fhttp => newFastHTTPClient w cc
  | _ => newHTTPClient w cc
  end.

(** The files that [newBombardier] may read: those read before, the
    certificate file, and the body file when the body is not streamed. *)
Definition readable (c : config) (l : list string) (f : string) : Prop :=
  In f l \/
  (f = clientCert c /\ f <> EmptyString) \/
  (f = bodyFilePath c /\ f <> EmptyString /\ stream c = false).

(** The options that [newBombardier] passes to [makeHTTPClient]. *)
Definition optionsOf (c : config) (certs : list certificate)
    (pbody : option string) (bsp : option bodyStreamProducer) : clientOpts :=
  mkClientOpts false (numConns c) (timeout c) (mkTLSConfig (insecure c) certs)
    (headers c) (url c) (method c) pbody bsp.

(** Two records with the same books: status counters, latencies, calls of
    the client, request counter and drained requests. *)
Definition same_books (b b' : bombardier) : Prop :=
  (forall k, counter k b' = counter k b) /\
  latencies b' = latencies b /\ calls b' = calls b /\
  reqs b' = reqs b /\ drained (trace b') = drained (trace b).

(** Between two requests, every call of the client is in one status
    counter and in the latency histogram. *)
Definition balanced (b : bombardier) : Prop :=
  (forall k, 0 <= counter k b) /\
  statusTotal b = Z.of_nat (calls b) /\
  Forall (fun e => 0 <= snd e) (latencies b) /\
  samples (latencies b) = Z.of_nat (calls b).

(** Between two requests, every call of the client is in the request
    counter or was drained from it by [recordRps]. *)
Definition metered (b : bombardier) : Prop :=
  0 <= reqs b /\ 0 <= drained (trace b) /\
  reqs b + drained (trace b) = Z.of_nat (calls b).

(** ** Further inputs of the examples *)

(** A request body to be read from a file. *)
Definition config_body (path : string) (streaming : bool) : config :=
  mkConfig 2 (Some 3) None "http://localhost" [] 2000000000 "POST" "inline"
    path streaming EmptyString false false None nhttp2.

(** A file with a certificate chain and one key: two certificates, the key
    between them.  A block is one byte, the type is told by the byte. *)
Definition chain_world : world :=
  mkWorld (fun _ => None)
    (fun name => inl [Byte.x61; Byte.x6b; Byte.x62])
    (fun cert key => inl (mkCertificate cert key))
    (fun data =>
       match data with
       | [] => None
       | x :: rest =>
           Some (mkBlock (if Byte.eqb x Byte.x6b then "RSA PRIVATE KEY"
                          else "CERTIFICATE") [x], rest)
       end)
    (fun block => blockBytes block)
    (fun _ => ok200) (fun _ => ok200).

(** A test of one worker that is cancelled once the worker has grabbed its
    first request; the meter ticks before any time has passed. *)
Definition schedule_cancelled : list choice :=
  [Bombard; Bombard; Bombard; Worker 0 true; Cancel; Worker 0 true;
   Worker 0 true; Worker 0 true; Worker 0 true;
   RateMeter true; RateMeter false; RateMeter false; RateMeter false;
   RateMeter false; BarUpdater; BarUpdater;
   Bombard; Bombard; Bombard; Bombard].

Definition boot_cancelled : sys :=
  boot (constructed (config0 1 (Some 3) None EmptyString)
          (newCountingCompletionBarrier 3) ok200) 0.


(** * Properties *)

(** ** Rounding to binary64 *)

Section Rounding.

Local Open Scope Q_scope.

Lemma pow2_pos e : 0 < pow2 e.
Proof. apply Qpower_0_lt. reflexivity. Qed.

Lemma pow2_add a b : pow2 (a + b) == pow2 a * pow2 b.
Proof. apply Qpower_plus. discriminate. Qed.

Lemma pow2_le a b : (a <= b)%Z -> pow2 a <= pow2 b.
Proof. intros H. apply Qpower_le_compat_l; [exact H | discriminate]. Qed.

Lemma pow2_lt a b : (a < b)%Z -> pow2 a < pow2 b.
Proof. intros H. apply Qpower_lt_compat_l; [exact H | reflexivity]. Qed.

Lemma pow2_lt_inv a b : pow2 a < pow2 b -> (a < b)%Z.
Proof.
  intros H. destruct (Z_lt_le_dec a b) as [L|L]; [exact L|].
  apply pow2_le in L. apply Qle_not_lt in L. contradiction.
Qed.

Lemma pow2_Z n : (0 <= n)%Z -> pow2 n == inject_Z (2 ^ n).
Proof. intros H. unfold pow2. rewrite Zpower_Qpower by exact H. reflexivity. Qed.

Lemma inject_Z_le (a b : Z) : (a <= b)%Z -> inject_Z a <= inject_Z b.
Proof. intros H. rewrite <- Zle_Qle. exact H. Qed.

Lemma Qmake_lt_pow2 (n : Z) (d : positive) (a b : Z) :
  (0 <= a)%Z -> (0 <= b)%Z -> (n < 2 ^ a)%Z -> (2 ^ b <= Zpos d)%Z ->
  n # d < pow2 (a - b).
Proof.
  intros Ha Hb Hn Hd. unfold pow2.
  rewrite Qpower_minus by discriminate.
  apply Qlt_shift_div_l; [apply pow2_pos|].
  fold (pow2 b). fold (pow2 a). rewrite !pow2_Z by assumption.
  unfold Qlt, Qmult, inject_Z; simpl.
  assert (0 < 2 ^ b)%Z by (apply Z.pow_pos_nonneg; lia).
  destruct (Z_le_gt_dec n 0); nia.
Qed.

Lemma Qmake_ge_pow2 (n : Z) (d : positive) (a b : Z) :
  (0 <= a)%Z -> (0 <= b)%Z -> (2 ^ a <= n)%Z -> (Zpos d <= 2 ^ b)%Z ->
  pow2 (a - b) <= n # d.
Proof.
  intros Ha Hb Hn Hd. unfold pow2.
  rewrite Qpower_minus by discriminate.
  apply Qle_shift_div_r; [apply pow2_pos|].
  fold (pow2 b). fold (pow2 a). rewrite !pow2_Z by assumption.
  unfold Qle, Qmult, inject_Z; simpl.
  assert (0 < 2 ^ a)%Z by (apply Z.pow_pos_nonneg; lia).
  nia.
Qed.

(** [ilog2] brackets its argument between two powers of two. *)
Lemma ilog2_spec (x : Q) :
  0 < x -> pow2 (ilog2 x) <= x /\ x < pow2 (ilog2 x + 1).
Proof.
  intros Hx. destruct x as [n d]. unfold ilog2; simpl Qnum; simpl Qden.
  assert (Hn : (0 < n)%Z) by (unfold Qlt in Hx; simpl in Hx; lia).
  pose proof (Z.log2_spec n Hn) as [Hn1 Hn2].
  pose proof (Z.log2_spec (Zpos d) (Pos2Z.is_pos d)) as [Hd1 Hd2].
  pose proof (Z.log2_nonneg n). pose proof (Z.log2_nonneg (Zpos d)).
  destruct (Qle_bool (pow2 (Z.log2 n - Z.log2 (Z.pos d))) (n # d)) eqn:E.
  - apply Qle_bool_iff in E. split; [exact E|].
    replace (Z.log2 n - Z.log2 (Z.pos d) + 1)%Z
      with (Z.succ (Z.log2 n) - Z.log2 (Z.pos d))%Z by lia.
    apply Qmake_lt_pow2; lia.
  - split.
    + replace (Z.log2 n - Z.log2 (Z.pos d) - 1)%Z
        with (Z.log2 n - Z.succ (Z.log2 (Z.pos d)))%Z by lia.
      apply Qmake_ge_pow2; lia.
    + replace (Z.log2 n - Z.log2 (Z.pos d) - 1 + 1)%Z
        with (Z.log2 n - Z.log2 (Z.pos d))%Z by lia.
      apply Qnot_le_lt. intros C. apply Qle_bool_iff in C. congruence.
Qed.

Lemma ilog2_unique (x : Q) (e : Z) :
  pow2 e <= x -> x < pow2 (e + 1) -> ilog2 x = e.
Proof.
  intros H1 H2.
  assert (Hx : 0 < x) by (eapply Qlt_le_trans; [apply pow2_pos | exact H1]).
  destruct (ilog2_spec x Hx) as [H3 H4].
  assert (ilog2 x < e + 1)%Z.
  { apply pow2_lt_inv. eapply Qle_lt_trans; eassumption. }
  assert (e < ilog2 x + 1)%Z.
  { apply pow2_lt_inv. eapply Qle_lt_trans; eassumption. }
  lia.
Qed.

Lemma ilog2_mono (x y : Q) : 0 < x -> x <= y -> (ilog2 x <= ilog2 y)%Z.
Proof.
  intros Hx Hxy.
  assert (Hy : 0 < y) by (eapply Qlt_le_trans; eassumption).
  destruct (ilog2_spec x Hx) as [H1 _]. destruct (ilog2_spec y Hy) as [_ H2].
  assert (ilog2 x < ilog2 y + 1)%Z; [|lia].
  apply pow2_lt_inv. eapply Qle_lt_trans; [exact H1|].
  eapply Qle_lt_trans; eassumption.
Qed.

Lemma ilog2_proper (x y : Q) : 0 < x -> x == y -> ilog2 x = ilog2 y.
Proof.
  intros Hx E. destruct (ilog2_spec x Hx) as [H1 H2].
  symmetry. apply ilog2_unique; rewrite <- E; assumption.
Qed.

Lemma rne_bounds (x : Q) : (Qfloor x <= rne x <= Qfloor x + 1)%Z.
Proof.
  unfold rne. destruct (Qcompare _ _); [destruct (Z.even _)| |]; lia.
Qed.

Lemma rne_mono (x y : Q) : x <= y -> (rne x <= rne y)%Z.
Proof.
  intros H. pose proof (Qfloor_resp_le _ _ H) as Hf.
  pose proof (rne_bounds x). pose proof (rne_bounds y).
  destruct (Z.eq_dec (Qfloor x) (Qfloor y)) as [E|NE]; [|lia].
  unfold rne. rewrite E.
  destruct (Qcompare (x - inject_Z (Qfloor y)) (1#2)) eqn:Cx;
  destruct (Qcompare (y - inject_Z (Qfloor y)) (1#2)) eqn:Cy;
  try (destruct (Z.even (Qfloor y))); try lia; exfalso;
  try rewrite <- Qeq_alt in Cx; try rewrite <- Qlt_alt in Cx;
  try rewrite <- Qgt_alt in Cx; try rewrite <- Qeq_alt in Cy;
  try rewrite <- Qlt_alt in Cy; try rewrite <- Qgt_alt in Cy; lra.
Qed.

Lemma rnd_at_mono c x y : x <= y -> rnd_at c x <= rnd_at c y.
Proof.
  intros H. unfold rnd_at. pose proof (pow2_pos c).
  apply Qmult_le_compat_r; [|lra].
  apply inject_Z_le, rne_mono.
  apply Qmult_le_compat_r; [exact H|].
  apply Qlt_le_weak, Qinv_lt_0_compat; assumption.
Qed.

(** A multiple of [2^c] is its own rounding at [c]. *)
Lemma rnd_at_grid c m x : x == inject_Z m * pow2 c -> rnd_at c x == x.
Proof.
  intros E. unfold rnd_at. pose proof (pow2_pos c).
  assert (Hd : x / pow2 c == inject_Z m).
  { rewrite E. field. lra. }
  assert (Hr : rne (x / pow2 c) = m).
  { unfold rne. rewrite (Qfloor_comp _ _ Hd), Qfloor_Z.
    assert (C : (x / pow2 c - inject_Z m ?= 1 # 2) = Lt).
    { rewrite <- Qlt_alt. rewrite Hd. lra. }
    rewrite C. reflexivity. }
  rewrite Hr. symmetry. exact E.
Qed.

Lemma rnd_at_le_grid c m x :
  x <= inject_Z m * pow2 c -> rnd_at c x <= inject_Z m * pow2 c.
Proof.
  intros H. rewrite <- (rnd_at_grid c m (inject_Z m * pow2 c)) by reflexivity.
  apply rnd_at_mono. exact H.
Qed.

Lemma rnd_at_ge_grid c m x :
  inject_Z m * pow2 c <= x -> inject_Z m * pow2 c <= rnd_at c x.
Proof.
  intros H. rewrite <- (rnd_at_grid c m (inject_Z m * pow2 c)) by reflexivity.
  apply rnd_at_mono. exact H.
Qed.

Lemma pow2_grid c k : (c <= k)%Z -> pow2 k == inject_Z (2 ^ (k - c)) * pow2 c.
Proof.
  intros H. rewrite <- pow2_Z by lia. rewrite <- pow2_add.
  replace (k - c + c)%Z with k by lia. reflexivity.
Qed.

(** Rounding is monotone, also across a change of exponent: the power of
    two between the arguments is a number of both grids. *)
Lemma round_pos_mono (x y : Q) :
  0 < x -> x <= y -> round_pos x <= round_pos y.
Proof.
  intros Hx Hxy. unfold round_pos.
  assert (Hy : 0 < y) by (eapply Qlt_le_trans; eassumption).
  pose proof (ilog2_mono x y Hx Hxy) as He.
  destruct (ilog2_spec x Hx) as [_ Hx2]. destruct (ilog2_spec y Hy) as [Hy1 _].
  destruct (Z.eq_dec (fexp (ilog2 x)) (fexp (ilog2 y))) as [E|NE].
  - rewrite E. apply rnd_at_mono. exact Hxy.
  - unfold fexp in *.
    assert (Hk1 : (Z.max (ilog2 x - 52) (-1074) <= ilog2 y)%Z) by lia.
    assert (Hk2 : (Z.max (ilog2 y - 52) (-1074) <= ilog2 y)%Z) by lia.
    apply Qle_trans with (pow2 (ilog2 y)).
    + rewrite (pow2_grid _ _ Hk1). apply rnd_at_le_grid.
      rewrite <- (pow2_grid _ _ Hk1).
      apply Qle_trans with (pow2 (ilog2 x + 1)); [lra|]. apply pow2_le. lia.
    + rewrite (pow2_grid _ _ Hk2) at 1. apply rnd_at_ge_grid.
      rewrite <- (pow2_grid _ _ Hk2). exact Hy1.
Qed.

Lemma ilog2_dyadic (m k : Z) :
  (0 < m)%Z -> ilog2 (inject_Z m * pow2 k) = (Z.log2 m + k)%Z.
Proof.
  intros Hm. pose proof (Z.log2_spec m Hm) as [H1 H2].
  pose proof (Z.log2_nonneg m). pose proof (pow2_pos k).
  apply ilog2_unique.
  - rewrite pow2_add. apply Qmult_le_compat_r; [|lra].
    rewrite pow2_Z by lia. apply inject_Z_le. exact H1.
  - replace (Z.log2 m + k + 1)%Z with (Z.succ (Z.log2 m) + k)%Z by lia.
    rewrite pow2_add. apply Qmult_lt_compat_r; [lra|].
    rewrite pow2_Z by lia. rewrite <- Zlt_Qlt. exact H2.
Qed.

(** A number with at most 53 significant bits above the subnormal
    exponent is a binary64 number: rounding leaves it as it is. *)
Lemma round_pos_dyadic (x : Q) (m k : Z) :
  (0 < m < 2 ^ 53)%Z -> (-1074 <= k)%Z -> x == inject_Z m * pow2 k ->
  round_pos x == x.
Proof.
  intros Hm Hk E. unfold round_pos.
  assert (Hx : 0 < x).
  { rewrite E. apply Qmult_lt_0_compat; [|apply pow2_pos].
    replace 0 with (inject_Z 0) by reflexivity. rewrite <- Zlt_Qlt. lia. }
  rewrite (ilog2_proper x _ Hx E), ilog2_dyadic by lia.
  assert (Z.log2 m < 53)%Z by (apply Z.log2_lt_pow2; lia).
  set (c := fexp (Z.log2 m + k)).
  assert (Hc : (c <= k)%Z) by (unfold c, fexp; lia).
  apply (rnd_at_grid c (m * 2 ^ (k - c))).
  rewrite E, inject_Z_mult, (pow2_grid c k Hc). ring.
Qed.

Lemma round_pos_nonneg (x : Q) : 0 <= x -> 0 <= round_pos x.
Proof.
  intros Hx. unfold round_pos, rnd_at.
  set (c := fexp (ilog2 x)). pose proof (pow2_pos c).
  apply Qmult_le_0_compat; [|lra].
  replace 0 with (inject_Z 0) by reflexivity. apply inject_Z_le.
  pose proof (rne_bounds (x / pow2 c)).
  assert (0 <= Qfloor (x / pow2 c))%Z; [|lia].
  rewrite <- (Qfloor_Z 0). apply Qfloor_resp_le.
  apply Qle_shift_div_l; [assumption|].
  change (inject_Z 0) with 0. lra.
Qed.

(** Below a finite result, [round64] is finite and ordered. *)
Lemma round64_mono_fin (x y b : Q) :
  0 <= x -> x <= y -> round64 y = FFin b ->
  exists a, round64 x = FFin a /\ 0 <= a /\ a <= b.
Proof.
  intros Hx Hxy Hy. unfold round64 in *.
  destruct (Qcompare y 0) eqn:Cy.
  - rewrite <- Qeq_alt in Cy. inversion Hy; subst b.
    assert (Cx : (x ?= 0) = Eq) by (rewrite <- Qeq_alt; lra).
    rewrite Cx. exists 0. repeat split; lra.
  - rewrite <- Qlt_alt in Cy. lra.
  - rewrite <- Qgt_alt in Cy. unfold pack in Hy.
    destruct (Qle_bool (pow2 1024) (round_pos y)) eqn:Ov; [discriminate|].
    inversion Hy; subst b. clear Hy.
    destruct (Qcompare x 0) eqn:Cx.
    + exists 0. pose proof (Qred_correct (round_pos y)).
      pose proof (round_pos_nonneg y). repeat split; lra.
    + rewrite <- Qlt_alt in Cx. lra.
    + rewrite <- Qgt_alt in Cx.
      pose proof (round_pos_mono x y Cx Hxy) as Hm.
      pose proof (round_pos_nonneg x Hx).
      unfold pack.
      destruct (Qle_bool (pow2 1024) (round_pos x)) eqn:Ov'.
      * apply Qle_bool_iff in Ov'.
        assert (Qle_bool (pow2 1024) (round_pos y) = true).
        { apply Qle_bool_iff. lra. }
        congruence.
      * exists (Qred (round_pos x)).
        pose proof (Qred_correct (round_pos x)).
        pose proof (Qred_correct (round_pos y)).
        repeat split; lra.
Qed.

(** [round64] is exact on the binary64 numbers below [2^53]. *)
Lemma round64_exact (x : Q) (m k : Z) :
  (0 <= m < 2 ^ 53)%Z -> (-1074 <= k <= 0)%Z -> x == inject_Z m * pow2 k ->
  exists a, round64 x = FFin a /\ a == x.
Proof.
  intros Hm Hk E. unfold round64.
  destruct (Z.eq_dec m 0%Z) as [Z0|NZ].
  - subst m. assert (C : (x ?= 0) = Eq) by (rewrite <- Qeq_alt; rewrite E; ring).
    rewrite C. exists 0. split; [reflexivity|]. rewrite E. ring.
  - assert (Hx : 0 < x).
    { rewrite E. apply Qmult_lt_0_compat; [|apply pow2_pos].
      replace 0 with (inject_Z 0) by reflexivity. rewrite <- Zlt_Qlt. lia. }
    assert (C : (x ?= 0) = Gt) by (rewrite <- Qgt_alt; exact Hx).
    rewrite C. pose proof (round_pos_dyadic x m k ltac:(lia) ltac:(lia) E) as R.
    unfold pack.
    destruct (Qle_bool (pow2 1024) (round_pos x)) eqn:Ov.
    + exfalso. apply Qle_bool_iff in Ov. rewrite R, E in Ov.
      assert (inject_Z m * pow2 k < pow2 1024); [|lra].
      apply Qlt_le_trans with (inject_Z (2 ^ 53) * pow2 0).
      * pose proof (pow2_pos k). pose proof (pow2_le k 0 ltac:(lia)).
        assert (inject_Z m < inject_Z (2 ^ 53)) by (rewrite <- Zlt_Qlt; lia).
        assert (0 < inject_Z m).
        { replace 0 with (inject_Z 0) by reflexivity. rewrite <- Zlt_Qlt. lia. }
        apply Qle_lt_trans with (inject_Z m * pow2 0).
        -- apply Qmult_le_l; assumption.
        -- apply Qmult_lt_compat_r; [apply pow2_pos | assumption].
      * rewrite <- pow2_Z by lia. rewrite <- pow2_add. apply pow2_le. lia.
    + exists (Qred (round_pos x)). split; [reflexivity|].
      pose proof (Qred_correct (round_pos x)). lra.
Qed.

End Rounding.

(** ** The rounding is IEEE 754 roundTiesToEven *)

Section Nearest.

Local Open Scope Q_scope.

Lemma Qabs_both (a : Q) : a <= Qabs a /\ - a <= Qabs a.
Proof.
  split; [apply Qle_Qabs|]. rewrite <- Qabs_opp. apply Qle_Qabs.
Qed.

Lemma floor_or_above (x : Q) (n : Z) :
  inject_Z n <= inject_Z (Qfloor x) \/ inject_Z (Qfloor x) + 1 <= inject_Z n.
Proof.
  destruct (Z_le_gt_dec n (Qfloor x)) as [L|G].
  - left. apply inject_Z_le. exact L.
  - right. change 1 with (inject_Z 1). rewrite <- inject_Z_plus.
    apply inject_Z_le. lia.
Qed.

Lemma rne_Z (z : Z) : rne (inject_Z z) = z.
Proof.
  unfold rne. rewrite Qfloor_Z.
  assert (E : (inject_Z z - inject_Z z ?= 1 # 2) = Lt) by (rewrite <- Qlt_alt; lra).
  rewrite E. reflexivity.
Qed.

(** No integer is nearer to [x] than [rne x]. *)
Lemma rne_nearest (x : Q) (n : Z) :
  Qabs (x - inject_Z (rne x)) <= Qabs (x - inject_Z n).
Proof.
  pose proof (Qfloor_le x) as F1. pose proof (Qlt_floor x) as F2.
  rewrite inject_Z_plus in F2. change (inject_Z 1) with 1 in F2.
  destruct (Qabs_both (x - inject_Z n)) as [A1 A2].
  apply Qabs_Qle_condition. unfold rne.
  destruct (Qcompare (x - inject_Z (Qfloor x)) (1 # 2)) eqn:C;
    [rewrite <- Qeq_alt in C | rewrite <- Qlt_alt in C | rewrite <- Qgt_alt in C];
    try destruct (Z.even (Qfloor x));
    rewrite ?inject_Z_plus; change (inject_Z 1) with 1;
    destruct (floor_or_above x n); split; lra.
Qed.

(** In a tie the even neighbour is taken. *)
Lemma rne_tie_even (x : Q) :
  x - inject_Z (Qfloor x) == 1 # 2 -> Z.even (rne x) = true.
Proof.
  intros T. unfold rne. rewrite Qeq_alt in T. rewrite T.
  destruct (Z.even (Qfloor x)) eqn:E; [exact E|].
  rewrite Z.even_add, E. reflexivity.
Qed.

Lemma rnd_at_nearest (c : Z) (x : Q) (n : Z) :
  Qabs (x - rnd_at c x) <= Qabs (x - inject_Z n * pow2 c).
Proof.
  unfold rnd_at. pose proof (pow2_pos c) as P.
  pose proof (rne_nearest (x / pow2 c) n) as N.
  assert (E : forall z : Z,
             x - inject_Z z * pow2 c == (x / pow2 c - inject_Z z) * pow2 c).
  { intros z. field. lra. }
  rewrite !E, !Qabs_Qmult. apply Qmult_le_compat_r; [exact N|].
  apply Qabs_nonneg.
Qed.

Lemma round_pos_representable (x : Q) : 0 < x -> representable (round_pos x).
Proof.
  intros Hx. unfold round_pos, rnd_at.
  destruct (ilog2_spec x Hx) as [_ Hu].
  set (e := ilog2 x) in *. set (c := fexp e).
  assert (Hc : (e - 52 <= c)%Z /\ (-1074 <= c)%Z) by (unfold c, fexp; lia).
  pose proof (pow2_pos c) as P.
  assert (Hm : (0 <= rne (x / pow2 c) <= 2 ^ 53)%Z).
  { split.
    - pose proof (rne_bounds (x / pow2 c)).
      assert (0 <= Qfloor (x / pow2 c))%Z; [|lia].
      rewrite <- (Qfloor_Z 0). apply Qfloor_resp_le.
      apply Qle_shift_div_l; [assumption|]. change (inject_Z 0) with 0. lra.
    - rewrite <- (rne_Z (2 ^ 53)%Z). apply rne_mono.
      apply Qle_shift_div_r; [assumption|].
      rewrite <- pow2_Z by lia. rewrite <- pow2_add.
      apply Qle_trans with (pow2 (e + 1)); [lra|]. apply pow2_le. lia. }
  destruct (Z.eq_dec (rne (x / pow2 c)) (2 ^ 53)%Z) as [E|NE].
  - exists (2 ^ 52)%Z, (c + 1)%Z. rewrite E. split; [|split; [reflexivity|lia]].
    rewrite pow2_add. change (pow2 1) with 2.
    assert (T : inject_Z (2 ^ 53) == inject_Z (2 ^ 52) * 2) by reflexivity.
    rewrite T. ring.
  - exists (rne (x / pow2 c)), c. split; [reflexivity|]. split; lia.
Qed.

(** No binary64 number is nearer to [x] than [round_pos x]. *)
Theorem round_pos_nearest (x y : Q) :
  0 < x -> representable y -> Qabs (x - round_pos x) <= Qabs (x - y).
Proof.
  intros Hx (m & k & Ey & Hm & Hk). unfold round_pos.
  destruct (ilog2_spec x Hx) as [Hl Hu].
  set (e := ilog2 x) in *. set (c := fexp e).
  assert (Sign : (0 < m)%Z \/ y <= 0).
  { destruct (Z_lt_le_dec 0 m) as [G|L]; [left; exact G | right].
    pose proof (pow2_pos k).
    assert (inject_Z m <= 0) by (change 0 with (inject_Z 0); apply inject_Z_le; lia).
    rewrite Ey, <- (Qmult_0_l (pow2 k)). apply Qmult_le_compat_r; lra. }
  destruct (Qlt_le_dec y (pow2 e)) as [Lt|Ge].
  - destruct (Qabs_both (x - y)) as [A1 _].
    destruct (Z_le_gt_dec c e) as [Hc|Hc].
    + apply Qle_trans with (Qabs (x - pow2 e)).
      * rewrite (pow2_grid c e Hc). apply rnd_at_nearest.
      * apply Qabs_Qle_condition. split; lra.
    + assert (Hy0 : y <= 0).
      { destruct Sign as [Hmp|Hy0]; [|exact Hy0]. exfalso.
        assert (pow2 c <= y); [|pose proof (pow2_lt e c ltac:(lia)); lra].
        rewrite Ey. apply Qle_trans with (inject_Z 1 * pow2 k).
        - change (inject_Z 1) with 1. rewrite Qmult_1_l. apply pow2_le.
          unfold c, fexp in *. lia.
        - apply Qmult_le_compat_r; [apply inject_Z_le; lia|].
          apply Qlt_le_weak, pow2_pos. }
      apply Qle_trans with (Qabs (x - inject_Z 0 * pow2 c)).
      * apply rnd_at_nearest.
      * change (inject_Z 0) with 0. apply Qabs_Qle_condition. split; lra.
  - assert (Hy : 0 < y) by (pose proof (pow2_pos e); lra).
    assert (Hmp : (0 < m)%Z) by (destruct Sign; [assumption | lra]).
    assert (Hek : (e <= Z.log2 m + k)%Z).
    { rewrite <- (ilog2_dyadic m k Hmp).
      rewrite <- (ilog2_proper y _ Hy Ey).
      rewrite <- (ilog2_unique (pow2 e) e); [| lra | apply pow2_lt; lia].
      apply ilog2_mono; [apply pow2_pos | exact Ge]. }
    assert (Z.log2 m < 53)%Z by (apply Z.log2_lt_pow2; lia).
    assert (Hck : (c <= k)%Z) by (unfold c, fexp; lia).
    assert (Ey' : y == inject_Z (m * 2 ^ (k - c)) * pow2 c).
    { rewrite Ey, inject_Z_mult, (pow2_grid c k Hck). ring. }
    rewrite Ey'. apply rnd_at_nearest.
Qed.

End Nearest.

(** ** The rank of a percentile *)

Section Rank.

Local Open Scope Q_scope.

Lemma percentile_rank_eq impl p n :
  percentile_rank impl (FFin p) n = to_uint64 impl (rank_float p n).
Proof. reflexivity. Qed.

Lemma Qdiv100_le (x y : Q) : x <= y -> x / 100 <= y / 100.
Proof. intros H. apply Qmult_le_compat_r; [exact H | discriminate]. Qed.

Lemma Qdiv100_nonneg (x : Q) : 0 <= x -> 0 <= x / 100.
Proof.
  intros H. apply Qle_trans with (0 / 100); [discriminate|].
  apply Qdiv100_le. exact H.
Qed.

(** For [p <= 100] and fewer than [2^52] samples every intermediate value
    of the rank is finite, it grows with [p], and it stays below the number
    of samples plus one half. *)
Lemma rank_float_bounds (p1 p2 : Q) (n : Z) :
  0 <= p1 -> p1 <= p2 -> p2 <= 100 -> (0 <= n < 2 ^ 52)%Z ->
  exists c1 c2,
    rank_float p1 n = FFin c1 /\ rank_float p2 n = FFin c2 /\
    0 <= c1 /\ c1 <= c2 /\ c2 <= inject_Z n + (1 # 2).
Proof.
  intros H0 H12 H100 Hn. unfold rank_float, fdiv, of_int.
  change (Qzero 100) with false. cbv iota.
  destruct (round64_exact (100 / 100) 1 0) as (one & E1 & V1);
    [lia | lia | reflexivity |].
  assert (V1' : one == 1) by (rewrite V1; reflexivity).
  destruct (round64_mono_fin (p2 / 100) (100 / 100) one) as (a2 & Ea2 & Pa2 & La2);
    [ apply Qdiv100_nonneg; lra | apply Qdiv100_le; lra | exact E1 |].
  destruct (round64_mono_fin (p1 / 100) (p2 / 100) a2) as (a1 & Ea1 & Pa1 & La1);
    [ apply Qdiv100_nonneg; lra | apply Qdiv100_le; lra | exact Ea2 |].
  rewrite Ea1, Ea2.
  destruct (round64_exact (inject_Z n) n 0) as (t & Et & Vt);
    [lia | lia | change (pow2 0) with 1; ring |].
  rewrite Et. unfold fmul.
  assert (Pn : 0 <= inject_Z n).
  { change 0 with (inject_Z 0). apply inject_Z_le. lia. }
  destruct (round64_mono_fin (a2 * t) (inject_Z n) t) as (b2 & Eb2 & Pb2 & Lb2);
    [ apply Qmult_le_0_compat; lra
    | rewrite Vt; rewrite <- (Qmult_1_l (inject_Z n)) at 2;
      apply Qmult_le_compat_r; lra
    | exact Et |].
  destruct (round64_mono_fin (a1 * t) (a2 * t) b2) as (b1 & Eb1 & Pb1 & Lb1);
    [ apply Qmult_le_0_compat; lra | apply Qmult_le_compat_r; lra | exact Eb2 |].
  rewrite Eb1, Eb2. unfold fadd.
  destruct (round64_exact (inject_Z n + (1 # 2)) (2 * n + 1) (-1))
    as (u & Eu & Vu).
  { lia. }
  { lia. }
  { rewrite inject_Z_plus, inject_Z_mult. change (pow2 (-1)) with (1 # 2).
    change (inject_Z 2) with 2. change (inject_Z 1) with 1. ring. }
  destruct (round64_mono_fin (b2 + (1 # 2)) (inject_Z n + (1 # 2)) u)
    as (c2 & Ec2 & Pc2 & Lc2); [lra | lra | exact Eu |].
  destruct (round64_mono_fin (b1 + (1 # 2)) (b2 + (1 # 2)) c2)
    as (c1 & Ec1 & Pc1 & Lc1); [lra | lra | exact Ec2 |].
  exists c1, c2. repeat split; try assumption. lra.
Qed.

Lemma Qfloor_half (n : Z) : Qfloor (inject_Z n + (1 # 2)) = n.
Proof.
  pose proof (Qfloor_le (inject_Z n + (1 # 2))) as H1.
  pose proof (Qfloor_resp_le (inject_Z n) (inject_Z n + (1 # 2))) as H2.
  rewrite Qfloor_Z in H2.
  assert (H3 : (Qfloor (inject_Z n + (1 # 2)) < n + 1)%Z).
  { rewrite Zlt_Qlt, inject_Z_plus. change (inject_Z 1) with 1. lra. }
  assert (n <= Qfloor (inject_Z n + (1 # 2)))%Z by (apply H2; lra).
  lia.
Qed.

Lemma to_uint64_nonneg impl (c : Q) (n : Z) :
  0 <= c -> c <= inject_Z n + (1 # 2) -> (n < 2 ^ 64)%Z ->
  to_uint64 impl (FFin c) = Qfloor c /\ (0 <= Qfloor c <= n)%Z.
Proof.
  intros H0 Hc Hn. unfold to_uint64, qtrunc, Qneg.
  assert (Hf : (0 <= Qfloor c <= n)%Z).
  { split.
    - rewrite <- (Qfloor_Z 0). apply Qfloor_resp_le. exact H0.
    - rewrite <- (Qfloor_half n). apply Qfloor_resp_le. exact Hc. }
  assert (C : (c ?= 0) <> Lt) by (rewrite <- Qlt_alt; lra).
  destruct (c ?= 0); try congruence;
    (replace (0 <=? Qfloor c)%Z with true by (symmetry; apply Z.leb_le; lia));
    (replace (Qfloor c <? 2 ^ 64)%Z with true by (symmetry; apply Z.ltb_lt; lia));
    split; [reflexivity | exact Hf | reflexivity | exact Hf].
Qed.

(** The rank grows with [p] and never exceeds the number of samples. *)
Lemma percentile_rank_bounds impl (p1 p2 : Q) (n : Z) :
  0 <= p1 -> p1 <= p2 -> p2 <= 100 -> (0 <= n < 2 ^ 52)%Z ->
  (0 <= percentile_rank impl (FFin p1) n
     <= percentile_rank impl (FFin p2) n)%Z /\
  (percentile_rank impl (FFin p2) n <= n)%Z.
Proof.
  intros H0 H12 H100 Hn. rewrite !percentile_rank_eq.
  destruct (rank_float_bounds p1 p2 n H0 H12 H100 Hn)
    as (c1 & c2 & E1 & E2 & P1 & L12 & L2).
  rewrite E1, E2.
  destruct (to_uint64_nonneg impl c1 n) as [R1 B1]; [lra | lra | lia |].
  destruct (to_uint64_nonneg impl c2 n) as [R2 B2]; [lra | lra | lia |].
  rewrite R1, R2. pose proof (Qfloor_resp_le c1 c2 L12). lia.
Qed.

End Rank.

(** ** Walking the sorted keys *)

Section Percentile.

Lemma sumZ_app l1 l2 : sumZ (l1 ++ l2) = sumZ l1 + sumZ l2.
Proof. induction l1 as [|a l1 IH]; simpl; [reflexivity | rewrite IH; lia]. Qed.

Lemma sumZ_perm l1 l2 : Permutation l1 l2 -> sumZ l1 = sumZ l2.
Proof. induction 1; simpl; lia. Qed.

Lemma sumZ_nonneg l : Forall (fun x => 0 <= x) l -> 0 <= sumZ l.
Proof. induction 1; simpl; lia. Qed.

Lemma wrap64_small z : 0 <= z < 2 ^ 64 -> wrap64 z = z.
Proof. intros H. unfold wrap64. apply Z.mod_small. exact H. Qed.

Lemma Get_cons_eq k v t : Get ((k, v) :: t) k = v.
Proof. unfold Get. simpl. rewrite Z.eqb_refl. reflexivity. Qed.

Lemma Get_cons_ne k k' v t : k <> k' -> Get ((k, v) :: t) k' = Get t k'.
Proof.
  intros H. unfold Get. simpl.
  destruct (Z.eqb_spec k k'); [contradiction | reflexivity].
Qed.

Lemma wf_cons e t : wf (e :: t) -> wf t.
Proof.
  intros [N F]. split.
  - simpl in N. apply NoDup_cons_1_2 in N. exact N.
  - inversion F; assumption.
Qed.

Lemma Get_nonneg h k : wf h -> 0 <= Get h k.
Proof.
  intros [_ F]. unfold Get.
  destruct (List.find (fun e => fst e =? k) h) as [e|] eqn:E; [|lia].
  apply List.find_some in E. destruct E as [I _].
  rewrite Forall_forall in F. apply list_elem_of_In in I.
  specialize (F e I). lia.
Qed.

Lemma sumGet_nonneg h ks : wf h -> 0 <= sumGet h ks.
Proof.
  intros W. apply sumZ_nonneg. apply Forall_forall. intros x Hx.
  apply list_elem_of_fmap in Hx. destruct Hx as (k & -> & _).
  apply Get_nonneg. exact W.
Qed.

Lemma map_Get_cons k v t ks :
  ~ In k ks -> map (Get ((k, v) :: t)) ks = map (Get t) ks.
Proof.
  induction ks as [|a ks IH]; intros N; simpl; [reflexivity|].
  rewrite Get_cons_ne by (intros C; apply N; left; congruence).
  rewrite IH by (intros C; apply N; right; exact C). reflexivity.
Qed.

(** The counts of all keys add up to the number of samples. *)
Lemma sumGet_keys h : wf h -> sumGet h (map fst h) = samples h.
Proof.
  induction h as [|[k v] t IH]; intros W; [reflexivity|].
  pose proof (wf_cons _ _ W) as Wt. destruct W as [N _].
  simpl in N. apply NoDup_cons in N. destruct N as [N _].
  unfold sumGet, samples in *. simpl.
  rewrite Get_cons_eq, map_Get_cons, IH; [reflexivity | exact Wt |].
  intros C. apply N. apply list_elem_of_In. exact C.
Qed.

(** The first pass of [latenciesPercentile] collects the keys in visiting
    order and the number of samples. *)
Lemma visit_collect (h : uhist) (ks : list Z) (t : Z) :
  wf h -> 0 <= t -> t + samples h < 2 ^ 64 ->
  VisitAll h (fun '(keys, totalCount) k v =>
                (keys ++ [k], wrap64 (totalCount + v))) (ks, t)
  = (ks ++ map fst h, t + samples h).
Proof.
  unfold VisitAll. revert ks t.
  induction h as [|[k v] h IH]; intros ks t W Ht Hs; simpl.
  - rewrite app_nil_r, Z.add_0_r. reflexivity.
  - pose proof (wf_cons _ _ W) as Wh.
    assert (Hv : 1 <= v) by (destruct W as [_ F]; inversion F; simpl in *; lia).
    assert (Hh : 0 <= samples h).
    { rewrite <- sumGet_keys by exact Wh. apply sumGet_nonneg. exact Wh. }
    unfold samples in *. simpl in Hs.
    rewrite wrap64_small by lia. rewrite IH by (try exact Wh; lia).
    rewrite <- app_assoc. simpl. f_equal. lia.
Qed.

Lemma sort_keys_perm ks : Permutation (sort_keys ks) ks.
Proof. apply merge_sort_Permutation. Qed.

Lemma sort_keys_sorted ks : StronglySorted Z.le (sort_keys ks).
Proof. apply StronglySorted_merge_sort; typeclasses eauto. Qed.

Lemma sumGet_sorted h : wf h -> sumGet h (sort_keys (map fst h)) = samples h.
Proof.
  intros W. rewrite <- sumGet_keys by exact W. unfold sumGet.
  apply sumZ_perm. apply Permutation_map. apply sort_keys_perm.
Qed.

(** Keys that do not reach the rank are passed over. *)
Lemma walk_skip (h : uhist) (rank : Z) (pre rest : list Z) (total : Z) :
  wf h -> 0 <= total -> total + sumGet h pre < 2 ^ 64 ->
  (forall a k b, pre = a ++ k :: b -> total + sumGet h (a ++ [k]) < rank) ->
  percentile_walk h rank total (pre ++ rest)
  = percentile_walk h rank (total + sumGet h pre) rest.
Proof.
  intros W. revert total.
  induction pre as [|k pre IH]; intros total Ht Hs Hlt; simpl.
  - unfold sumGet. simpl. rewrite Z.add_0_r. reflexivity.
  - pose proof (Get_nonneg h k W). pose proof (sumGet_nonneg h pre W).
    unfold sumGet in *. simpl in Hs.
    rewrite wrap64_small by lia.
    pose proof (Hlt [] k pre eq_refl) as H1. simpl in H1.
    destruct (Z.leb_spec rank (total + Get h k)); [lia|].
    rewrite IH; [simpl; f_equal; lia | lia | lia |].
    intros a k' b E. specialize (Hlt (k :: a) k' b). simpl in Hlt.
    rewrite E in Hlt. specialize (Hlt eq_refl). lia.
Qed.

Lemma walk_hit (h : uhist) (rank total k : Z) (rest : list Z) :
  wf h -> 0 <= total -> total + Get h k < 2 ^ 64 -> rank <= total + Get h k ->
  percentile_walk h rank total (k :: rest) = k.
Proof.
  intros W Ht Hs Hr. simpl. pose proof (Get_nonneg h k W).
  rewrite wrap64_small by lia.
  destruct (Z.leb_spec rank (total + Get h k)); [reflexivity | lia].
Qed.

(** A walk that can reach the rank returns one of the keys. *)
Lemma walk_in (h : uhist) (rank : Z) (ks : list Z) (total : Z) :
  wf h -> 0 <= total -> total + sumGet h ks < 2 ^ 64 ->
  total < rank -> rank <= total + sumGet h ks ->
  In (percentile_walk h rank total ks) ks.
Proof.
  intros W. revert total.
  induction ks as [|k ks IH]; intros total Ht Hs Hlt Hr.
  - unfold sumGet in Hr. simpl in Hr. lia.
  - pose proof (Get_nonneg h k W). pose proof (sumGet_nonneg h ks W).
    unfold sumGet in *. simpl in *.
    rewrite wrap64_small by lia.
    destruct (Z.leb_spec rank (total + Get h k)); [left; reflexivity|].
    right. apply IH; lia.
Qed.

(** A walk that can reach the rank stops at the first key whose running
    total reaches it. *)
Lemma walk_split (h : uhist) (rank : Z) (ks : list Z) (total : Z) :
  wf h -> 0 <= total -> total + sumGet h ks < 2 ^ 64 ->
  ks <> [] -> rank <= total + sumGet h ks ->
  exists A B,
    ks = A ++ percentile_walk h rank total ks :: B /\
    (forall a k b, A = a ++ k :: b -> total + sumGet h (a ++ [k]) < rank) /\
    rank <= total + sumGet h (A ++ [percentile_walk h rank total ks]).
Proof.
  intros W. revert total.
  induction ks as [|k ks IH]; intros total Ht Hs Hne Hr; [congruence|].
  pose proof (Get_nonneg h k W). pose proof (sumGet_nonneg h ks W).
  assert (Es : sumGet h (k :: ks) = Get h k + sumGet h ks) by reflexivity.
  rewrite Es in Hs, Hr. simpl. rewrite wrap64_small by lia.
  destruct (Z.leb_spec rank (total + Get h k)) as [Le|Gt].
  - exists [], ks. split; [reflexivity|]. split.
    + intros a k' b E. destruct a; discriminate.
    + unfold sumGet. simpl. lia.
  - assert (Hne' : ks <> []).
    { intros ->. unfold sumGet in Hr. simpl in Hr. lia. }
    destruct (IH (total + Get h k) ltac:(lia) ltac:(lia) Hne' ltac:(lia))
      as (A & B & E & Hlt & Hge).
    exists (k :: A), B. split; [simpl; rewrite <- E; reflexivity|]. split.
    + intros a k' b EA. destruct a as [|x a]; simpl in EA; inversion EA; subst.
      * unfold sumGet. simpl. lia.
      * specialize (Hlt a k' b eq_refl). unfold sumGet in *. simpl. lia.
    + unfold sumGet in *. simpl. lia.
Qed.

(** The walk grows with the rank, as long as the rank can be reached. *)
Lemma walk_mono (h : uhist) (r1 r2 : Z) (ks : list Z) (total : Z) :
  wf h -> 0 <= total -> total + sumGet h ks < 2 ^ 64 ->
  StronglySorted Z.le ks -> Forall (fun k => 0 <= k) ks ->
  r1 <= r2 -> r2 <= total + sumGet h ks ->
  percentile_walk h r1 total ks <= percentile_walk h r2 total ks.
Proof.
  intros W. revert total.
  induction ks as [|k ks IH]; intros total Ht Hs Hsort Hpos H12 Hr; [simpl; lia|].
  pose proof (Get_nonneg h k W). pose proof (sumGet_nonneg h ks W).
  inversion Hsort as [|? ? Hsort' Hk]; subst.
  inversion Hpos as [|? ? Hk0 Hpos']; subst.
  assert (Hs' : total + Get h k + sumGet h ks < 2 ^ 64).
  { unfold sumGet in *. simpl in Hs. lia. }
  assert (Hr' : r2 <= total + Get h k + sumGet h ks).
  { unfold sumGet in *. simpl in Hr. lia. }
  simpl. rewrite wrap64_small by lia.
  destruct (Z.leb_spec r1 (total + Get h k)); destruct (Z.leb_spec r2 (total + Get h k)).
  - lia.
  - pose proof (walk_in h r2 ks (total + Get h k) W ltac:(lia) Hs' ltac:(lia) Hr') as I.
    rewrite Forall_forall in Hk. apply Hk. apply list_elem_of_In. exact I.
  - lia.
  - apply IH; try assumption; lia.
Qed.

End Percentile.

(** ** The percentile against its specification *)

Section PercentileSpec.

Lemma Get_pos_key h k : 0 < Get h k -> In k (map fst h).
Proof.
  unfold Get. destruct (List.find (fun e => fst e =? k) h) as [e|] eqn:E; [|lia].
  intros _. apply List.find_some in E. destruct E as [I Ek].
  apply Z.eqb_eq in Ek. subst k. apply in_map. exact I.
Qed.

Lemma key_Get_pos h k : wf h -> In k (map fst h) -> 0 < Get h k.
Proof.
  intros [_ F] I. unfold Get.
  destruct (List.find (fun e => fst e =? k) h) as [e|] eqn:E.
  - apply List.find_some in E. destruct E as [Ie _].
    rewrite Forall_forall in F. apply list_elem_of_In in Ie.
    specialize (F e Ie). lia.
  - apply in_map_iff in I. destruct I as (e & Ee & Ie).
    pose proof (List.find_none _ _ E e Ie) as C. simpl in C.
    rewrite Ee, Z.eqb_refl in C. discriminate.
Qed.

(** The cumulative count, as a sum over the keys. *)
Lemma cumulative_keys h x :
  wf h ->
  Spec.cumulative h x
  = sumZ (map (fun k => if k <=? x then Get h k else 0) (map fst h)).
Proof.
  induction h as [|[k v] t IH]; intros W; [reflexivity|].
  pose proof (wf_cons _ _ W) as Wt. destruct W as [N _].
  simpl in N. apply NoDup_cons in N. destruct N as [N _].
  simpl. rewrite Get_cons_eq, IH by exact Wt.
  assert (E : map (fun k0 => if k0 <=? x then Get ((k, v) :: t) k0 else 0) (map fst t)
            = map (fun k0 => if k0 <=? x then Get t k0 else 0) (map fst t)).
  { apply map_ext_in. intros a Ha. rewrite Get_cons_ne; [reflexivity|].
    intros ->. apply N. apply list_elem_of_In. exact Ha. }
  rewrite E. destruct (k <=? x); simpl; lia.
Qed.

(** In the sorted list of the keys, the cumulative count of a key is the
    sum of the counts up to its place. *)
Lemma cumulative_prefix h (L A B : list Z) (x : Z) :
  wf h -> StronglySorted Z.le L -> Permutation L (map fst h) ->
  L = A ++ x :: B ->
  Spec.cumulative h x = sumGet h (A ++ [x]).
Proof.
  intros W S P E. rewrite cumulative_keys by exact W.
  rewrite <- (sumZ_perm _ _ (Permutation_map _ P)).
  assert (ND : NoDup L).
  { destruct W as [N _]. rewrite P. exact N. }
  subst L. unfold sumGet. rewrite !map_app, !sumZ_app. simpl.
  apply StronglySorted_app in S. destruct S as (SAB & SA & SB).
  apply NoDup_app in ND. destruct ND as (_ & _ & NB).
  apply NoDup_cons in NB. destruct NB as [NxB _].
  inversion SB as [|? ? _ HxB]; subst.
  rewrite Z.leb_refl.
  assert (EA : map (fun k => if k <=? x then Get h k else 0) A = map (Get h) A).
  { apply map_ext_in. intros a Ha.
    assert (a <= x); [|destruct (Z.leb_spec a x); [reflexivity | lia]].
    apply SAB; [apply list_elem_of_In; exact Ha | left]. }
  assert (EB : sumZ (map (fun k => if k <=? x then Get h k else 0) B) = 0).
  { clear -HxB NxB. induction B as [|b B IH]; [reflexivity|].
    inversion HxB; subst. simpl.
    assert (b <> x) by (intros ->; apply NxB; left).
    destruct (Z.leb_spec b x); [lia|]. rewrite IH; [reflexivity | | assumption].
    intros C. apply NxB. right. exact C. }
  rewrite EA, EB. lia.
Qed.

Lemma sumGet_prefix_le h (A B : list Z) :
  wf h -> sumGet h A <= sumGet h (A ++ B).
Proof.
  intros W. unfold sumGet. rewrite map_app, sumZ_app.
  pose proof (sumGet_nonneg h B W). unfold sumGet in *. lia.
Qed.

End PercentileSpec.

Section PercentileTheorems.

Lemma samples_nonneg h : wf h -> 0 <= samples h.
Proof.
  intros W. rewrite <- sumGet_keys by exact W. apply sumGet_nonneg. exact W.
Qed.

Lemma samples_zero_nil h : wf h -> samples h = 0 -> h = [].
Proof.
  intros W Z0. destruct h as [|[k v] t]; [reflexivity|]. exfalso.
  pose proof (samples_nonneg t (wf_cons _ _ W)).
  destruct W as [_ F]. inversion F; subst. unfold samples in *.
  simpl in *. lia.
Qed.

Lemma latenciesPercentile_walk impl h p :
  wf h -> samples h < 2 ^ 64 ->
  latenciesPercentile impl h p
  = percentile_walk h (percentile_rank impl p (samples h)) 0
      (sort_keys (map fst h)).
Proof.
  intros W Hs. unfold latenciesPercentile.
  rewrite visit_collect; [reflexivity | exact W | lia |].
  pose proof (samples_nonneg h W). lia.
Qed.

Lemma walk_miss (h : uhist) (rank : Z) (ks : list Z) (total : Z) :
  wf h -> 0 <= total -> total + sumGet h ks < 2 ^ 64 ->
  total + sumGet h ks < rank ->
  percentile_walk h rank total ks = 0.
Proof.
  intros W H0 Hb Hr. rewrite <- (app_nil_r ks).
  rewrite walk_skip; [reflexivity | exact W | exact H0 | exact Hb |].
  intros a k b E.
  assert (sumGet h (a ++ [k]) <= sumGet h ks); [|lia].
  rewrite E. replace (a ++ k :: b) with ((a ++ [k]) ++ b)
    by (rewrite <- app_assoc; reflexivity).
  apply sumGet_prefix_le. exact W.
Qed.

(** C2, as the code has it: with the rank
    [uint64((p/100.0)*float64(total_count) + 0.5)] of binary64 arithmetic,
    [latenciesPercentile] returns 0 for an empty histogram, the first key,
    in ascending order, whose cumulative count reaches the rank when there
    is one, and 0 when the rank exceeds the total count.  For [p] in
    (0,100] and fewer than [2^52] samples the rank does not exceed the
    total count; and where the rank of binary64 is the rank
    [floor(p/100 * total_count + 0.5)] of the specification, the result is
    the percentile of the specification. *)
Theorem latenciesPercentile_spec (impl : Z) (h : uhist) (p : float64) :
  wf h -> samples h < 2 ^ 64 ->
  (samples h = 0 -> latenciesPercentile impl h p = 0) /\
  (forall k,
     Spec.first_reaching h (percentile_rank impl p (samples h)) k ->
     latenciesPercentile impl h p = k) /\
  (0 < samples h -> percentile_rank impl p (samples h) <= samples h ->
   Spec.first_reaching h (percentile_rank impl p (samples h))
     (latenciesPercentile impl h p)) /\
  (samples h < percentile_rank impl p (samples h) ->
   latenciesPercentile impl h p = 0) /\
  (forall q : Q,
     p = FFin q -> (0 < q)%Q -> (q <= 100)%Q -> samples h < 2 ^ 52 ->
     percentile_rank impl p (samples h) <= samples h /\
     (percentile_rank impl p (samples h) = Spec.rank q h ->
      Spec.percentile q h (latenciesPercentile impl h p))).
Proof.
  intros W Hs. rewrite latenciesPercentile_walk by assumption.
  pose proof (samples_nonneg h W) as H0.
  set (r := percentile_rank impl p (samples h)).
  set (L := sort_keys (map fst h)).
  assert (P : Permutation L (map fst h)) by apply sort_keys_perm.
  assert (S : StronglySorted Z.le L) by apply sort_keys_sorted.
  assert (ND : NoDup L) by (destruct W as [N _]; rewrite P; exact N).
  assert (Hall : sumGet h L = samples h) by (apply sumGet_sorted; exact W).
  assert (Before : forall a k' b k B,
             L = a ++ k' :: b ++ k :: B -> k' < k).
  { intros a k' b k B EL. rewrite EL in S, ND.
    apply StronglySorted_app in S. destruct S as (_ & _ & S2).
    apply NoDup_app in ND. destruct ND as (_ & _ & ND).
    apply NoDup_cons in ND. destruct ND as [ND _].
    inversion S2 as [|? ? _ Hle]; subst.
    assert (Ik : k ∈ b ++ k :: B) by (apply list_elem_of_In, in_elt).
    rewrite Forall_forall in Hle. specialize (Hle k Ik).
    assert (k' <> k) by (intros ->; apply ND; exact Ik).
    lia. }
  assert (Empty : samples h = 0 -> percentile_walk h r 0 L = 0).
  { intros Z0. subst r L. rewrite (samples_zero_nil h W Z0). reflexivity. }
  assert (Reached : 0 < samples h -> r <= samples h ->
                    Spec.first_reaching h r (percentile_walk h r 0 L)).
  { intros Pos Hr.
    assert (Hne : L <> []).
    { intros E. rewrite E in Hall. unfold sumGet in Hall. simpl in Hall. lia. }
    destruct (walk_split h r L 0 W ltac:(lia) ltac:(lia) Hne ltac:(lia))
      as (A & B & E & Hlt & Hge).
    set (k := percentile_walk h r 0 L) in *.
    assert (Ik : In k (map fst h)).
    { apply (Permutation_in k P). rewrite E. apply in_elt. }
    split; [apply key_Get_pos; assumption|]. split.
    + rewrite (cumulative_prefix h L A B k W S P E). lia.
    + intros k' Hk' Lt.
      assert (I' : In k' L).
      { apply (Permutation_in k' (Permutation_sym P)). apply Get_pos_key.
        exact Hk'. }
      rewrite E in I'. apply in_app_or in I'. destruct I' as [IA|[Ek|IB]].
      * apply in_split in IA. destruct IA as (a & b & EA).
        assert (EL : L = a ++ k' :: (b ++ k :: B)).
        { rewrite E, EA, <- app_assoc. reflexivity. }
        rewrite (cumulative_prefix h L a (b ++ k :: B) k' W S P EL).
        specialize (Hlt a k' b EA). lia.
      * lia.
      * exfalso. apply in_split in IB. destruct IB as (a & b & EB).
        assert (EL : L = A ++ k :: (a ++ k' :: b)).
        { rewrite E, EB. reflexivity. }
        pose proof (Before A k a k' b EL). lia. }
  split; [exact Empty|]. split; [|split; [exact Reached|split]].
  - intros k (Hk & Hr & Hfirst).
    assert (I : In k L).
    { apply (Permutation_in k (Permutation_sym P)). apply Get_pos_key. exact Hk. }
    apply in_split in I. destruct I as (A & B & E).
    assert (HA : sumGet h (A ++ [k]) <= samples h).
    { rewrite <- Hall, E. replace (A ++ k :: B) with ((A ++ [k]) ++ B)
        by (rewrite <- app_assoc; reflexivity).
      apply sumGet_prefix_le. exact W. }
    assert (HAk : sumGet h (A ++ [k]) = sumGet h A + Get h k).
    { unfold sumGet. rewrite map_app, sumZ_app. simpl. lia. }
    pose proof (sumGet_nonneg h A W). pose proof (Get_nonneg h k W).
    rewrite E, walk_skip; [| exact W | lia | lia |].
    + apply walk_hit; [exact W | lia | lia |].
      rewrite (cumulative_prefix h L A B k W S P E) in Hr. lia.
    + intros a k' b EA. simpl.
      assert (EL : L = a ++ k' :: (b ++ k :: B)).
      { rewrite E, EA, <- app_assoc. reflexivity. }
      rewrite <- (cumulative_prefix h L a (b ++ k :: B) k' W S P EL).
      apply Hfirst.
      * apply key_Get_pos; [exact W|].
        apply (Permutation_in k' P). rewrite EL. apply in_elt.
      * apply (Before a k' b k B EL).
  - intros Above. apply walk_miss; [exact W | lia | lia | lia].
  - intros q -> Hq0 Hq100 H52.
    destruct (percentile_rank_bounds impl q q (samples h)) as [_ R2];
      [lra | lra | exact Hq100 | lia |].
    fold r in R2. split; [exact R2|]. intros E. split.
    + exact Empty.
    + intros Pos. unfold Spec.total_count in *. rewrite <- E.
      apply Reached; assumption.
Qed.

Lemma latenciesPercentile_spec_witness :
  (samples hist3 = 0 -> latenciesPercentile 0 hist3 (FFin 50) = 0) /\
  (forall k,
     Spec.first_reaching hist3 (percentile_rank 0 (FFin 50) (samples hist3)) k ->
     latenciesPercentile 0 hist3 (FFin 50) = k) /\
  (0 < samples hist3 ->
   percentile_rank 0 (FFin 50) (samples hist3) <= samples hist3 ->
   Spec.first_reaching hist3 (percentile_rank 0 (FFin 50) (samples hist3))
     (latenciesPercentile 0 hist3 (FFin 50))) /\
  (samples hist3 < percentile_rank 0 (FFin 50) (samples hist3) ->
   latenciesPercentile 0 hist3 (FFin 50) = 0) /\
  (forall q : Q,
     FFin 50 = FFin q -> (0 < q)%Q -> (q <= 100)%Q -> samples hist3 < 2 ^ 52 ->
     percentile_rank 0 (FFin 50) (samples hist3) <= samples hist3 /\
     (percentile_rank 0 (FFin 50) (samples hist3) = Spec.rank q hist3 ->
      Spec.percentile q hist3 (latenciesPercentile 0 hist3 (FFin 50)))).
Proof.
  apply (latenciesPercentile_spec 0 hist3 (FFin 50)).
  - split.
    + apply (bool_decide_unpack _). vm_compute. exact I.
    + repeat constructor; simpl; lia.
  - vm_compute. reflexivity.
Defined.

(** C2 as stated fails.  The rank is computed in binary64: for [p = 29] and
    fifty samples, [29/100.0] is rounded down, the product is just below
    14.5 and the rank is 14, where [floor(29/100 * 50 + 0.5)] is 15; with
    fourteen samples on the first key the result is this key, and the
    first key whose cumulative count reaches 15 is the second.  And for
    [p = 100] and [2^52 + 1] samples the rank of binary64 exceeds the total
    count: the result is 0, which is no key of the histogram. *)
Lemma latenciesPercentile_not_spec :
  wf hist_50 /\ (0 < 29)%Q /\ (29 <= 100)%Q /\
  Spec.rank 29 hist_50 = 15 /\
  percentile_rank 0 (FFin 29) (samples hist_50) = 14 /\
  latenciesPercentile 0 hist_50 (FFin 29) = 1 /\
  Spec.percentile 29 hist_50 2 /\
  ~ Spec.percentile 29 hist_50 (latenciesPercentile 0 hist_50 (FFin 29)) /\
  wf hist_large /\ (0 < 100)%Q /\ (100 <= 100)%Q /\
  Spec.rank 100 hist_large = 2 ^ 52 + 1 /\
  latenciesPercentile 0 hist_large (FFin 100) = 0 /\
  Spec.percentile 100 hist_large 5 /\
  ~ Spec.percentile 100 hist_large (latenciesPercentile 0 hist_large (FFin 100)).
Proof.
  assert (W50 : wf hist_50).
  { split.
    - apply (bool_decide_unpack _). vm_compute. exact I.
    - repeat constructor; simpl; lia. }
  assert (WL : wf hist_large).
  { split.
    - apply (bool_decide_unpack _). vm_compute. exact I.
    - repeat constructor; simpl; lia. }
  assert (R50 : Spec.rank 29 hist_50 = 15) by (vm_compute; reflexivity).
  assert (RL : Spec.rank 100 hist_large = 2 ^ 52 + 1)
    by (vm_compute; reflexivity).
  assert (E50 : latenciesPercentile 0 hist_50 (FFin 29) = 1)
    by (vm_compute; reflexivity).
  assert (EL : latenciesPercentile 0 hist_large (FFin 100) = 0)
    by (vm_compute; reflexivity).
  split; [exact W50|]. split; [reflexivity|].
  split; [vm_compute; discriminate|]. split; [exact R50|].
  split; [vm_compute; reflexivity|]. split; [exact E50|].
  split.
  { split; [vm_compute; discriminate|]. intros _. rewrite R50.
    split; [vm_compute; reflexivity|]. split; [vm_compute; discriminate|].
    intros k' Hk' Lt.
    assert (k' = 1).
    { apply Get_pos_key in Hk'. simpl in Hk'. destruct Hk' as [<-|[<-|[]]]; lia. }
    subst k'. vm_compute. reflexivity. }
  split.
  { rewrite E50. intros [_ F]. destruct F as (_ & C & _);
      [vm_compute; reflexivity|].
    rewrite R50 in C. vm_compute in C. apply C. reflexivity. }
  split; [exact WL|]. split; [reflexivity|].
  split; [vm_compute; discriminate|]. split; [exact RL|].
  split; [exact EL|]. split.
  { split; [vm_compute; discriminate|]. intros _. rewrite RL.
    split; [vm_compute; reflexivity|]. split; [vm_compute; discriminate|].
    intros k' Hk' Lt. apply Get_pos_key in Hk'. simpl in Hk'.
    destruct Hk' as [<-|[]]. lia. }
  rewrite EL. intros [_ F]. destruct F as (K & _); [vm_compute; reflexivity|].
  vm_compute in K. discriminate.
Qed.

(** The rank is computed in binary64: for [p = 29] and 50 samples it is 14,
    where exact arithmetic gives [floor(14.5 + 0.5) = 15]. *)
Remark percentile_rank_binary64 :
  percentile_rank 0 (FFin 29) 50 = 14 /\
  Qfloor ((29 # 100) * 50 + (1 # 2)) = 15.
Proof. split; vm_compute; reflexivity. Qed.

(** C8, as the code has it: for a histogram of fewer than [2^52] samples,
    [latenciesPercentile h p1 <= latenciesPercentile h p2] whenever
    [0 < p1 <= p2 <= 100]. *)
Theorem latenciesPercentile_monotone (impl : Z) (h : uhist) (p1 p2 : Q) :
  wf h -> samples h < 2 ^ 52 ->
  (0 < p1)%Q -> (p1 <= p2)%Q -> (p2 <= 100)%Q ->
  latenciesPercentile impl h (FFin p1) <= latenciesPercentile impl h (FFin p2).
Proof.
  intros W Hs H0 H12 H100.
  pose proof (samples_nonneg h W) as Hn.
  rewrite !latenciesPercentile_walk by (try exact W; lia).
  destruct (percentile_rank_bounds impl p1 p2 (samples h)) as [[_ R12] R2];
    [lra | exact H12 | exact H100 | lia |].
  pose proof (sumGet_sorted h W) as Hall.
  apply walk_mono; try assumption; try lia.
  - apply sort_keys_sorted.
  - apply Forall_forall. intros k Hk.
    rewrite (sort_keys_perm (map fst h)) in Hk.
    apply list_elem_of_fmap in Hk. destruct Hk as (e & -> & He).
    destruct W as [_ F]. rewrite Forall_forall in F. specialize (F e He). lia.
Qed.

Lemma latenciesPercentile_monotone_witness :
  latenciesPercentile 0 hist3 (FFin 50) <= latenciesPercentile 0 hist3 (FFin 90).
Proof.
  apply (latenciesPercentile_monotone 0 hist3 50 90).
  - split.
    + apply (bool_decide_unpack _). vm_compute. exact I.
    + repeat constructor; simpl; lia.
  - vm_compute. reflexivity.
  - reflexivity.
  - vm_compute. discriminate.
  - vm_compute. discriminate.
Defined.

(** C8 as stated fails: with [2^52 + 1] samples, [float64(total) + 0.5] is
    rounded up to an even number, the rank of [p = 100] exceeds the number
    of samples, no key reaches it and the result is 0, below the result 5
    of [p = 50]. *)
Lemma latenciesPercentile_not_monotone :
  wf hist_large /\ (0 < 50)%Q /\ (50 <= 100)%Q /\ (100 <= 100)%Q /\
  latenciesPercentile 0 hist_large (FFin 50) = 5 /\
  latenciesPercentile 0 hist_large (FFin 100) = 0 /\
  ~ (latenciesPercentile 0 hist_large (FFin 50)
       <= latenciesPercentile 0 hist_large (FFin 100)).
Proof.
  split.
  { split.
    - simpl. apply (bool_decide_unpack _). vm_compute. exact I.
    - repeat constructor; simpl; lia. }
  repeat split; try (vm_compute; congruence).
Qed.

(** The operations agree with the binary64 operations of the standard
    library on the values of the examples: the rank above, a quotient and
    a product that are not exact, a sum that ties, two square roots, a
    conversion that rounds, an overflow and an underflow. *)
Remark agrees_with_SpecFloat :
  of_spec (SFadd 53 1024
             (SFmul 53 1024 (SFdiv 53 1024 (b64 100) (b64 100)) (b64 (2 ^ 52 + 1)))
             (SFdiv 53 1024 (b64 1) (b64 2)))
  = rank_float 100 (2 ^ 52 + 1)
  /\ rank_float 100 (2 ^ 52 + 1) = FFin (inject_Z (2 ^ 52 + 2))
  /\ of_spec (SFdiv 53 1024 (b64 29) (b64 100)) = fdiv (FFin 29) (FFin 100)
  /\ of_spec (SFmul 53 1024 (SFdiv 53 1024 (b64 29) (b64 100)) (b64 50))
     = fmul (fdiv (FFin 29) (FFin 100)) (FFin 50)
  /\ of_spec (SFsqrt 53 1024 (b64 2)) = fsqrt (FFin 2)
  /\ of_spec (SFsqrt 53 1024 (SFdiv 53 1024 (b64 3) (b64 16)))
     = fsqrt (fdiv (FFin 3) (FFin 16))
  /\ of_spec (b64 (2 ^ 53 + 3)) = of_int (2 ^ 53 + 3)
  /\ of_spec (SFmul 53 1024 (b64 (2 ^ 1000)) (b64 (2 ^ 100)))
     = fmul (of_int (2 ^ 1000)) (of_int (2 ^ 100))
  /\ of_spec (SFdiv 53 1024 (b64 1) (b64 (3 * 2 ^ 1070)))
     = fdiv (FFin 1) (of_int (3 * 2 ^ 1070)).
Proof. repeat split; vm_compute; reflexivity. Qed.

End PercentileTheorems.

(** ** Accounting of one request *)

Section Accounting.

Lemma counter_emit e c b : counter c (emit e b) = counter c b.
Proof. destruct c; reflexivity. Qed.

(** C3: [writeStatistics] adds one, in [uint64], to exactly one status
    counter: to [req1xx] .. [req5xx] when [code / 100] is 1 .. 5, to
    [others] for every other code, also for code 0; the five other
    counters keep their value. *)
Theorem writeStatistics_counter (b : bombardier) (code msTaken : Z) :
  let b' := writeStatistics code msTaken b in
  let c := counterOf code in
  counter c b' = wrap64 (counter c b + 1) /\
  (0 <= counter c b < 2 ^ 64 - 1 -> counter c b' = counter c b + 1) /\
  (forall c', c' <> c -> counter c' b' = counter c' b) /\
  (Z.quot code 100 = 1 -> c = b1xx) /\
  (Z.quot code 100 = 2 -> c = b2xx) /\
  (Z.quot code 100 = 3 -> c = b3xx) /\
  (Z.quot code 100 = 4 -> c = b4xx) /\
  (Z.quot code 100 = 5 -> c = b5xx) /\
  (~ 1 <= Z.quot code 100 <= 5 -> c = bothers) /\
  counterOf 0 = bothers.
Proof.
  cbv zeta.
  assert (E : counter (counterOf code) (writeStatistics code msTaken b)
              = wrap64 (counter (counterOf code) b + 1)).
  { unfold writeStatistics, AddUint64. destruct (counterOf code); reflexivity. }
  split; [exact E|]. split.
  { intros H. rewrite E. unfold wrap64. apply Z.mod_small. lia. }
  split.
  { intros c' Hc. unfold writeStatistics, AddUint64.
    destruct (counterOf code), c'; try reflexivity; congruence. }
  unfold counterOf.
  repeat split; try (intros ->; reflexivity).
  intros H. destruct (Z.quot code 100) as [|q|q]; try reflexivity.
  destruct q as [[[q|q|]|[q|q|]|]|[[q|q|]|[q|q|]|]|]; try reflexivity;
    exfalso; apply H; lia.
Qed.

(** Scenario S3: ten answers of each of the seven codes leave 10 in each
    of the five class counters and 20 in [others]. *)
Example scenario_S3 :
  let b := fold_left (fun b code => writeStatistics code 100 b) codes_S3
             (constructed (config0 10 (Some 70) None EmptyString)
                (newCountingCompletionBarrier 70) ok200) in
  (req1xx b, req2xx b, req3xx b, req4xx b, req5xx b, others b)
  = (10, 10, 10, 10, 10, 20).
Proof. vm_compute. reflexivity. Qed.

Lemma trace_writeStatistics code msTaken b :
  trace (writeStatistics code msTaken b)
  = trace b ++ [EvLatencies msTaken; EvReqs; EvCounter (counterOf code)].
Proof.
  unfold writeStatistics, AddUint64.
  destruct (counterOf code); simpl; rewrite <- !app_assoc; reflexivity.
Qed.

(** C7, as the code has it: [performSingleRequest] calls the client, then
    adds the description of the error, if there is one, to the error
    aggregator, and only then calls [writeStatistics], which increments the
    latency histogram at the elapsed time, the request counter of the rate
    meter, and the status counter, in this order, and does not touch the
    error aggregator. *)
Theorem performSingleRequest_order (b : bombardier) :
  let r := client b (calls b) in
  trace (performSingleRequest b)
  = trace b ++ [EvDo (calls b)]
      ++ match err r with Some e => [EvErrorsAdd e] | None => [] end
      ++ [EvLatencies (msTaken r); EvReqs; EvCounter (counterOf (code r))]
  /\ errors (performSingleRequest b)
     = match err r with
       | Some e => errorMap_add (errors b) e
       | None => errors b
       end
  /\ forall code msTaken b,
       trace (writeStatistics code msTaken b)
       = trace b ++ [EvLatencies msTaken; EvReqs; EvCounter (counterOf code)]
       /\ errors (writeStatistics code msTaken b) = errors b
       /\ latencies (writeStatistics code msTaken b)
          = Increment (latencies b) msTaken
       /\ reqs (writeStatistics code msTaken b) = wrapi64 (reqs b + 1).
Proof.
  cbv zeta. split; [|split].
  - unfold performSingleRequest, client_do.
    rewrite trace_writeStatistics.
    destruct (err (client b (calls b))); simpl; rewrite <- !app_assoc; reflexivity.
  - unfold performSingleRequest, client_do, writeStatistics, AddUint64.
    destruct (err (client b (calls b))), (counterOf _); reflexivity.
  - intros code0 ms b0. split; [apply trace_writeStatistics|].
    unfold writeStatistics, AddUint64. destruct (counterOf code0); repeat split.
Qed.

(** C7 as stated fails: for a request that timed out, the error is added
    first, before the three updates of [writeStatistics], not last. *)
Lemma error_aggregation_not_last :
  let b := constructed (config0 1 (Some 1) None EmptyString) (newCountingCompletionBarrier 1)
             timing_out in
  trace (performSingleRequest b)
  = [EvDo 0; EvErrorsAdd "timeout"; EvLatencies 2000000; EvReqs;
     EvCounter bothers]
  /\ trace (performSingleRequest b)
     <> [EvDo 0; EvLatencies 2000000; EvReqs; EvCounter bothers;
         EvErrorsAdd "timeout"]
  /\ last (trace (performSingleRequest b)) <> Some (EvErrorsAdd "timeout").
Proof. cbv zeta. repeat split; vm_compute; congruence. Qed.

End Accounting.

(** ** Mean and standard deviation *)

Section Figures.

(** C5 at the failing input: for the latency 2 recorded three times the
    mean [6/4] weighs the key by its count, but the sum of squared
    deviations is [(2 - 1.5)^2 = 1/4], one term for the key, where the
    weighted sample has three terms, [3/4]; the standard deviation printed
    is [1/4].  The same holds for the rate histogram.  The count starts at
    1: the figures of an empty histogram are all 0. *)
Theorem stddev_ignores_counts :
  latenciesFigures hist_2x3 = mkFigures (FFin (3 # 2)) (FFin (1 # 4)) (FFin 2)
  /\ weightedSquares hist_2x3 (FFin (3 # 2)) = FFin (3 # 4)
  /\ fsqrt (fdiv (weightedSquares hist_2x3 (FFin (3 # 2))) (of_int 4))
     <> FFin (1 # 4)
  /\ rpsFigures rps_2x3 = mkFigures (FFin (3 # 2)) (FFin (1 # 4)) (FFin 2)
  /\ fweightedSquares rps_2x3 (FFin (3 # 2)) = FFin (3 # 4)
  /\ latenciesFigures [] = mkFigures (FFin 0) (FFin 0) (FFin 0)
  /\ rpsFigures [] = mkFigures (FFin 0) (FFin 0) (FFin 0).
Proof. repeat split; vm_compute; congruence. Qed.

End Figures.

(** ** Construction *)

Section Construction.

(** C10: with an empty client-certificate path, [generateTLSConfig] returns
    a configuration without certificates whose [InsecureSkipVerify] is the
    [insecure] flag, and reads no file. *)
Theorem generateTLSConfig_no_cert (w : world) (c : config) (l : list string) :
  clientCert c = EmptyString ->
  generateTLSConfig w c l = (Ret (mkTLSConfig (insecure c) []), l).
Proof.
  intros H. unfold generateTLSConfig, readClientCert, io_bind. rewrite H.
  reflexivity.
Qed.

Lemma generateTLSConfig_no_cert_witness :
  generateTLSConfig no_files (config0 10 (Some 100) None EmptyString) []
  = (Ret (mkTLSConfig false []), []).
Proof.
  apply (generateTLSConfig_no_cert no_files (config0 10 (Some 100) None EmptyString) []).
  reflexivity.
Defined.




End Construction.

(** ** The goroutines: what every step keeps *)

Section Engine.

Lemma sumZ_map_nonneg {A : Type} (f : A -> Z) (l : list A) :
  (forall a, 0 <= f a) -> 0 <= sumZ (map f l).
Proof. intros H. induction l; simpl; [lia | specialize (H a); lia]. Qed.

Lemma cntZ_nonneg f l : 0 <= cntZ f l.
Proof. apply sumZ_map_nonneg. intros pc. destruct (f pc); lia. Qed.

Lemma cntZ_insert f (l : list wpc) (i : nat) (pc pc' : wpc) :
  l !! i = Some pc ->
  cntZ f (<[i := pc']> l)
  = cntZ f l - (if f pc then 1 else 0) + (if f pc' then 1 else 0).
Proof.
  unfold cntZ. revert i. induction l as [|a l IH]; intros [|i] H; try discriminate.
  - simpl in H. inversion H; subst. simpl. lia.
  - simpl in H. simpl. rewrite (IH i H). lia.
Qed.

Lemma cntZ_lookup f (l : list wpc) (i : nat) (pc : wpc) :
  l !! i = Some pc -> f pc = true -> 1 <= cntZ f l.
Proof.
  unfold cntZ. revert i. induction l as [|a l IH]; intros [|i] H Hf; try discriminate.
  - simpl in H. inversion H; subst. simpl. rewrite Hf.
    pose proof (cntZ_nonneg f l). unfold cntZ in *. lia.
  - simpl in H. simpl. specialize (IH i H Hf). destruct (f a); lia.
Qed.

Lemma cntZ_replicate f n pc :
  cntZ f (replicate n pc) = if f pc then Z.of_nat n else 0.
Proof.
  unfold cntZ. induction n as [|n IH]; simpl; [destruct (f pc); reflexivity|].
  rewrite IH. destruct (f pc); lia.
Qed.

Lemma cntZ_zero f (l : list wpc) (i : nat) (pc : wpc) :
  cntZ f l = 0 -> l !! i = Some pc -> f pc = false.
Proof.
  intros Z0 H. destruct (f pc) eqn:E; [|reflexivity].
  pose proof (cntZ_lookup f l i pc H E). lia.
Qed.

Lemma cntZ_running_exited l :
  cntZ running l + cntZ exited l = Z.of_nat (length l).
Proof.
  unfold cntZ, running. induction l as [|a l IH]; simpl; [reflexivity|].
  destruct (exited a); simpl; lia.
Qed.

Lemma cntZ_all_exited f l :
  cntZ running l = 0 -> (forall pc, f pc = true -> exited pc = false) ->
  cntZ f l = 0.
Proof.
  unfold cntZ, running. intros H Hf.
  induction l as [|a l IH]; simpl in *; [reflexivity|].
  pose proof (cntZ_nonneg (fun pc => negb (exited pc)) l) as P. unfold cntZ in P.
  destruct (exited a) eqn:E; simpl in H.
  - destruct (f a) eqn:F; [rewrite (Hf a F) in E; discriminate|]. apply IH. lia.
  - lia.
Qed.

(** What [performSingleRequest] leaves alone, and the one more call. *)
Lemma performSingleRequest_frame b :
  let b' := performSingleRequest b in
  barrier b' = barrier b /\ workers b' = workers b /\ conf b' = conf b /\
  doneChan b' = doneChan b /\ timeTaken b' = timeTaken b /\
  ratelimiter b' = ratelimiter b /\ calls b' = S (calls b).
Proof.
  unfold performSingleRequest, client_do, writeStatistics, AddUint64.
  destruct (err (client b (calls b))), (counterOf _); repeat split.
Qed.

Lemma recordRps_frame t b :
  let b' := recordRps t b in
  barrier b' = barrier b /\ workers b' = workers b /\ conf b' = conf b /\
  doneChan b' = doneChan b /\ timeTaken b' = timeTaken b /\
  ratelimiter b' = ratelimiter b /\ calls b' = calls b /\
  bytesRead b' = bytesRead b /\ bytesWritten b' = bytesWritten b /\
  reqs b' = 0 /\ trace b' = trace b ++ [EvRecordRps (reqs b)].
Proof. unfold recordRps. repeat split. Qed.

End Engine.

Section StepRelation.

Lemma sys_eta s :
  s = mkSys (sb s) (gos s) (meter s) (updater s) (orch s) (now s)
        (bombardmentBegin s).
Proof. destruct s; reflexivity. Qed.

Lemma pace_brk l f g : pace l f g = Some brk -> f = true.
Proof.
  destruct l; simpl; [discriminate|].
  destruct g; [discriminate|]. destruct f; [reflexivity | discriminate].
Qed.

Ltac norm_sys :=
  cbv [with_sb with_meter with_updater with_orch with_go leave];
  cbn [sb gos meter updater orch now bombardmentBegin].

(** Every step of the functions is a step of the relation. *)
Lemma step_Step c s s' : step c s = Some s' -> Step s s'.
Proof.
  destruct c as [i g|tick| | | |d]; simpl.
  - unfold worker. destruct (gos s !! i) as [pc|] eqn:E; [|discriminate].
    destruct pc.
    + destruct (tryGrabWork (barrier (sb s)) (now s)) as [[|] bar] eqn:T;
        intros H; inversion H; subst; clear H; norm_sys.
      * apply (St_worker s i WGrab WPace _ E). apply (wm_grab s bar T).
      * apply (St_worker s i WGrab WExit _ E). apply (wm_nowork s bar T).
    + destruct (pace (ratelimiter (sb s)) (fired s) g) as [[|]|] eqn:P;
        intros H; inversion H; subst; clear H; norm_sys.
      * apply (St_worker s i WPace WExit _ E). apply wm_brk.
        apply (pace_brk _ _ _ P).
      * apply (St_worker s i WPace WPerform _ E). apply wm_cont.
    + intros H; inversion H; subst; clear H; norm_sys.
      apply (St_worker s i WPerform WJobDone _ E). apply wm_perform.
    + intros H; inversion H; subst; clear H; norm_sys.
      apply (St_worker s i WJobDone WGrab _ E). apply wm_jobDone.
    + discriminate.
  - unfold rateMeter, send. destruct (meter s) eqn:E; try discriminate.
    + destruct tick; [|destruct (fired s) eqn:F]; intros H; inversion H; subst; norm_sys.
      * apply St_meter. rewrite E. apply mm_tick.
      * apply St_meter. rewrite E. apply mm_done. exact F.
    + destruct (Nat.eqb_spec (workers (sb s)) 0) as [W0|W0]; intros H; inversion H; subst; norm_sys.
      apply St_meter. rewrite E. apply mm_wait. assumption.
    + intros H; inversion H; subst; norm_sys. apply St_meter. rewrite E. apply mm_record.
    + destruct (Nat.ltb_spec (doneChan (sb s)) 2) as [D2|D2]; intros H; inversion H; subst; norm_sys.
      apply St_meter. rewrite E. apply mm_send. assumption.
  - unfold barUpdater, send. destruct (updater s) eqn:E; try discriminate.
    + destruct (fired s) eqn:F; intros H; inversion H; subst; norm_sys.
      * apply St_updater. rewrite E. apply um_done. exact F.
      * rewrite (sys_eta s') at 2. apply St_updater. rewrite E.
        apply um_poll. exact F.
    + destruct (Nat.ltb_spec (doneChan (sb s)) 2) as [D2|D2]; intros H; inversion H; subst; norm_sys.
      apply St_updater. rewrite E. apply um_send. assumption.
  - unfold bombard, recv. destruct (orch s) eqn:E.
    + intros H; inversion H; subst; norm_sys. apply St_begin. exact E.
    + intros H; inversion H; subst; norm_sys. apply St_start. exact E.
    + intros H; inversion H; subst; norm_sys. apply St_spawn. exact E.
    + destruct (Nat.eqb_spec (workers (sb s)) 0) as [W0|W0]; intros H; inversion H; subst; norm_sys.
      apply St_wait; assumption.
    + intros H; inversion H; subst; norm_sys. apply St_since. exact E.
    + destruct (doneChan (sb s)) as [|n] eqn:D; intros H; inversion H; subst; norm_sys.
      apply (St_recv1 s n); assumption.
    + destruct (doneChan (sb s)) as [|n] eqn:D; intros H; inversion H; subst; norm_sys.
      apply (St_recv2 s n); assumption.
    + discriminate.
  - intros H; inversion H; subst; norm_sys. apply St_cancel.
  - destruct (Z.leb_spec 0 d) as [D0|D0]; intros H; inversion H; subst; norm_sys.
    apply St_sleep. assumption.
Qed.

(** An invariant of the steps holds after every schedule. *)
Lemma run_invariant (P : sys -> Prop) :
  (forall s s', Step s s' -> P s -> P s') ->
  forall cs s s', run cs s = Some s' -> P s -> P s'.
Proof.
  intros HP cs. induction cs as [|c cs IH]; intros s s' H Ps; simpl in H.
  - inversion H; subst. exact Ps.
  - destruct (step c s) as [s1|] eqn:E; [|discriminate].
    apply (IH s1 s' H). apply (HP s s1); [apply (step_Step c); exact E | exact Ps].
Qed.

End StepRelation.

Section WaitGroup.

Local Opaque performSingleRequest recordRps tryGrabWork jobDone.

Lemma spawned_lookup N s i pc :
  wg_inv N s -> gos s !! i = Some pc -> spawned s = true.
Proof.
  intros [_ _ Hg _ _ _] H. destruct (spawned s); [reflexivity|].
  rewrite Hg in H. discriminate.
Qed.

Lemma spawned_meter N s :
  wg_inv N s -> meter s <> MIdle -> spawned s = true.
Proof.
  intros [_ _ _ Hi _ _] H. destruct (spawned s); [reflexivity|].
  destruct (Hi eq_refl) as [E _]. contradiction.
Qed.

Lemma spawned_updater N s :
  wg_inv N s -> updater s <> UIdle -> spawned s = true.
Proof.
  intros [_ _ _ Hi _ _] H. destruct (spawned s); [reflexivity|].
  destruct (Hi eq_refl) as [_ E]. contradiction.
Qed.

Lemma wg_inv_boot b t0 :
  Z.to_nat (numConns (conf b)) = workers b -> wg_inv (workers b) (boot b t0).
Proof. intros H. constructor; simpl; try done. Qed.

(** The wait group stays in step with the goroutines. *)
Lemma wg_inv_Step N s s' : Step s s' -> wg_inv N s -> wg_inv N s'.
Proof.
  intros HS Inv. pose proof Inv as [Hc Hw Hg Hi Hj Hm].
  pose proof (performSingleRequest_frame (sb s)) as (Fp1 & Fp2 & Fp3 & _).
  pose proof (recordRps_frame (now s) (sb s)) as (Fr1 & Fr2 & Fr3 & _).
  destruct HS as [i pc pc' b' L M|pc' b' M|pc' b' M|E|E|E|E W|E|n E D|n E D| |d D].
  - pose proof (spawned_lookup N s i pc Inv L) as Sp.
    assert (Sp' : forall b g, spawned (mkSys b g (meter s) (updater s) (orch s)
                                 (now s) (bombardmentBegin s)) = true)
      by (intros; exact Sp).
    rewrite Sp in Hw, Hg.
    pose proof (cntZ_insert running (gos s) i pc pc' L) as CI.
    assert (LI : length (<[i := pc']> (gos s)) = N)
      by (rewrite length_insert; exact Hg).
    destruct M; constructor; rewrite ?Sp'; cbn [sb gos meter updater orch];
      simpl in CI; rewrite ?Fp2, ?Fp3; try assumption; try congruence;
      try (intros X; try rewrite (Hj X); try rewrite (Hm X); reflexivity);
      try (pose proof (cntZ_lookup running (gos s) i _ L eq_refl); simpl; lia);
      try (simpl; lia).
  - assert (Sp : spawned s = true).
    { apply (spawned_meter N s Inv). destruct M; congruence. }
    assert (Sp' : forall b pc g, spawned (mkSys b g pc (updater s) (orch s)
                                 (now s) (bombardmentBegin s)) = true)
      by (intros; exact Sp).
    rewrite Sp in Hw, Hg.
    destruct M; constructor; rewrite ?Sp'; cbn [sb gos meter updater orch];
      rewrite ?Fr2, ?Fr3; try assumption; try congruence;
      try (intros _; simpl; assumption);
      try (intros X; first [apply Hj | apply Hm]; first [assumption | reflexivity]).
  - assert (Sp : spawned s = true).
    { apply (spawned_updater N s Inv). destruct M; congruence. }
    assert (Sp' : forall b pc g, spawned (mkSys b g (meter s) pc (orch s)
                                 (now s) (bombardmentBegin s)) = true)
      by (intros; exact Sp).
    rewrite Sp in Hw, Hg.
    destruct M; constructor; rewrite ?Sp'; cbn [sb gos meter updater orch];
      try assumption; try congruence.
  - unfold spawned in *. rewrite E in *.
    constructor; cbn [sb gos meter updater orch spawned]; try assumption; try done.
  - unfold spawned in *. rewrite E in *.
    constructor; cbn [sb gos meter updater orch spawned]; try assumption; try done.
  - unfold spawned in *. rewrite E in *. destruct (Hi eq_refl) as [Em Eu].
    constructor; cbn [sb gos meter updater orch spawned]; try assumption; try done.
    all: try (rewrite cntZ_replicate; simpl; rewrite Hc; exact Hw).
    all: try (rewrite length_replicate; exact Hc).
  - unfold spawned in *. rewrite E in *.
    constructor; cbn [sb gos meter updater orch spawned]; try assumption; try done.
  - unfold spawned in *. rewrite E in *.
    constructor; cbn [sb gos meter updater orch spawned]; try assumption; try done.
    all: try (intros _; apply Hj; reflexivity).
  - unfold spawned in *. rewrite E in *.
    constructor; cbn [sb gos meter updater orch spawned]; try assumption; try done.
    all: try (intros _; apply Hj; reflexivity).
  - unfold spawned in *. rewrite E in *.
    constructor; cbn [sb gos meter updater orch spawned]; try assumption; try done.
    all: try (intros _; apply Hj; reflexivity).
  - constructor; assumption.
  - constructor; assumption.
Qed.

End WaitGroup.

Section Counted.

Lemma tryGrabWork_true bar t bar' :
  tryGrabWork bar t = (true, bar') ->
  done bar t = false /\
  ((exists R, kind bar = Counting R /\ issued bar < R /\
              bar' = mkBarrier (kind bar) (issued bar + 1) (completedReqs bar)
                       (cancelled bar))
   \/ (exists d, kind bar = TimedUntil d /\ bar' = bar)).
Proof.
  unfold tryGrabWork. destruct (done bar t); [discriminate|].
  destruct (kind bar) as [R|d] eqn:K.
  - destruct (Z.ltb_spec (issued bar) R) as [Lt|Ge]; intros H; inversion H; subst.
    split; [reflexivity|]. left. exists R. repeat split. assumption.
  - intros H; inversion H; subst. split; [reflexivity|]. right. exists d. split; reflexivity.
Qed.

Lemma tryGrabWork_false bar t bar' :
  tryGrabWork bar t = (false, bar') ->
  bar' = bar /\
  (done bar t = true \/ exists R, kind bar = Counting R /\ R <= issued bar).
Proof.
  unfold tryGrabWork. destruct (done bar t); [intros H; inversion H; auto|].
  destruct (kind bar) as [R|d] eqn:K.
  - destruct (Z.ltb_spec (issued bar) R) as [Lt|Ge]; intros H; inversion H; subst.
    split; [reflexivity|]. right. exists R. split; [reflexivity | assumption].
  - discriminate.
Qed.

Lemma done_counted bar t R :
  kind bar = Counting R -> cancelled bar = false -> done bar t = true ->
  completedReqs bar = R.
Proof.
  unfold done. intros K C. rewrite K, C. simpl. apply Z.eqb_eq.
Qed.

Lemma cancelled_tryGrabWork bar t ok bar' :
  tryGrabWork bar t = (ok, bar') -> cancelled bar' = cancelled bar.
Proof.
  destruct ok; intros H.
  - apply tryGrabWork_true in H. destruct H as [_ [(R & _ & _ & ->)|(d & _ & ->)]];
      reflexivity.
  - apply tryGrabWork_false in H. destruct H as [-> _]. reflexivity.
Qed.

Lemma cancelled_jobDone bar : cancelled (jobDone bar) = cancelled bar.
Proof. unfold jobDone. destruct (kind bar); reflexivity. Qed.

(** Nothing undoes a cancel. *)
Lemma Step_quiet s s' : Step s s' -> quiet s' -> quiet s.
Proof.
  unfold quiet.
  pose proof (performSingleRequest_frame (sb s)) as (Fp1 & _).
  pose proof (recordRps_frame (now s) (sb s)) as (Fr1 & _).
  intros HS. destruct HS as [i pc pc' b' L M|pc' b' M|pc' b' M| | | | | | | | |];
    cbn [sb]; try (intros X; exact X); try discriminate.
  - destruct M as [bar T|bar T| |F| |]; cbn [barrier set_barrier set_workers];
      rewrite ?Fp1, ?cancelled_jobDone; try (intros X; exact X).
    rewrite (cancelled_tryGrabWork _ _ _ _ T). intros X; exact X.
  - destruct M; rewrite ?Fr1; intros X; exact X.
  - destruct M; intros X; exact X.
Qed.

Local Opaque performSingleRequest recordRps tryGrabWork.

Lemma counted_inv_boot c R cl t0 :
  0 <= R -> counted_inv R (boot (constructed c (newCountingCompletionBarrier R) cl) t0).
Proof.
  intros H. constructor; cbn; try reflexivity; try lia.
Qed.

(** The books of a counted test stay balanced. *)
Lemma counted_inv_Step R N s s' :
  Step s s' -> quiet s' -> wg_inv N s -> counted_inv R s -> counted_inv R s'.
Proof.
  intros HS Q' G Inv. pose proof (Step_quiet s s' HS Q') as Q.
  unfold quiet in Q, Q'.
  pose proof Inv as [Hk Hi Hc Ht He].
  pose proof (performSingleRequest_frame (sb s)) as (Fp1 & _ & _ & _ & _ & _ & Fp7).
  pose proof (recordRps_frame (now s) (sb s)) as (Fr1 & _ & _ & _ & _ & _ & Fr7 & _).
  pose proof (cntZ_nonneg inflight (gos s)) as Pin.
  destruct HS as [i pc pc' b' L M|pc' b' M|pc' b' M|E|E|E|E W|E|n E D|n E D| |d D].
  - pose proof (cntZ_insert inflight (gos s) i pc pc' L) as CI.
    pose proof (cntZ_insert answered (gos s) i pc pc' L) as CA.
    pose proof (cntZ_insert exited (gos s) i pc pc' L) as CE.
    destruct M as [bar T|bar T| |F| |]; simpl in CI, CA, CE.
    + apply tryGrabWork_true in T.
      destruct T as [_ [(R' & K & Lt & ->)|(d & K & _)]]; [|congruence].
      assert (R' = R) by congruence. subst R'.
      constructor; cbn [sb gos barrier set_barrier kind issued completedReqs calls];
        try assumption; try lia.
    + apply tryGrabWork_false in T. destruct T as [_ T].
      constructor; cbn [sb gos barrier set_workers calls]; try assumption; try lia.
      intros _. destruct T as [D|(R' & K & Le)].
      * pose proof (done_counted _ _ R Hk Q D). lia.
      * assert (R' = R) by congruence. subst R'. lia.
    + constructor; cbn [sb gos]; try assumption; lia.
    + exfalso. pose proof (done_counted _ _ R Hk Q F).
      pose proof (cntZ_lookup inflight (gos s) i WPace L eq_refl). lia.
    + constructor; cbn [sb gos]; rewrite ?Fp1, ?Fp7; try assumption; try lia.
    + unfold jobDone. rewrite Hk.
      constructor; cbn [sb gos barrier set_barrier kind issued completedReqs calls];
        try assumption; try reflexivity; try lia.
  - destruct M; constructor; cbn [sb gos]; rewrite ?Fr1, ?Fr7; assumption.
  - destruct M; constructor; cbn [sb gos]; assumption.
  - constructor; cbn [sb gos]; assumption.
  - constructor; cbn [sb gos]; assumption.
  - destruct G as [_ _ Hg _ _ _]. unfold spawned in Hg. rewrite E in Hg.
    rewrite Hg in *. 
    constructor; cbn [sb gos]; rewrite ?cntZ_replicate; simpl; try assumption; lia.
  - constructor; cbn [sb gos]; assumption.
  - constructor; cbn [sb gos]; assumption.
  - constructor; cbn [sb gos]; assumption.
  - constructor; cbn [sb gos]; assumption.
  - simpl in Q'. discriminate.
  - constructor; cbn [sb gos]; assumption.
Qed.

End Counted.

Section Meter.

Lemma sawDone_app l l' : sawDone (l ++ l') = sawDone l || sawDone l'.
Proof. unfold sawDone. apply existsb_app. Qed.

Lemma afterDone_app l l' :
  afterDone (l ++ l')
  = if sawDone l then afterDone l ++ List.filter isMeterEvent l'
    else afterDone l'.
Proof.
  induction l as [|e l IH]; [reflexivity|].
  destruct e; simpl; try exact IH. apply List.filter_app.
Qed.

Lemma others_silent l' :
  existsb isMeterEvent l' = false ->
  List.filter isMeterEvent l' = [] /\ sawDone l' = false /\ afterDone l' = [].
Proof.
  unfold sawDone. induction l' as [|e l' IH]; intros H; [repeat split|].
  simpl in H. apply orb_false_elim in H. destruct H as [He H].
  destruct (IH H) as (F & D & A).
  destruct e; simpl in *; try discriminate; repeat split; assumption.
Qed.

(** Events of the other goroutines do not show in what the meter did. *)
Lemma afterDone_others l l' :
  existsb isMeterEvent l' = false ->
  sawDone (l ++ l') = sawDone l /\ afterDone (l ++ l') = afterDone l.
Proof.
  intros H. destruct (others_silent l' H) as (F & D & A).
  rewrite sawDone_app, afterDone_app, F, D, A, orb_false_r, app_nil_r.
  split; [reflexivity|].
  destruct (sawDone l) eqn:E; [reflexivity|].
  clear -E. unfold sawDone in E.
  induction l as [|e l IH]; [reflexivity|]. simpl in *.
  apply orb_false_elim in E. destruct E as [He E].
  destruct e; simpl in *; try discriminate; apply IH; exact E.
Qed.

Lemma trace_performSingleRequest b :
  exists evs, trace (performSingleRequest b) = trace b ++ evs /\
              existsb isMeterEvent evs = false.
Proof.
  unfold performSingleRequest, client_do. rewrite trace_writeStatistics.
  destruct (err (client b (calls b))); simpl; rewrite <- !app_assoc;
    eexists; split; reflexivity.
Qed.

Lemma meter_inv_others s s' :
  meter s' = meter s ->
  (exists evs, trace (sb s') = trace (sb s) ++ evs /\
               existsb isMeterEvent evs = false) ->
  (waited (meter s) = true -> reqs (sb s') = reqs (sb s)) ->
  meter_inv s -> meter_inv s'.
Proof.
  intros Em (evs & Et & Ev) Er. unfold meter_inv. rewrite Em, Et.
  destruct (afterDone_others (trace (sb s)) evs Ev) as [-> ->].
  destruct (meter s); try (intros X; exact X); rewrite (Er eq_refl);
    intros X; exact X.
Qed.

Lemma no_events (l : list event) :
  exists evs, l = l ++ evs /\ existsb isMeterEvent evs = false.
Proof. exists []. rewrite app_nil_r. split; reflexivity. Qed.

Lemma one_event (l : list event) e :
  isMeterEvent e = false ->
  exists evs, l ++ [e] = l ++ evs /\ existsb isMeterEvent evs = false.
Proof. intros H. exists [e]. split; [reflexivity|]. simpl. rewrite H. reflexivity. Qed.

Local Opaque performSingleRequest.

(** The rate meter takes the done case once, then waits for the workers,
    records the last sample and sends its token. *)
Lemma meter_inv_Step N s s' :
  Step s s' -> wg_inv N s -> meter_inv s -> meter_inv s'.
Proof.
  intros HS G Inv.
  destruct HS as [i pc pc' b' L M|pc' b' M|pc' b' M|E|E|E|E W|E|n E D|n E D| |d D].
  - apply (meter_inv_others s); try reflexivity; try exact Inv.
    + destruct M; cbn [sb]; try apply no_events. apply trace_performSingleRequest.
    + intros Wt. destruct M; try reflexivity. exfalso.
      pose proof (spawned_lookup N s i _ G L) as Sp.
      destruct G as [_ Hw _ _ _ Hm]. rewrite Sp in Hw.
      rewrite (Hm Wt) in Hw.
      pose proof (cntZ_lookup running (gos s) i WPerform L eq_refl). lia.
  - unfold meter_inv in *. cbn [sb meter].
    pose proof (recordRps_frame (now s) (sb s)) as Fr. cbv zeta in Fr.
    destruct Fr as (_ & _ & _ & _ & _ & _ & _ & _ & _ & Frq & Ftr).
    destruct M; rewrite ?Ftr, ?Frq;
      cbn [trace emit set_trace set_doneChan reqs];
      rewrite ?sawDone_app, ?afterDone_app.
    + rewrite Inv. reflexivity.
    + rewrite Inv. split; reflexivity.
    + destruct Inv as [-> ->]. split; reflexivity.
    + destruct Inv as [-> ->]. split; [reflexivity|]. split; [reflexivity|].
      exists (reqs (sb s)). reflexivity.
    + destruct Inv as (-> & Hr & n & ->). split; [reflexivity|].
      split; [exact Hr|]. exists n. reflexivity.
  - apply (meter_inv_others s); try reflexivity; try exact Inv;
      try (intros _; destruct M; reflexivity); try (intros _; reflexivity).
    destruct M; cbn [sb]; try apply no_events. apply one_event. reflexivity.
  - apply (meter_inv_others s); try reflexivity; try exact Inv;
      try (intros _; destruct M; reflexivity); try (intros _; reflexivity). apply no_events.
  - apply (meter_inv_others s); try reflexivity; try exact Inv;
      try (intros _; destruct M; reflexivity); try (intros _; reflexivity). apply no_events.
  - destruct G as [_ _ _ Hi _ _]. unfold spawned in Hi. rewrite E in Hi.
    destruct (Hi eq_refl) as [Em _]. unfold meter_inv in *. rewrite Em in Inv.
    exact Inv.
  - apply (meter_inv_others s); try reflexivity; try exact Inv;
      try (intros _; destruct M; reflexivity); try (intros _; reflexivity).
    apply one_event. reflexivity.
  - apply (meter_inv_others s); try reflexivity; try exact Inv;
      try (intros _; destruct M; reflexivity); try (intros _; reflexivity).
    apply one_event. reflexivity.
  - apply (meter_inv_others s); try reflexivity; try exact Inv;
      try (intros _; destruct M; reflexivity); try (intros _; reflexivity).
    apply one_event. reflexivity.
  - apply (meter_inv_others s); try reflexivity; try exact Inv;
      try (intros _; destruct M; reflexivity); try (intros _; reflexivity).
    cbn [sb trace emit set_trace set_doneChan]. rewrite <- app_assoc.
    eexists. split; reflexivity.
  - apply (meter_inv_others s); try reflexivity; try exact Inv;
      try (intros _; destruct M; reflexivity); try (intros _; reflexivity).
    apply one_event. reflexivity.
  - apply (meter_inv_others s); try reflexivity; try exact Inv;
      try (intros _; destruct M; reflexivity); try (intros _; reflexivity). apply no_events.
Qed.

End Meter.

(** ** Bombardment *)

Section Bombardment.

Lemma all_exited N s :
  wg_inv N s -> spawned s = true -> workers (sb s) = 0%nat ->
  cntZ running (gos s) = 0 /\ Forall (fun pc => pc = WExit) (gos s).
Proof.
  intros [_ Hw _ _ _ _] Sp W. rewrite Sp, W in Hw. split; [lia|].
  apply Forall_lookup. intros i pc L.
  pose proof (cntZ_zero running (gos s) i pc ltac:(lia) L) as E.
  destruct pc; try discriminate. reflexivity.
Qed.

Lemma run_wg_inv c bar cl t0 cs s :
  run cs (boot (constructed c bar cl) t0) = Some s ->
  wg_inv (Z.to_nat (numConns c)) s.
Proof.
  intros H.
  apply (run_invariant (wg_inv (Z.to_nat (numConns c)))
           (wg_inv_Step _) cs _ s H).
  apply (wg_inv_boot (constructed c bar cl) t0). reflexivity.
Qed.

Lemma run_counted_inv c cl R t0 cs s :
  0 <= R ->
  run cs (boot (constructed c (newCountingCompletionBarrier R) cl) t0) = Some s ->
  quiet s -> counted_inv R s.
Proof.
  intros HR H.
  assert (P : wg_inv (Z.to_nat (numConns c)) s /\ (quiet s -> counted_inv R s));
    [|tauto].
  apply (run_invariant
           (fun s => wg_inv (Z.to_nat (numConns c)) s /\
                     (quiet s -> counted_inv R s))) with (cs := cs) (s' := s)
           (s := boot (constructed c (newCountingCompletionBarrier R) cl) t0).
  - intros s1 s2 HS [G C]. split; [apply (wg_inv_Step _ s1 s2 HS G)|].
    intros Q2. apply (counted_inv_Step R _ s1 s2 HS Q2 G).
    apply C. apply (Step_quiet s1 s2 HS Q2).
  - exact H.
  - split; [apply (wg_inv_boot (constructed c _ cl) t0); reflexivity|].
    intros _. apply counted_inv_boot. exact HR.
Qed.

Lemma answered_inflight l : cntZ answered l <= cntZ inflight l.
Proof.
  unfold cntZ. induction l as [|a l IH]; simpl; [lia|]. destruct a; simpl; lia.
Qed.

(** In a counted test that nobody cancels the client is never called more
    than [R] times, and it has been called exactly [R] times when [bombard]
    returns, whatever the number of connections and whether or not a rate
    is set. *)
Lemma counted_calls c cl R t0 cs s :
  1 <= R -> 1 <= numConns c ->
  run cs (boot (constructed c (newCountingCompletionBarrier R) cl) t0) = Some s ->
  quiet s ->
  Z.of_nat (calls (sb s)) <= R /\
  (orch s = OReturned -> Z.of_nat (calls (sb s)) = R).
Proof.
  intros HR HN H Q.
  pose proof (run_wg_inv c _ cl t0 cs s H) as G.
  pose proof (run_counted_inv c cl R t0 cs s ltac:(lia) H Q) as [Hk Hi Hc Ht He].
  pose proof (answered_inflight (gos s)) as Ale.
  split; [lia|]. intros O.
  assert (Sp : spawned s = true) by (unfold spawned; rewrite O; reflexivity).
  assert (W : workers (sb s) = 0%nat).
  { destruct G as [_ _ _ _ Hj _]. apply Hj. rewrite O. reflexivity. }
  destruct (all_exited _ s G Sp W) as [Run _].
  pose proof (cntZ_all_exited inflight (gos s) Run) as I0.
  pose proof (cntZ_all_exited answered (gos s) Run) as A0.
  rewrite I0 in Hi by (intros []; simpl; congruence).
  rewrite A0 in Hc by (intros []; simpl; congruence).
  pose proof (cntZ_running_exited (gos s)) as RE.
  destruct G as [_ _ Hg _ _ _]. rewrite Sp in Hg. rewrite Hg, Run in RE.
  assert (issued (barrier (sb s)) = R) by (apply He; lia).
  lia.
Qed.

End Bombardment.

Section Progress.

Lemma sumZ_insert (f : wpc -> Z) (l : list wpc) (i : nat) (pc pc' : wpc) :
  l !! i = Some pc ->
  sumZ (map f (<[i := pc']> l)) = sumZ (map f l) - f pc + f pc'.
Proof.
  revert i. induction l as [|a l IH]; intros [|i] H; try discriminate.
  - simpl in H. inversion H; subst. simpl. lia.
  - simpl in H. simpl. rewrite (IH i H). lia.
Qed.

Lemma exists_running l :
  0 < cntZ running l -> exists i pc, l !! i = Some pc /\ running pc = true.
Proof.
  unfold cntZ. induction l as [|a l IH]; simpl; [lia|].
  destruct (running a) eqn:E.
  - intros _. exists 0%nat, a. split; [reflexivity | exact E].
  - intros H. destruct (IH ltac:(lia)) as (i & pc & L & Rn).
    exists (S i), pc. split; assumption.
Qed.

Lemma weight_exited l : cntZ running l = 0 -> sumZ (map weight l) = 0.
Proof.
  unfold cntZ, running. induction l as [|a l IH]; simpl; [reflexivity|].
  pose proof (cntZ_nonneg (fun pc => negb (exited pc)) l) as P. unfold cntZ in P.
  destruct a; simpl; intros H; lia.
Qed.

Lemma weight_nonneg l : 0 <= sumZ (map weight l).
Proof. apply sumZ_map_nonneg. intros []; simpl; lia. Qed.

Lemma chan_inv_boot c bar cl t0 : chan_inv (boot (constructed c bar cl) t0).
Proof. unfold chan_inv. simpl. split; [reflexivity | intros X; discriminate X]. Qed.

Local Opaque performSingleRequest recordRps tryGrabWork.

Lemma chan_inv_Step N s s' :
  Step s s' -> wg_inv N s -> chan_inv s -> chan_inv s'.
Proof.
  intros HS [_ _ _ Hidle _ _] [Hc Hs].
  pose proof (performSingleRequest_frame (sb s)) as (_ & _ & _ & Fp4 & _).
  pose proof (recordRps_frame (now s) (sb s)) as (_ & _ & _ & Fr4 & _).
  unfold chan_inv, spawned in *.
  destruct HS as [i pc pc' b' L M|pc' b' M|pc' b' M|E|E|E|E W|E|n E D|n E D| |d D];
    cbn [sb gos meter updater orch].
  - destruct M; cbn [doneChan set_barrier set_workers]; rewrite ?Fp4;
      split; assumption.
  - split.
    + destruct M; cbn [doneChan emit set_trace set_doneChan]; rewrite ?Fr4;
        simpl in *; lia.
    + intros X. destruct (Hs X) as [_ U]. split; [|exact U].
      destruct M; discriminate.
  - split.
    + destruct M; cbn [doneChan emit set_trace set_doneChan];
        simpl in *; lia.
    + intros X. destruct (Hs X) as [U _]. split; [exact U|].
      destruct M; discriminate.
  - rewrite E in *. split; [exact Hc | discriminate].
  - rewrite E in *. split; [exact Hc | discriminate].
  - rewrite E in *. split; [|intros _; split; discriminate].
    destruct (Hidle eq_refl) as [Em Eu]. rewrite Em, Eu in Hc. simpl in *. lia.
  - rewrite E in *. split; [exact Hc | exact Hs].
  - rewrite E in *. split; [exact Hc | exact Hs].
  - rewrite E in *. split; [|exact Hs]. simpl in *. lia.
  - rewrite E in *. split; [|exact Hs]. simpl in *. lia.
  - split; assumption.
  - split; assumption.
Qed.

End Progress.

Section Returns.

Local Opaque performSingleRequest recordRps tryGrabWork.

Lemma good_Step R N s s' : Step s s' -> quiet s' -> good R N s -> good R N s'.
Proof.
  intros HS Q' (G & C & Ch & Q). split; [|split; [|split]].
  - apply (wg_inv_Step N s s' HS G).
  - apply (counted_inv_Step R N s s' HS Q' G C).
  - apply (chan_inv_Step N s s' HS G Ch).
  - exact Q'.
Qed.

Lemma pace_granted l f : pace l f true = Some cont.
Proof. destruct l; reflexivity. Qed.

Lemma weight_replicate n : sumZ (map weight (replicate n WGrab)) = Z.of_nat n.
Proof. induction n as [|n IH]; simpl; [reflexivity|]. simpl in IH. lia. Qed.

(** When all workers of a counted test have left, the barrier is done. *)
Lemma fired_when_exited R N s :
  (1 <= N)%nat -> good R N s -> spawned s = true ->
  cntZ running (gos s) = 0 -> fired s = true.
Proof.
  intros HN (G & [Hk Hi Hc Ht He] & _ & Q) Sp Run.
  pose proof (cntZ_all_exited inflight (gos s) Run) as I0.
  rewrite I0 in Hi by (intros []; simpl; congruence).
  pose proof (cntZ_running_exited (gos s)) as RE.
  destruct G as [_ _ Hg _ _ _]. rewrite Sp in Hg. rewrite Hg, Run in RE.
  assert (issued (barrier (sb s)) = R) by (apply He; lia).
  unfold fired, done. rewrite Hk. apply orb_true_iff. right. apply Z.eqb_eq. lia.
Qed.

(** Unless [bombard] has returned, some goroutine can move, and the move
    brings the return nearer. *)
Lemma progress R N s :
  (1 <= N)%nat -> good R N s -> orch s <> OReturned ->
  exists c s1, step c s = Some s1 /\ quiet s1 /\
               toGo R (Z.of_nat N) s1 < toGo R (Z.of_nat N) s.
Proof.
  intros HN Gd NR. pose proof Gd as (G & C & [Hch Hsp] & Q).
  pose proof G as [Hc Hw Hg Hidle Hj Hm].
  pose proof C as [Hk Hi Hcl Ht He].
  pose proof (performSingleRequest_frame (sb s)) as (Fp1 & _).
  unfold quiet in *.
  destruct (spawned s) eqn:Sp.
  2:{ exists Bombard. unfold spawned in Sp. simpl. unfold bombard, toGo.
      destruct (orch s) eqn:O; try discriminate; eexists; (split; [reflexivity|]);
        cbn [sb gos meter updater orch barrier set_start]; (split; [exact Q|]).
      - simpl. lia.
      - simpl. lia.
      - destruct (Hidle eq_refl) as [-> ->]. rewrite Hg, Hc, weight_replicate.
        simpl. lia. }
  destruct (Z.lt_ge_cases 0 (cntZ running (gos s))) as [Run|Run].
  - destruct (exists_running (gos s) Run) as (i & pc & L & Rn).
    exists (Worker i true). simpl. unfold worker, toGo. rewrite L.
    pose proof (sumZ_insert weight (gos s) i pc) as SI.
    destruct pc; try discriminate.
    + destruct (tryGrabWork (barrier (sb s)) (now s)) as [[|] bar] eqn:T;
        eexists; (split; [reflexivity|]);
        cbn [sb gos meter updater orch barrier set_barrier set_workers leave
             with_go with_sb];
        rewrite (SI _ L); simpl.
      * pose proof (cancelled_tryGrabWork _ _ _ _ T) as Cn.
        apply tryGrabWork_true in T.
        destruct T as [_ [(R' & _ & _ & ->)|(d & K & _)]]; [|congruence].
        split; [exact Q|]. simpl. lia.
      * split; [exact Q|]. lia.
    + rewrite pace_granted. eexists. split; [reflexivity|].
      cbn [sb gos meter updater orch barrier with_go]. rewrite (SI _ L).
      split; [exact Q|]. simpl. lia.
    + eexists. split; [reflexivity|].
      cbn [sb gos meter updater orch barrier with_go with_sb]. rewrite (SI _ L), Fp1.
      split; [exact Q|]. simpl. lia.
    + eexists. split; [reflexivity|].
      cbn [sb gos meter updater orch barrier set_barrier with_go with_sb].
      rewrite (SI _ L), cancelled_jobDone. unfold jobDone. rewrite Hk.
      split; [exact Q|]. simpl. lia.
  - pose proof (cntZ_nonneg running (gos s)) as Rp.
    assert (Run0 : cntZ running (gos s) = 0) by lia.
    pose proof (fired_when_exited R N s HN Gd Sp Run0) as F.
    assert (W : workers (sb s) = 0%nat) by lia.
    destruct (Hsp eq_refl) as [NM NU].
    destruct (meter s) eqn:Em; try congruence.
    + exists (RateMeter false). simpl. unfold rateMeter, toGo. rewrite Em, F.
      eexists. split; [reflexivity|].
      cbn [sb gos meter updater orch barrier with_meter with_sb emit set_trace].
      rewrite ?Em. split; [exact Q|]. simpl. lia.
    + exists (RateMeter false). simpl. unfold rateMeter, toGo. rewrite Em, W.
      eexists. split; [reflexivity|].
      cbn [sb gos meter updater orch barrier with_meter with_sb emit set_trace].
      rewrite ?Em. split; [exact Q|]. simpl. lia.
    + pose proof (recordRps_frame (now s) (sb s)) as (Fr1 & _).
      exists (RateMeter false). simpl. unfold rateMeter, toGo. rewrite Em.
      eexists. split; [reflexivity|].
      cbn [sb gos meter updater orch barrier with_meter with_sb]. rewrite ?Fr1, ?Em.
      split; [exact Q|]. simpl. lia.
    + exists (RateMeter false). simpl. unfold rateMeter, send, toGo. rewrite Em.
      assert (D : (doneChan (sb s) <? 2)%nat = true).
      { apply Nat.ltb_lt. simpl in Hch.
        destruct (updater s), (orch s); simpl in Hch; lia. }
      rewrite D. eexists. split; [reflexivity|].
      cbn [sb gos meter updater orch barrier with_meter with_sb emit set_trace
           set_doneChan]. rewrite ?Em.
      split; [exact Q|]. simpl. lia.
    + destruct (updater s) eqn:Eu; try congruence.
      * exists BarUpdater. simpl. unfold barUpdater, toGo. rewrite Eu, F.
        eexists. split; [reflexivity|].
        cbn [sb gos meter updater orch barrier with_updater]. rewrite ?Eu.
        split; [exact Q|]. simpl. lia.
      * exists BarUpdater. simpl. unfold barUpdater, send, toGo. rewrite Eu.
        assert (D : (doneChan (sb s) <? 2)%nat = true).
        { apply Nat.ltb_lt. simpl in Hch.
          destruct (orch s); simpl in Hch; lia. }
        rewrite D. eexists. split; [reflexivity|].
        cbn [sb gos meter updater orch barrier with_updater with_sb emit
             set_trace set_doneChan]. rewrite ?Eu.
        split; [exact Q|]. simpl. lia.
      * exists Bombard. simpl. unfold bombard, recv, toGo. unfold spawned in Sp.
        simpl in Hch.
        destruct (orch s) eqn:O; try discriminate; try congruence.
        -- rewrite W. eexists. split; [reflexivity|].
           cbn [sb gos meter updater orch barrier with_orch with_sb emit set_trace].
           split; [exact Q|]. simpl. lia.
        -- eexists. split; [reflexivity|].
           cbn [sb gos meter updater orch barrier with_orch with_sb emit set_trace
                set_timeTaken].
           split; [exact Q|]. simpl. lia.
        -- simpl in Hch. destruct (doneChan (sb s)) as [|n] eqn:D; [lia|].
           eexists. split; [reflexivity|].
           cbn [sb gos meter updater orch barrier with_orch with_sb emit set_trace
                set_doneChan].
           split; [exact Q|]. simpl. lia.
        -- simpl in Hch. destruct (doneChan (sb s)) as [|n] eqn:D; [lia|].
           eexists. split; [reflexivity|].
           cbn [sb gos meter updater orch barrier with_orch with_sb emit set_trace
                set_doneChan].
           split; [exact Q|]. simpl. lia.
Qed.

Lemma toGo_nonneg R N s : good R N s -> 0 <= toGo R (Z.of_nat N) s.
Proof.
  intros (_ & [_ _ _ Ht _] & _ & _). unfold toGo.
  pose proof (weight_nonneg (gos s)).
  destruct (orch s), (meter s), (updater s); simpl; lia.
Qed.

(** From every state of a counted test that nobody cancelled, [bombard]
    can return. *)
Lemma returns_from R N s :
  (1 <= N)%nat -> good R N s ->
  exists cs s', run cs s = Some s' /\ quiet s' /\ orch s' = OReturned.
Proof.
  intros HN. remember (Z.to_nat (toGo R (Z.of_nat N) s)) as n eqn:En.
  revert s En. induction n as [n IH] using lt_wf_ind. intros s En Gd.
  destruct (orch s) eqn:O;
    try (destruct (progress R N s HN Gd ltac:(congruence)) as (c & s1 & St & Q1 & Lt);
         pose proof (good_Step R N s s1 (step_Step c s s1 St) Q1 Gd) as Gd1;
         pose proof (toGo_nonneg R N s1 Gd1);
         destruct (IH (Z.to_nat (toGo R (Z.of_nat N) s1)) ltac:(lia) s1 eq_refl Gd1)
           as (cs & s' & Rn & Q' & O');
         exists (c :: cs), s'; simpl; rewrite St; repeat split; assumption).
  exists [], s. destruct Gd as (_ & _ & _ & Q). repeat split; assumption.
Qed.

End Returns.

Section Theorems.

(** C1: in a counted test with [R >= 1] requests and at least one
    connection, with or without a rate, that nobody cancels, the client is
    called at most [R] times; whenever [bombard] has returned it has been
    called exactly [R] times; and from every state reached, [bombard] can
    return. *)
Theorem counted_bombardment (c : config) (cl : nat -> response) (R t0 : Z)
    (cs : list choice) (s : sys) :
  1 <= R -> 1 <= numConns c ->
  run cs (boot (constructed c (newCountingCompletionBarrier R) cl) t0) = Some s ->
  quiet s ->
  Z.of_nat (calls (sb s)) <= R /\
  (orch s = OReturned -> Z.of_nat (calls (sb s)) = R) /\
  exists cs' s',
    run cs' s = Some s' /\ quiet s' /\ orch s' = OReturned /\
    Z.of_nat (calls (sb s')) = R.
Proof.
  intros HR HN H Q.
  destruct (counted_calls c cl R t0 cs s HR HN H Q) as [Le Eq].
  split; [exact Le|]. split; [exact Eq|].
  assert (Gd : good R (Z.to_nat (numConns c)) s).
  { split; [apply (run_wg_inv c _ cl t0 cs s H)|].
    split; [apply (run_counted_inv c cl R t0 cs s ltac:(lia) H Q)|].
    split; [|exact Q].
    assert (P : wg_inv (Z.to_nat (numConns c)) s /\ chan_inv s); [|tauto].
    apply (run_invariant
             (fun s => wg_inv (Z.to_nat (numConns c)) s /\ chan_inv s))
      with (cs := cs)
           (s := boot (constructed c (newCountingCompletionBarrier R) cl) t0).
    - intros s1 s2 HS [G Ch]. split.
      + apply (wg_inv_Step _ s1 s2 HS G).
      + apply (chan_inv_Step _ s1 s2 HS G Ch).
    - exact H.
    - split; [apply (wg_inv_boot (constructed c _ cl) t0); reflexivity|].
      apply chan_inv_boot. }
  destruct (returns_from R (Z.to_nat (numConns c)) s ltac:(lia) Gd)
    as (cs' & s' & Rn & Q' & O').
  exists cs', s'. repeat split; try assumption.
  assert (H' : run (cs ++ cs')
                 (boot (constructed c (newCountingCompletionBarrier R) cl) t0)
               = Some s').
  { clear -H Rn. revert H.
    generalize (boot (constructed c (newCountingCompletionBarrier R) cl) t0).
    induction cs as [|a cs IH]; intros s0 H; simpl in *.
    - inversion H; subst. exact Rn.
    - destruct (step a s0); [apply IH; exact H | discriminate]. }
  apply (counted_calls c cl R t0 (cs ++ cs') s' HR HN H' Q'). exact O'.
Qed.

Lemma counted_bombardment_witness :
  let s := default boot_2x3 (run schedule_2x3 boot_2x3) in
  Z.of_nat (calls (sb s)) <= 3 /\
  (orch s = OReturned -> Z.of_nat (calls (sb s)) = 3) /\
  exists cs' s',
    run cs' s = Some s' /\ quiet s' /\ orch s' = OReturned /\
    Z.of_nat (calls (sb s')) = 3.
Proof.
  apply (counted_bombardment (config0 2 (Some 3) None EmptyString) ok200 3 0 schedule_2x3).
  - lia.
  - vm_compute. congruence.
  - vm_compute. reflexivity.
  - vm_compute. reflexivity.
Defined.

(** What [newBombardier] returns for a counted configuration without
    client certificate and body file is the record that the bombardment
    starts from. *)
Lemma newBombardier_counted (w : world) (now : Z) (c : config) (R : Z)
    (l : list string) :
  checkArgs w c = None -> numReqs c = Some R -> clientCert c = EmptyString ->
  stream c = false -> bodyFilePath c = EmptyString ->
  exists cl,
    newBombardier w now c l
    = (Ret (inl (constructed c (newCountingCompletionBarrier R) cl)), l).
Proof.
  intros Hc Hr Hcert Hs Hb.
  unfold newBombardier, newBombardier_from, generateTLSConfig_call, testType.
  rewrite Hc, Hr. unfold io_bind, generateTLSConfig, readClientCert, io_bind.
  rewrite Hcert, Hs, Hb. simpl. eexists. reflexivity.
Qed.

(** C6, as the code has it: once the rate meter has taken the done case
    it waits for all workers to have exited, then records one last sample,
    which empties the request counter, then sends its completion token; as
    long as it is past the wait, every worker has exited. *)
Theorem rateMeter_waits_then_records (c : config) (bar : completionBarrier)
    (cl : nat -> response) (t0 : Z) (cs : list choice) (s : sys) :
  run cs (boot (constructed c bar cl) t0) = Some s ->
  (waited (meter s) = true -> Forall (fun pc => pc = WExit) (gos s)) /\
  (meter s = MWait -> afterDone (trace (sb s)) = []) /\
  (meter s = MRecord -> afterDone (trace (sb s)) = [EvMeterWaited]) /\
  (meter s = MSend ->
     reqs (sb s) = 0 /\
     exists n, afterDone (trace (sb s)) = [EvMeterWaited; EvRecordRps n]) /\
  (meter s = MExit ->
     reqs (sb s) = 0 /\
     exists n,
       afterDone (trace (sb s)) = [EvMeterWaited; EvRecordRps n; EvMeterToken]).
Proof.
  intros H. pose proof (run_wg_inv c bar cl t0 cs s H) as G.
  assert (P : wg_inv (Z.to_nat (numConns c)) s /\ meter_inv s).
  { apply (run_invariant
             (fun s => wg_inv (Z.to_nat (numConns c)) s /\ meter_inv s))
      with (cs := cs) (s := boot (constructed c bar cl) t0).
    - intros s1 s2 HS [G1 M1]. split.
      + apply (wg_inv_Step _ s1 s2 HS G1).
      + apply (meter_inv_Step _ s1 s2 HS G1 M1).
    - exact H.
    - split; [apply (wg_inv_boot (constructed c bar cl) t0); reflexivity|].
      reflexivity. }
  destruct P as [_ M]. unfold meter_inv in M.
  split.
  - intros Wt. apply (all_exited _ s G).
    + apply (spawned_meter _ s G). intros E. rewrite E in Wt. discriminate.
    + destruct G as [_ _ _ _ _ Hm]. apply Hm. exact Wt.
  - split; [|split; [|split]]; intros E; rewrite E in M; tauto.
Qed.

Lemma rateMeter_waits_then_records_witness :
  let s := default boot_late (run schedule_late boot_late) in
  (waited (meter s) = true -> Forall (fun pc => pc = WExit) (gos s)) /\
  (meter s = MWait -> afterDone (trace (sb s)) = []) /\
  (meter s = MRecord -> afterDone (trace (sb s)) = [EvMeterWaited]) /\
  (meter s = MSend ->
     reqs (sb s) = 0 /\
     exists n, afterDone (trace (sb s)) = [EvMeterWaited; EvRecordRps n]) /\
  (meter s = MExit ->
     reqs (sb s) = 0 /\
     exists n,
       afterDone (trace (sb s)) = [EvMeterWaited; EvRecordRps n; EvMeterToken]).
Proof.
  apply (rateMeter_waits_then_records (config0 1 None (Some 1000) EmptyString)
           (newTimedCompletionBarrier 0 1000) ok200 0 schedule_late).
  vm_compute. reflexivity.
Defined.

(** C6 as stated fails: in this run the done signal fires while the worker
    is about to perform a request; the meter takes the done case, waits,
    and records the last sample only after the worker has performed the
    request and left: the sample counts that request, and the order is
    wait, sample, token, not sample, wait, token. *)
Lemma last_sample_after_wait :
  exists s,
    run schedule_late boot_late = Some s /\ meter s = MExit /\
    trace (sb s)
    = [EvMeterDone; EvDo 0; EvLatencies 150; EvReqs; EvCounter b2xx;
       EvMeterWaited; EvRecordRps 1; EvMeterToken] /\
    afterDone (trace (sb s)) = [EvMeterWaited; EvRecordRps 1; EvMeterToken] /\
    forall n,
      afterDone (trace (sb s)) <> [EvRecordRps n; EvMeterWaited; EvMeterToken].
Proof.
  eexists. split; [vm_compute; reflexivity|].
  split; [reflexivity|]. split; [reflexivity|]. split; [reflexivity|].
  intros n. discriminate.
Qed.

End Theorems.

Section Throughput.

Lemma wrapi64_small z : - 2 ^ 63 <= z < 2 ^ 63 -> wrapi64 z = z.
Proof. intros H. unfold wrapi64. rewrite Z.mod_small; lia. Qed.

Local Opaque performSingleRequest recordRps tryGrabWork.

(** Once assigned, [b.timeTaken] keeps its value. *)
Lemma timeTaken_Step s s' :
  Step s s' -> timed_bombard (orch s) = true ->
  timed_bombard (orch s') = true /\ timeTaken (sb s') = timeTaken (sb s).
Proof.
  pose proof (performSingleRequest_frame (sb s)) as (_ & _ & _ & _ & Fp5 & _).
  pose proof (recordRps_frame (now s) (sb s)) as (_ & _ & _ & _ & Fr5 & _).
  intros HS T.
  destruct HS as [i pc pc' b' L M|pc' b' M|pc' b' M|E|E|E|E W|E|n E D|n E D| |d D];
    cbn [sb orch]; try (rewrite E in T; discriminate);
    try (split; [first [exact T | reflexivity] | reflexivity]).
  - split; [exact T|]. destruct M; rewrite ?Fp5; reflexivity.
  - split; [exact T|]. destruct M; rewrite ?Fr5; reflexivity.
  - split; [exact T|]. destruct M; reflexivity.
Qed.

Lemma timeTaken_run cs s s' :
  run cs s = Some s' -> timed_bombard (orch s) = true ->
  timeTaken (sb s') = timeTaken (sb s).
Proof.
  intros H T.
  assert (P : timed_bombard (orch s') = true /\
              timeTaken (sb s') = timeTaken (sb s)); [|tauto].
  apply (run_invariant
           (fun x => timed_bombard (orch x) = true /\
                     timeTaken (sb x) = timeTaken (sb s)))
    with (cs := cs) (s := s).
  - intros s1 s2 HS [T1 E1].
    destruct (timeTaken_Step s1 s2 HS T1) as [T2 E2]. split; congruence.
  - exact H.
  - split; [exact T | reflexivity].
Qed.

(** Only [bombard] moves [bombard]. *)
Lemma orch_step c s s' : step c s = Some s' -> c <> Bombard -> orch s' = orch s.
Proof.
  intros H NB. destruct c as [i g|tick| | | |d]; simpl in H; try congruence.
  - unfold worker, leave in H.
    repeat match type of H with
           | context [match ?x with _ => _ end] => destruct x
           end; try discriminate; inversion H; reflexivity.
  - unfold rateMeter, send in H.
    repeat match type of H with
           | context [match ?x with _ => _ end] => destruct x
           | context [if ?x then _ else _] => destruct x
           end; try discriminate; inversion H; reflexivity.
  - unfold barUpdater, send in H.
    repeat match type of H with
           | context [match ?x with _ => _ end] => destruct x
           | context [if ?x then _ else _] => destruct x
           end; try discriminate; inversion H; reflexivity.
  - inversion H. reflexivity.
  - destruct (0 <=? d); inversion H. reflexivity.
Qed.

(** The assignment to [b.timeTaken] is the step of [bombard] that follows
    [b.workers.Wait()]. *)
Lemma timeTaken_step c s s' :
  step c s = Some s' -> timed_bombard (orch s) = false ->
  timed_bombard (orch s') = true ->
  c = Bombard /\ orch s = OSince /\
  timeTaken (sb s') = now s - bombardmentBegin s.
Proof.
  intros H F T.
  assert (C : c = Bombard).
  { destruct c; try reflexivity;
      rewrite (orch_step _ s s' H) in T by discriminate; congruence. }
  subst c. split; [reflexivity|]. simpl in H.
  unfold bombard, recv in H. destruct (orch s) eqn:O; try discriminate.
  - inversion H; subst. discriminate.
  - inversion H; subst. discriminate.
  - inversion H; subst. discriminate.
  - destruct (workers (sb s) =? 0)%nat; inversion H; subst. discriminate.
  - inversion H; subst. split; reflexivity.
Qed.

Lemma timeTaken_history cs s0 s :
  run cs s0 = Some s -> timed_bombard (orch s0) = false ->
  timed_bombard (orch s) = true ->
  exists cs1 cs2 s1,
    cs = cs1 ++ Bombard :: cs2 /\ run cs1 s0 = Some s1 /\ orch s1 = OSince /\
    timeTaken (sb s) = now s1 - bombardmentBegin s1.
Proof.
  revert s0. induction cs as [|c cs IH]; intros s0 H F T; simpl in H.
  - inversion H; subst. congruence.
  - destruct (step c s0) as [s0'|] eqn:St; [|discriminate].
    destruct (timed_bombard (orch s0')) eqn:T'.
    + destruct (timeTaken_step c s0 s0' St F T') as (-> & O & E).
      exists [], cs, s0. repeat split; try assumption.
      rewrite (timeTaken_run cs s0' s H T'). exact E.
    + destruct (IH s0' H T' T) as (cs1 & cs2 & s1 & -> & R1 & O & E).
      exists (c :: cs1), cs2, s1. repeat split; try assumption.
      simpl. rewrite St. exact R1.
Qed.

Lemma run_app cs1 cs2 s :
  run (cs1 ++ cs2) s
  = match run cs1 s with Some s1 => run cs2 s1 | None => None end.
Proof.
  revert s. induction cs1 as [|c cs1 IH]; intros s; simpl; [reflexivity|].
  destruct (step c s); [apply IH | reflexivity].
Qed.

(** C9: after [bombard] has returned, the last line of [printStats] shows
    [formatBinary] of [(bytesRead + bytesWritten) / elapsed.Seconds()],
    where [elapsed] is the time from [bombardmentBegin] to the step of
    [bombard] that follows [b.workers.Wait()], a step at which every worker
    has exited and no completion token is received yet. *)
Theorem throughput_of_bombardment (fm : formatters) (impl : Z) (c : config)
    (bar : completionBarrier) (cl : nat -> response) (t0 : Z)
    (cs : list choice) (s : sys) :
  run cs (boot (constructed c bar cl) t0) = Some s ->
  orch s = OReturned ->
  - 2 ^ 63 <= bytesRead (sb s) + bytesWritten (sb s) < 2 ^ 63 ->
  exists cs1 cs2 s1,
    cs = cs1 ++ Bombard :: cs2 /\
    run cs1 (boot (constructed c bar cl) t0) = Some s1 /\
    orch s1 = OSince /\ Forall (fun pc => pc = WExit) (gos s1) /\
    timeTaken (sb s) = now s1 - bombardmentBegin s1 /\
    last (printStats fm impl (sb s))
    = Some ("  " +:+ pad_right 10 "Throughput:" +:+ " "
            +:+ pad_left 10
                  (formatBinary fm
                     (fdiv (of_int (bytesRead (sb s) + bytesWritten (sb s)))
                           (Seconds (now s1 - bombardmentBegin s1))))
            +:+ "/s").
Proof.
  intros H O Hb.
  destruct (timeTaken_history cs _ s H eq_refl) as (cs1 & cs2 & s1 & E & R1 & O1 & Et).
  { rewrite O. reflexivity. }
  exists cs1, cs2, s1. repeat split; try assumption.
  - pose proof (run_wg_inv c bar cl t0 cs1 s1 R1) as G.
    apply (all_exited _ s1 G).
    + unfold spawned. rewrite O1. reflexivity.
    + destruct G as [_ _ _ _ Hj _]. apply Hj. rewrite O1. reflexivity.
  - unfold printStats. rewrite !app_assoc, last_snoc.
    unfold throughputFigure. rewrite wrapi64_small by exact Hb. rewrite Et.
    reflexivity.
Qed.

Lemma throughput_of_bombardment_witness :
  let s := default boot_2x3 (run schedule_2x3 boot_2x3) in
  exists cs1 cs2 s1,
    schedule_2x3 = cs1 ++ Bombard :: cs2 /\
    run cs1 boot_2x3 = Some s1 /\
    orch s1 = OSince /\ Forall (fun pc => pc = WExit) (gos s1) /\
    timeTaken (sb s) = now s1 - bombardmentBegin s1 /\
    last (printStats formatters0 0 (sb s))
    = Some ("  " +:+ pad_right 10 "Throughput:" +:+ " "
            +:+ pad_left 10
                  (formatBinary formatters0
                     (fdiv (of_int (bytesRead (sb s) + bytesWritten (sb s)))
                           (Seconds (now s1 - bombardmentBegin s1))))
            +:+ "/s").
Proof.
  apply (throughput_of_bombardment formatters0 0 (config0 2 (Some 3) None EmptyString)
           (newCountingCompletionBarrier 3) ok200 0 schedule_2x3).
  - vm_compute. reflexivity.
  - vm_compute. reflexivity.
  - vm_compute. split; congruence.
Defined.

End Throughput.

(** ** The percentile at its edges *)

Section PercentileEdges.

Lemma walk_zero_or_key h rank total ks :
  percentile_walk h rank total ks = 0 \/
  In (percentile_walk h rank total ks) ks.
Proof.
  revert total. induction ks as [|k ks IH]; intros total; simpl.
  - left; reflexivity.
  - destruct (rank <=? wrap64 (total + Get h k)).
    + right; left; reflexivity.
    + destruct (IH (wrap64 (total + Get h k))) as [E|I];
        [left | right; right]; assumption.
Qed.

Lemma visit_keys (h : uhist) ks t :
  fst (VisitAll h (fun '(keys, totalCount) k v =>
                     (keys ++ [k], wrap64 (totalCount + v))) (ks, t))
  = ks ++ map fst h.
Proof.
  unfold VisitAll. revert ks t.
  induction h as [|[k v] h IH]; intros ks t; simpl.
  - rewrite app_nil_r; reflexivity.
  - rewrite IH, <- app_assoc. reflexivity.
Qed.

(** X1: whatever the argument [p] is (a percentage, a negative number, an
    infinity, NaN) and however large the counts are, the result of
    [latenciesPercentile] is 0 or one of the keys of the histogram. *)
Theorem latenciesPercentile_zero_or_key (impl : Z) (h : uhist) (p : float64) :
  latenciesPercentile impl h p = 0 \/
  In (latenciesPercentile impl h p) (map fst h).
Proof.
  unfold latenciesPercentile.
  pose proof (visit_keys h [] 0) as K.
  match goal with
  | K : fst ?v = _ |- _ => destruct v as [keys totalCount]
  end.
  simpl in K. subst keys.
  destruct (walk_zero_or_key h (percentile_rank impl p totalCount) 0
              (sort_keys (map fst h))) as [E|I].
  - left; exact E.
  - right. apply (Permutation_in _ (sort_keys_perm _)). exact I.
Qed.

Lemma Get_In h k v : NoDup (map fst h) -> In (k, v) h -> Get h k = v.
Proof.
  induction h as [|[k' v'] t IH]; intros ND I; [destruct I|].
  simpl in ND. apply NoDup_cons in ND. destruct ND as [N1 N2].
  destruct I as [E|I].
  - inversion E; subst. apply Get_cons_eq.
  - assert (k' <> k).
    { intros ->. apply N1. apply list_elem_of_In.
      apply (in_map fst) in I. exact I. }
    rewrite Get_cons_ne by assumption. apply IH; assumption.
Qed.

Lemma Get_notin h k : ~ In k (map fst h) -> Get h k = 0.
Proof.
  induction h as [|[k' v'] t IH]; intros N; [reflexivity|].
  simpl in N. rewrite Get_cons_ne by (intros ->; apply N; left; reflexivity).
  apply IH. intros I. apply N. right. exact I.
Qed.

Lemma Get_perm h h' k :
  NoDup (map fst h) -> Permutation h h' -> Get h k = Get h' k.
Proof.
  intros ND P.
  assert (ND' : NoDup (map fst h')).
  { rewrite <- (Permutation_map (@fst Z Z) P). exact ND. }
  destruct (in_dec Z.eq_dec k (map fst h)) as [I|N].
  - apply in_map_iff in I. destruct I as ([k0 v] & E & I). simpl in E. subst k0.
    rewrite (Get_In h k v ND I).
    symmetry. apply Get_In; [exact ND'|]. apply (Permutation_in _ P). exact I.
  - rewrite (Get_notin h k N). symmetry. apply Get_notin.
    intros I. apply N.
    apply (Permutation_in _ (Permutation_sym (Permutation_map (@fst Z Z) P))). exact I.
Qed.

Lemma walk_ext h h' rank total ks :
  (forall k, Get h k = Get h' k) ->
  percentile_walk h rank total ks = percentile_walk h' rank total ks.
Proof.
  intros E. revert total. induction ks as [|k ks IH]; intros total; simpl.
  - reflexivity.
  - rewrite E, IH. reflexivity.
Qed.

Lemma wf_perm h h' : Permutation h h' -> wf h -> wf h'.
Proof.
  intros P [ND F]. split.
  - rewrite <- (Permutation_map (@fst Z Z) P). exact ND.
  - rewrite <- P. exact F.
Qed.

Lemma samples_perm h h' : Permutation h h' -> samples h = samples h'.
Proof.
  intros P. unfold samples. apply (sumZ_perm (map snd h) (map snd h')).
  apply Permutation_map. exact P.
Qed.

Lemma sort_keys_unique ks ks' :
  Permutation ks ks' -> sort_keys ks = sort_keys ks'.
Proof.
  intros P. apply (StronglySorted_unique Z.le).
  - apply sort_keys_sorted.
  - apply sort_keys_sorted.
  - rewrite (sort_keys_perm ks), (sort_keys_perm ks'). exact P.
Qed.

(** X2: the result of [latenciesPercentile] does not depend on the order in
    which [VisitAll] passes the entries of the histogram to the visitor. *)
Theorem latenciesPercentile_visit_order (impl : Z) (h h' : uhist) (p : float64) :
  wf h -> samples h < 2 ^ 64 -> Permutation h h' ->
  latenciesPercentile impl h p = latenciesPercentile impl h' p.
Proof.
  intros W Hs P.
  rewrite (latenciesPercentile_walk impl h p W Hs).
  rewrite (latenciesPercentile_walk impl h' p (wf_perm h h' P W))
    by (rewrite <- (samples_perm h h' P); exact Hs).
  rewrite <- (samples_perm h h' P).
  rewrite (sort_keys_unique (map fst h) (map fst h') (Permutation_map (@fst Z Z) P)).
  apply walk_ext. intros k. apply Get_perm; [apply W | exact P].
Qed.

Lemma latenciesPercentile_visit_order_witness :
  latenciesPercentile 0 hist3 (FFin 75)
  = latenciesPercentile 0 (rev hist3) (FFin 75).
Proof.
  apply (latenciesPercentile_visit_order 0 hist3 (rev hist3) (FFin 75)).
  - split.
    + apply (bool_decide_unpack _). vm_compute. exact I.
    + repeat constructor; simpl; lia.
  - vm_compute. reflexivity.
  - apply Permutation_rev.
Defined.

Lemma of_int_finite n :
  0 <= n < 2 ^ 64 -> exists y, of_int n = FFin y /\ (0 <= y)%Q.
Proof.
  intros Hn. unfold of_int.
  destruct (round64_mono_fin (inject_Z n) (inject_Z (2 ^ 64))
              (inject_Z (2 ^ 64))) as (a & E & A0 & _).
  - change 0%Q with (inject_Z 0). rewrite <- Zle_Qle. lia.
  - rewrite <- Zle_Qle. lia.
  - vm_compute. reflexivity.
  - exists a. split; assumption.
Qed.

Lemma round64_zero x : (x == 0)%Q -> round64 x = FFin 0.
Proof.
  intros E. unfold round64. rewrite Qeq_alt in E. rewrite E. reflexivity.
Qed.

Lemma percentile_rank_0 impl n :
  0 <= n < 2 ^ 64 -> percentile_rank impl (FFin 0) n = 0.
Proof.
  intros Hn. unfold percentile_rank.
  destruct (of_int_finite n Hn) as (y & -> & _).
  replace (fdiv (FFin 0) (FFin 100)) with (FFin 0)
    by (vm_compute; reflexivity).
  unfold fmul. rewrite (round64_zero (0 * y)) by ring.
  vm_compute. reflexivity.
Qed.

Lemma sorted_nonempty (h : uhist) : h <> [] -> sort_keys (map fst h) <> [].
Proof.
  intros Hne E. apply Hne.
  pose proof (sort_keys_perm (map fst h)) as P. rewrite E in P.
  apply Permutation_nil_l in P. destruct h; [reflexivity | discriminate].
Qed.

(** X3: at [p = 0] the rank is 0, which the first key already reaches: the
    result is the smallest key of the histogram. *)
Theorem latenciesPercentile_p0 (impl : Z) (h : uhist) :
  wf h -> samples h < 2 ^ 64 -> h <> [] ->
  In (latenciesPercentile impl h (FFin 0)) (map fst h) /\
  forall k, In k (map fst h) -> latenciesPercentile impl h (FFin 0) <= k.
Proof.
  intros W Hs Hne. rewrite (latenciesPercentile_walk impl h _ W Hs).
  pose proof (samples_nonneg h W) as H0.
  rewrite percentile_rank_0 by lia.
  pose proof (sort_keys_perm (map fst h)) as P.
  pose proof (sort_keys_sorted (map fst h)) as S.
  pose proof (sorted_nonempty h Hne) as HL.
  destruct (sort_keys (map fst h)) as [|k1 L]; [contradiction|].
  assert (E : percentile_walk h 0 0 (k1 :: L) = k1).
  { simpl. unfold wrap64.
    destruct (Z.leb_spec 0 ((0 + Get h k1) mod 2 ^ 64)) as [_|Hlt];
      [reflexivity|].
    pose proof (Z.mod_pos_bound (0 + Get h k1) (2 ^ 64)). lia. }
  rewrite E. split.
  - apply (Permutation_in _ P). left; reflexivity.
  - intros k Ik. apply (Permutation_in _ (Permutation_sym P)) in Ik.
    destruct Ik as [->|Ik]; [lia|].
    inversion S as [|? ? _ Hle]; subst. rewrite Forall_forall in Hle.
    apply Hle. apply list_elem_of_In. exact Ik.
Qed.

Lemma latenciesPercentile_p0_witness :
  In (latenciesPercentile 0 hist3 (FFin 0)) (map fst hist3) /\
  forall k, In k (map fst hist3) -> latenciesPercentile 0 hist3 (FFin 0) <= k.
Proof.
  apply (latenciesPercentile_p0 0 hist3).
  - split.
    + apply (bool_decide_unpack _). vm_compute. exact I.
    + repeat constructor; simpl; lia.
  - vm_compute. reflexivity.
  - discriminate.
Defined.

Lemma percentile_rank_100 impl n :
  0 <= n < 2 ^ 52 -> percentile_rank impl (FFin 100) n = n.
Proof.
  intros Hn. unfold percentile_rank.
  replace (fdiv (FFin 100) (FFin 100)) with (FFin 1)
    by (vm_compute; reflexivity).
  unfold of_int.
  destruct (round64_exact (inject_Z n) n 0) as (a & -> & Ea);
    [lia | lia | simpl; ring |].
  unfold fmul.
  destruct (round64_exact (1 * a) n 0) as (a2 & -> & Ea2);
    [lia | lia | rewrite Ea; simpl; ring |].
  unfold fadd.
  destruct (round64_exact (a2 + (1 # 2)) (2 * n + 1) (-1)) as (a3 & -> & Ea3);
    [lia | lia | |].
  { rewrite Ea2, Ea. rewrite inject_Z_plus, inject_Z_mult.
    change (pow2 (-1)) with (1 # 2)%Q. ring. }
  assert (E3 : (a3 == inject_Z n + (1 # 2))%Q).
  { rewrite Ea3, Ea2, Ea. ring. }
  destruct (to_uint64_nonneg impl a3 n) as [-> _].
  - rewrite E3. change 0%Q with (inject_Z 0).
    assert (inject_Z 0 <= inject_Z n)%Q by (rewrite <- Zle_Qle; lia). lra.
  - rewrite E3. lra.
  - lia.
  - rewrite E3. apply Qfloor_half.
Qed.

Lemma sumGet_app h a b : sumGet h (a ++ b) = sumGet h a + sumGet h b.
Proof. unfold sumGet. rewrite map_app. apply sumZ_app. Qed.

(** X4: at [p = 100], for fewer than [2^52] samples, the rank is the number
    of samples, which only the last key reaches: the result is the largest
    key of the histogram. *)
Theorem latenciesPercentile_p100 (impl : Z) (h : uhist) :
  wf h -> samples h < 2 ^ 52 -> h <> [] ->
  In (latenciesPercentile impl h (FFin 100)) (map fst h) /\
  forall k, In k (map fst h) -> k <= latenciesPercentile impl h (FFin 100).
Proof.
  intros W Hs Hne.
  rewrite (latenciesPercentile_walk impl h _ W) by lia.
  pose proof (samples_nonneg h W) as H0.
  rewrite percentile_rank_100 by lia.
  pose proof (sort_keys_perm (map fst h)) as P.
  pose proof (sort_keys_sorted (map fst h)) as S.
  pose proof (sumGet_sorted h W) as Hall.
  set (L := sort_keys (map fst h)) in *.
  destruct (walk_split h (samples h) L 0 W) as (A & B & E & _ & Hge);
    [lia | lia | apply sorted_nonempty; exact Hne | lia |].
  set (r := percentile_walk h (samples h) 0 L) in *.
  assert (EB : B = []).
  { destruct B as [|b B]; [reflexivity|]. exfalso.
    assert (Ib : In b (map fst h)).
    { apply (Permutation_in _ P). rewrite E. apply in_or_app. right.
      right. left. reflexivity. }
    pose proof (key_Get_pos h b W Ib) as Hb.
    pose proof (sumGet_nonneg h B W) as HB.
    replace (A ++ r :: b :: B) with ((A ++ [r]) ++ b :: B) in E
      by (rewrite <- app_assoc; reflexivity).
    rewrite E, sumGet_app in Hall.
    unfold sumGet at 2 in Hall. simpl in Hall. fold (sumGet h B) in Hall.
    lia. }
  subst B. split.
  - apply (Permutation_in _ P). rewrite E. apply in_elt.
  - intros k Ik. apply (Permutation_in _ (Permutation_sym P)) in Ik.
    rewrite E in Ik, S. apply in_app_or in Ik. destruct Ik as [Ik|[->|[]]]; [|lia].
    apply StronglySorted_app in S. destruct S as (Hle & _ & _).
    apply (Hle k r); [apply list_elem_of_In; exact Ik | left].
Qed.

Lemma latenciesPercentile_p100_witness :
  In (latenciesPercentile 0 hist3 (FFin 100)) (map fst hist3) /\
  forall k, In k (map fst hist3) -> k <= latenciesPercentile 0 hist3 (FFin 100).
Proof.
  apply (latenciesPercentile_p100 0 hist3).
  - split.
    + apply (bool_decide_unpack _). vm_compute. exact I.
    + repeat constructor; simpl; lia.
  - vm_compute. reflexivity.
  - discriminate.
Defined.

End PercentileEdges.

(** ** The latency distribution *)

Section Distribution.

Lemma walk_rank_le (impl : Z) (h : uhist) (p1 p2 : Q) :
  wf h -> samples h < 2 ^ 52 ->
  (0 <= p1)%Q -> (p1 <= p2)%Q -> (p2 <= 100)%Q ->
  percentile_walk h (percentile_rank impl (FFin p1) (samples h)) 0
    (sort_keys (map fst h))
  <= percentile_walk h (percentile_rank impl (FFin p2) (samples h)) 0
       (sort_keys (map fst h)).
Proof.
  intros W Hs H0 H12 H100.
  pose proof (samples_nonneg h W) as Hn.
  destruct (percentile_rank_bounds impl p1 p2 (samples h)) as [[_ R12] R2];
    [exact H0 | exact H12 | exact H100 | lia |].
  pose proof (sumGet_sorted h W) as Hall.
  apply walk_mono; try assumption; try lia.
  - apply sort_keys_sorted.
  - apply Forall_forall. intros k Hk.
    rewrite (sort_keys_perm (map fst h)) in Hk.
    apply list_elem_of_fmap in Hk. destruct Hk as (e & -> & He).
    destruct W as [_ F]. rewrite Forall_forall in F. specialize (F e He). lia.
Qed.

(** X5: [printLatencyStats] prints the heading and four lines: the
    results of [latenciesPercentile] on [b.latencies] for 50, 75, 90 and
    99, in this order and each under its own label; for fewer than [2^52]
    samples these latencies do not decrease from one line to the next. *)
Theorem printLatencyStats_ascending (fm : formatters) (b : bombardier)
    (impl : Z) :
  wf (latencies b) -> samples (latencies b) < 2 ^ 52 ->
  printLatencyStats fm b impl
  = ["  Latency Distribution"%string;
     latencyRow fm "50" (latenciesPercentile impl (latencies b) (FFin 50));
     latencyRow fm "75" (latenciesPercentile impl (latencies b) (FFin 75));
     latencyRow fm "90" (latenciesPercentile impl (latencies b) (FFin 90));
     latencyRow fm "99" (latenciesPercentile impl (latencies b) (FFin 99))] /\
  latenciesPercentile impl (latencies b) (FFin 50)
  <= latenciesPercentile impl (latencies b) (FFin 75) /\
  latenciesPercentile impl (latencies b) (FFin 75)
  <= latenciesPercentile impl (latencies b) (FFin 90) /\
  latenciesPercentile impl (latencies b) (FFin 90)
  <= latenciesPercentile impl (latencies b) (FFin 99).
Proof.
  intros W Hs. split; [reflexivity|].
  rewrite !(latenciesPercentile_walk impl (latencies b)) by (try exact W; lia).
  split; [|split]; apply walk_rank_le; try assumption;
    first [reflexivity | vm_compute; discriminate].
Qed.

Lemma printLatencyStats_ascending_witness :
  printLatencyStats formatters0
    (set_latencies hist3
       (constructed (config0 1 (Some 3) None EmptyString)
          (newCountingCompletionBarrier 3) ok200)) 0
  = ["  Latency Distribution"%string;
     latencyRow formatters0 "50" (latenciesPercentile 0 hist3 (FFin 50));
     latencyRow formatters0 "75" (latenciesPercentile 0 hist3 (FFin 75));
     latencyRow formatters0 "90" (latenciesPercentile 0 hist3 (FFin 90));
     latencyRow formatters0 "99" (latenciesPercentile 0 hist3 (FFin 99))] /\
  latenciesPercentile 0 hist3 (FFin 50) <= latenciesPercentile 0 hist3 (FFin 75) /\
  latenciesPercentile 0 hist3 (FFin 75) <= latenciesPercentile 0 hist3 (FFin 90) /\
  latenciesPercentile 0 hist3 (FFin 90) <= latenciesPercentile 0 hist3 (FFin 99).
Proof.
  apply (printLatencyStats_ascending formatters0
           (set_latencies hist3
              (constructed (config0 1 (Some 3) None EmptyString)
                 (newCountingCompletionBarrier 3) ok200)) 0).
  - split.
    + apply (bool_decide_unpack _). vm_compute. exact I.
    + repeat constructor; simpl; lia.
  - vm_compute. reflexivity.
Defined.

End Distribution.

(** ** The figures of the statistics lines *)

Section FiguresMore.

Lemma wrap64_add_l a b : wrap64 (wrap64 a + b) = wrap64 (a + b).
Proof. unfold wrap64. apply Zplus_mod_idemp_l. Qed.

Lemma wrap64_add_r a b : wrap64 (a + wrap64 b) = wrap64 (a + b).
Proof. unfold wrap64. apply Zplus_mod_idemp_r. Qed.

Lemma maxKey_nonneg h : 0 <= maxKey h.
Proof. unfold maxKey. induction h as [|[k v] t IH]; simpl; lia. Qed.

(** The first pass of [latenciesString] over the histogram. *)
Lemma latencies_first_pass (h : uhist) (s c m : Z) :
  0 <= m ->
  VisitAll h (fun '(sum, count, max) f c =>
      let max := if max <? f then f else max in
      (wrap64 (sum + wrap64 (f * c)), wrap64 (count + c), max))
    (wrap64 s, wrap64 c, m)
  = (wrap64 (s + weightedSum h), wrap64 (c + samples h), Z.max m (maxKey h)).
Proof.
  unfold VisitAll. revert s c m.
  induction h as [|[k v] t IH]; intros s c m Hm.
  - unfold weightedSum, samples, maxKey. cbn [fold_left map fold_right sumZ].
    rewrite !Z.add_0_r, Z.max_l by lia. reflexivity.
  - cbn [fold_left fst snd].
    rewrite wrap64_add_r, !wrap64_add_l.
    rewrite (IH (s + k * v) (c + v)
               (if m <? k then k else m)).
    + pose proof (maxKey_nonneg t).
      unfold weightedSum, samples, maxKey. cbn [map fold_right sumZ fst snd].
      fold (maxKey t). unfold sumZ. rewrite !Z.add_assoc. f_equal.
      destruct (Z.ltb_spec m k); lia.
    + destruct (Z.ltb_spec m k); lia.
Qed.

(** X6: the mean of the latency line is the sum of all recorded latencies
    divided by the number of samples plus one, both in [uint64], and the
    maximum is the largest key, 0 for the empty histogram. *)
Theorem latenciesFigures_mean_max (h : uhist) :
  fig_mean (latenciesFigures h)
  = fdiv (of_int (wrap64 (weightedSum h))) (of_int (wrap64 (1 + samples h)))
  /\ fig_max (latenciesFigures h) = of_int (maxKey h).
Proof.
  unfold latenciesFigures.
  change (0, 1, 0) with (wrap64 0, wrap64 1, 0).
  rewrite latencies_first_pass by lia.
  pose proof (maxKey_nonneg h).
  rewrite Z.max_r by lia. simpl. split; reflexivity.
Qed.

Lemma round64_nonnegative x : (0 <= x)%Q -> nonnegative (round64 x).
Proof.
  intros Hx. unfold round64. destruct (x ?= 0)%Q eqn:C.
  - simpl. lra.
  - rewrite <- Qlt_alt in C. lra.
  - unfold pack. destruct (Qle_bool (pow2 1024) (round_pos x)); simpl.
    + reflexivity.
    + rewrite Qred_correct. apply round_pos_nonneg. exact Hx.
Qed.

Lemma round64_number x : round64 x <> FNaN.
Proof.
  unfold round64, pack. destruct (x ?= 0)%Q; [discriminate| |].
  - destruct (Qle_bool _ _); discriminate.
  - destruct (Qle_bool _ _); discriminate.
Qed.

Lemma fadd_nonnegative a b :
  nonnegative a -> nonnegative b -> nonnegative (fadd a b).
Proof.
  destruct a as [x|s|], b as [y|t|]; simpl; try contradiction; intros Ha Hb.
  - apply round64_nonnegative. lra.
  - exact Hb.
  - exact Ha.
  - subst. reflexivity.
Qed.

Lemma Pow2_nonnegative a : a <> FNaN -> nonnegative (Pow2 a).
Proof.
  destruct a as [x|s|]; simpl; intros Ha.
  - apply round64_nonnegative. nra.
  - destruct s; reflexivity.
  - contradiction.
Qed.

Lemma Qzero_pos y : (0 < y)%Q -> Qzero y = false.
Proof.
  intros Hy. unfold Qzero. destruct (y ?= 0)%Q eqn:C; try reflexivity.
  rewrite <- Qeq_alt in C. lra.
Qed.

Lemma Qneg_pos y : (0 < y)%Q -> Qneg y = false.
Proof.
  intros Hy. unfold Qneg. destruct (y ?= 0)%Q eqn:C; try reflexivity.
  rewrite <- Qlt_alt in C. lra.
Qed.

Lemma fdiv_nonnegative a y :
  nonnegative a -> (0 < y)%Q -> nonnegative (fdiv a (FFin y)).
Proof.
  destruct a as [x|s|]; simpl; try contradiction; intros Ha Hy.
  - rewrite (Qzero_pos y Hy). apply round64_nonnegative.
    apply Qle_shift_div_l; [exact Hy | lra].
  - subst. rewrite (Qneg_pos y Hy). reflexivity.
Qed.

Lemma fsqrt_nonnegative a : nonnegative a -> nonnegative (fsqrt a).
Proof.
  destruct a as [x|s|]; simpl; try contradiction; intros Ha.
  - destruct (x ?= 0)%Q eqn:C.
    + simpl. lra.
    + rewrite <- Qlt_alt in C. lra.
    + unfold pack. destruct (Qle_bool _ _); [reflexivity|]. simpl.
      rewrite Qred_correct. unfold sqrt_pos.
      set (f := Z.sqrt _). set (c := fexp _).
      assert (Hf : 0 <= f) by apply Z.sqrt_nonneg.
      clearbody f c. clear C.
      apply Qmult_le_0_compat; [|apply Qlt_le_weak, pow2_pos].
      change 0%Q with (inject_Z 0). rewrite <- Zle_Qle.
      destruct (_ ?= _)%Q; [destruct (Z.even f)| |]; lia.
  - subst. reflexivity.
Qed.

Lemma of_int_positive n :
  1 <= n < 2 ^ 64 -> exists y, of_int n = FFin y /\ (0 < y)%Q.
Proof.
  intros Hn. destruct (of_int_finite n) as (y & E & _); [lia|].
  unfold of_int in *.
  destruct (round64_mono_fin (inject_Z 1) (inject_Z n) y) as (a & Ea & _ & Hay).
  - change 0%Q with (inject_Z 0). rewrite <- Zle_Qle. lia.
  - rewrite <- Zle_Qle. lia.
  - exact E.
  - exists y. split; [exact E|].
    assert (E1 : round64 (inject_Z 1) = FFin 1) by (vm_compute; reflexivity).
    rewrite E1 in Ea. inversion Ea; subst. lra.
Qed.

Lemma fsub_number n m :
  0 <= n < 2 ^ 64 -> nonnegative m -> fsub (of_int n) m <> FNaN.
Proof.
  intros Hn Hm. destruct (of_int_finite n Hn) as (y & -> & _).
  destruct m as [x|s|]; simpl in *; try contradiction.
  - apply round64_number.
  - subst. discriminate.
Qed.

(** The second pass of [latenciesString] over the histogram. *)
Lemma latencies_second_pass (h : uhist) (mean acc : float64) :
  wf h -> nonnegative mean -> nonnegative acc ->
  nonnegative
    (VisitAll h (fun sumOfSquares f c =>
                   fadd sumOfSquares (Pow2 (fsub (of_int f) mean))) acc).
Proof.
  unfold VisitAll. revert acc.
  induction h as [|[k v] t IH]; intros acc W Hm Hacc; simpl.
  - exact Hacc.
  - apply IH; [apply (wf_cons _ _ W) | exact Hm |].
    apply fadd_nonnegative; [exact Hacc|]. apply Pow2_nonnegative.
    apply fsub_number; [|exact Hm].
    destruct W as [_ F]. inversion F; subst. simpl in *. lia.
Qed.

(** X7: for a histogram of fewer than [2^64 - 1] samples, the mean and the
    standard deviation of the latency line are numbers at least 0 or plus
    infinity, never NaN and never negative. *)
Theorem latenciesFigures_nonnegative (h : uhist) :
  wf h -> samples h + 1 < 2 ^ 64 ->
  nonnegative (fig_mean (latenciesFigures h)) /\
  nonnegative (fig_stddev (latenciesFigures h)).
Proof.
  intros W Hs. pose proof (samples_nonneg h W) as H0.
  unfold latenciesFigures.
  change (0, 1, 0) with (wrap64 0, wrap64 1, 0).
  rewrite latencies_first_pass by lia. cbn [fig_mean fig_stddev].
  rewrite (wrap64_small (1 + samples h)) by lia.
  destruct (of_int_positive (1 + samples h)) as (n & -> & Hn); [lia|].
  destruct (of_int_finite (wrap64 (0 + weightedSum h))) as (s & -> & Hsum).
  { unfold wrap64. apply Z.mod_pos_bound. lia. }
  assert (Hmean : nonnegative (fdiv (FFin s) (FFin n))).
  { apply fdiv_nonnegative; [exact Hsum | exact Hn]. }
  split; [exact Hmean|].
  apply fsqrt_nonnegative, fdiv_nonnegative; [|exact Hn].
  apply latencies_second_pass; [exact W | exact Hmean | simpl; lra].
Qed.

Lemma latenciesFigures_nonnegative_witness :
  nonnegative (fig_mean (latenciesFigures hist3)) /\
  nonnegative (fig_stddev (latenciesFigures hist3)).
Proof.
  apply (latenciesFigures_nonnegative hist3).
  - split.
    + apply (bool_decide_unpack _). vm_compute. exact I.
    + repeat constructor; simpl; lia.
  - vm_compute. reflexivity.
Defined.

(** The passes of [rpsString] skip the entries that are not finite. *)
Lemma VisitAll_finite {A : Type} (fn : A -> float64 -> Z -> A) (h : fhist)
    (a : A) :
  (forall acc f c, nonfinite f = true -> fn acc f c = acc) ->
  VisitAll h fn a = VisitAll (finiteEntries h) fn a.
Proof.
  intros Hfn. unfold VisitAll, finiteEntries. revert a.
  induction h as [|[k v] t IH]; intros a; simpl; [reflexivity|].
  destruct (nonfinite k) eqn:E; simpl.
  - rewrite (Hfn _ _ _ E). apply IH.
  - apply IH.
Qed.

(** X8: [rpsString] leaves the samples that are infinite or NaN out of all
    its figures: they are the figures of the histogram without them. *)
Theorem rpsFigures_finite (h : fhist) :
  rpsFigures h = rpsFigures (finiteEntries h).
Proof.
  unfold rpsFigures.
  rewrite (VisitAll_finite _ h (FFin 0, 1, FFin 0)).
  2:{ intros [[s c] m] f n E. rewrite E. reflexivity. }
  destruct (VisitAll (finiteEntries h) _ (FFin 0, 1, FFin 0)) as [[s c] m].
  rewrite (VisitAll_finite _ h (FFin 0)).
  2:{ intros acc f n E. rewrite E. reflexivity. }
  reflexivity.
Qed.

Lemma fdiv_zero_nonfinite n :
  nonfinite (fdiv (of_int n) (FFin 0)) = true.
Proof.
  unfold of_int, round64, pack.
  destruct (inject_Z n ?= 0)%Q.
  - reflexivity.
  - destruct (Qle_bool _ _); simpl; [reflexivity|].
    destruct (Qzero _); reflexivity.
  - destruct (Qle_bool _ _); simpl; [reflexivity|].
    destruct (Qzero _); reflexivity.
Qed.





(** X10: when the time taken is 0, the throughput that [printStats] formats
    is an infinity or NaN. *)
Theorem throughput_zero_time (b : bombardier) :
  timeTaken b = 0 -> nonfinite (throughputFigure b) = true.
Proof.
  intros E. unfold throughputFigure. rewrite E.
  change (Seconds 0) with (FFin 0). apply fdiv_zero_nonfinite.
Qed.

Lemma throughput_zero_time_witness :
  nonfinite (throughputFigure
               (constructed (config0 1 (Some 3) None EmptyString)
                  (newCountingCompletionBarrier 3) ok200)) = true.
Proof.
  apply (throughput_zero_time
           (constructed (config0 1 (Some 3) None EmptyString)
              (newCountingCompletionBarrier 3) ok200)).
  reflexivity.
Defined.

(** The maximum that the first pass of [rpsString] keeps. *)
Lemma rps_first_pass_max (h : fhist) (s : float64) (c : Z) (m : Q) :
  exists s' c' q,
    VisitAll h (fun '(sum, count, max) f c =>
      if nonfinite f then (sum, count, max)
      else
        let max := if fgt f max then f else max in
        (fadd sum (fmul f (of_int c)), wrap64 (count + c), max))
      (s, c, FFin m)
    = (s', c', FFin q) /\
    (m <= q)%Q /\
    (forall x n, In (FFin x, n) h -> (x <= q)%Q) /\
    (q = m \/ exists n, In (FFin q, n) h).
Proof.
  unfold VisitAll. revert s c m.
  induction h as [|[k v] t IH]; intros s c m.
  - exists s, c, m. simpl. split; [reflexivity|]. split; [lra|].
    split; [intros x n []|left; reflexivity].
  - cbn [fold_left fst snd]. destruct k as [x|sg|].
    + cbn [nonfinite IsInf IsNaN orb fgt].
      destruct (x ?= m)%Q eqn:C.
      * destruct (IH (fadd s (fmul (FFin x) (of_int v))) (wrap64 (c + v)) m)
          as (s' & c' & q & E & Hm & Hall & Hq).
        exists s', c', q. split; [exact E|]. split; [exact Hm|].
        rewrite <- Qeq_alt in C. split.
        -- intros y n [Ey|I]; [inversion Ey; subst; lra | apply (Hall y n I)].
        -- destruct Hq as [->|(n & I)]; [left; reflexivity|].
           right. exists n. right. exact I.
      * destruct (IH (fadd s (fmul (FFin x) (of_int v))) (wrap64 (c + v)) m)
          as (s' & c' & q & E & Hm & Hall & Hq).
        exists s', c', q. split; [exact E|]. split; [exact Hm|].
        rewrite <- Qlt_alt in C. split.
        -- intros y n [Ey|I]; [inversion Ey; subst; lra | apply (Hall y n I)].
        -- destruct Hq as [->|(n & I)]; [left; reflexivity|].
           right. exists n. right. exact I.
      * destruct (IH (fadd s (fmul (FFin x) (of_int v))) (wrap64 (c + v)) x)
          as (s' & c' & q & E & Hm & Hall & Hq).
        exists s', c', q. split; [exact E|].
        rewrite <- Qgt_alt in C. split; [lra|]. split.
        -- intros y n [Ey|I]; [inversion Ey; subst; lra | apply (Hall y n I)].
        -- right. destruct Hq as [->|(n & I)].
           ++ exists v. left. reflexivity.
           ++ exists n. right. exact I.
    + cbn [nonfinite IsInf IsNaN orb].
      destruct (IH s c m) as (s' & c' & q & E & Hm & Hall & Hq).
      exists s', c', q. split; [exact E|]. split; [exact Hm|]. split.
      * intros y n [Ey|I]; [discriminate | apply (Hall y n I)].
      * destruct Hq as [->|(n & I)]; [left; reflexivity|].
        right. exists n. right. exact I.
    + cbn [nonfinite IsInf IsNaN orb].
      destruct (IH s c m) as (s' & c' & q & E & Hm & Hall & Hq).
      exists s', c', q. split; [exact E|]. split; [exact Hm|]. split.
      * intros y n [Ey|I]; [discriminate | apply (Hall y n I)].
      * destruct Hq as [->|(n & I)]; [left; reflexivity|].
        right. exists n. right. exact I.
Qed.

(** X11: the maximum of the RPS line is a finite number: 0, or a finite
    sample above 0; no finite sample exceeds it, and infinite, NaN and
    negative samples never show in it. *)
Theorem rpsFigures_max (h : fhist) :
  exists q,
    fig_max (rpsFigures h) = FFin q /\ (0 <= q)%Q /\
    (forall x n, In (FFin x, n) h -> (x <= q)%Q) /\
    (q = 0%Q \/ exists n, In (FFin q, n) h).
Proof.
  destruct (rps_first_pass_max h (FFin 0) 1 0)
    as (s' & c' & q & E & Hm & Hall & Hq).
  exists q. split; [|repeat split; assumption].
  unfold rpsFigures.
  match goal with
  | |- context [VisitAll h ?f (FFin 0, 1, FFin 0)] =>
      replace (VisitAll h f (FFin 0, 1, FFin 0)) with (s', c', FFin q)
        by (symmetry; exact E)
  end.
  reflexivity.
Qed.

End FiguresMore.

(** ** Construction: the certificate file and the request body *)

Section ConstructionMore.

Lemma pemBlocks_last (w : world) (n : nat) (data pkeyPem certPem : bytes) :
  pemBlocks w n data pkeyPem certPem
  = (lastEncoded w "PRIVATE KEY" (decodeAll w n data) pkeyPem,
     lastEncoded w "CERTIFICATE" (decodeAll w n data) certPem).
Proof.
  revert data pkeyPem certPem.
  induction n as [|n IH]; intros data pkeyPem certPem; simpl.
  - reflexivity.
  - destruct (pemDecode w data) as [[block rest]|]; simpl.
    + apply IH.
    + reflexivity.
Qed.

(** When [pem.Decode] consumes its input, the loop ends because no block is
    left: more turns find the same blocks. *)
Lemma decodeAll_turns (w : world) (n m : nat) (data : bytes) :
  consuming w -> (length data < n)%nat -> (length data < m)%nat ->
  decodeAll w n data = decodeAll w m data.
Proof.
  intros Hc. revert m data.
  induction n as [|n IH]; intros m data Hn Hm; [lia|].
  destruct m as [|m]; [lia|]. simpl.
  destruct (pemDecode w data) as [[block rest]|] eqn:E; [|reflexivity].
  pose proof (Hc data block rest E). f_equal. apply IH; lia.
Qed.

(** X12: of a certificate file that can be read, [readClientCert] hands to
    [tlsX509KeyPair] the last block whose type ends in CERTIFICATE and the
    last block whose type ends in PRIVATE KEY (nil where there is none),
    whatever other blocks the file holds; it returns the one certificate
    made of them, or stops the process when they do not make one. *)
Theorem readClientCert_last_blocks (w : world) (filename : string)
    (data : bytes) (n : nat) (l : list string) :
  consuming w -> filename <> EmptyString ->
  ioutilReadFile w filename = inl data -> (length data < n)%nat ->
  readClientCert w filename l
  = (match tlsX509KeyPair w
             (lastEncoded w "CERTIFICATE" (decodeAll w n data) [])
             (lastEncoded w "PRIVATE KEY" (decodeAll w n data) []) with
     | inl cert => Ret [cert]
     | inr e => Fatal ("unable to load client cert and key pair: " +:+ e)
     end, l ++ [filename]).
Proof.
  intros Hc Hne Hr Hn. unfold readClientCert.
  apply String.eqb_neq in Hne. rewrite Hne.
  unfold io_bind, ReadFile. rewrite Hr. unfold io_ret at 1.
  rewrite pemBlocks_last.
  rewrite (decodeAll_turns w (S (length data)) n data Hc) by lia.
  destruct (tlsX509KeyPair w _ _); reflexivity.
Qed.

Lemma readClientCert_last_blocks_witness :
  readClientCert chain_world "client.pem" []
  = (Ret [mkCertificate [Byte.x62] [Byte.x6b]], ["client.pem"%string]).
Proof.
  apply (readClientCert_last_blocks chain_world "client.pem"
           [Byte.x61; Byte.x6b; Byte.x62] 4 []).
  - intros data block rest H. destruct data; simpl in H; [discriminate|].
    inversion H; subst. simpl. lia.
  - discriminate.
  - reflexivity.
  - simpl. lia.
Defined.

Lemma readClientCert_files (w : world) (filename : string) (l : list string) :
  snd (readClientCert w filename l)
  = if String.eqb filename EmptyString then l else l ++ [filename].
Proof.
  unfold readClientCert. destruct (String.eqb filename EmptyString).
  - reflexivity.
  - unfold io_bind, ReadFile.
    destruct (ioutilReadFile w filename) as [data|e]; [|reflexivity].
    unfold io_ret at 1.
    destruct (pemBlocks w _ data [] []) as [pkeyPem certPem].
    destruct (tlsX509KeyPair w certPem pkeyPem); reflexivity.
Qed.

Lemma generateTLSConfig_cases (w : world) (c : config) (l : list string) :
  (exists certs,
     generateTLSConfig w c l = (Ret (mkTLSConfig (insecure c) certs),
                                snd (readClientCert w (clientCert c) l))) \/
  (exists msg,
     generateTLSConfig w c l = (Fatal msg,
                                snd (readClientCert w (clientCert c) l))).
Proof.
  unfold generateTLSConfig, io_bind.
  destruct (readClientCert w (clientCert c) l) as [[certs|msg|msg] l'] eqn:E.
  - left. exists certs. reflexivity.
  - right. exists msg. reflexivity.
  - exfalso. unfold readClientCert in E.
    destruct (String.eqb (clientCert c) EmptyString); [discriminate|].
    unfold io_bind, ReadFile in E.
    destruct (ioutilReadFile w (clientCert c)) as [data|e]; [|discriminate].
    unfold io_ret at 1 in E.
    destruct (pemBlocks w _ data [] []) as [pkeyPem certPem].
    destruct (tlsX509KeyPair w certPem pkeyPem); discriminate.
Qed.

(** The ways in which [newBombardier] ends. *)
Lemma newBombardier_cases (w : world) (now : Z) (c : config) (l : list string) :
  let l1 := snd (readClientCert w (clientCert c) l) in
  (exists e, checkArgs w c = Some e /\
             newBombardier w now c l = (Ret (inr e), l))
  \/ (checkArgs w c = None /\ testType c = none /\
      exists msg, newBombardier w now c l = (Panic msg, l))
  \/ (checkArgs w c = None /\ testType c <> none /\
      exists msg, newBombardier w now c l = (Fatal msg, l1))
  \/ (checkArgs w c = None /\ testType c <> none /\
      stream c = false /\ bodyFilePath c <> EmptyString /\
      exists e, ioutilReadFile w (bodyFilePath c) = inr e /\
                newBombardier w now c l
                = (Ret (inr e), l1 ++ [bodyFilePath c]))
  \/ (checkArgs w c = None /\ testType c <> none /\
      exists bar certs pbody bsp l',
        newBombardier w now c l
        = (Ret (inl (constructed c bar
                       (makeHTTPClient w (clientType c)
                          (optionsOf c certs pbody bsp)))), l') /\
        ((stream c = true /\ pbody = None /\ l' = l1 /\
          bsp = Some (if String.eqb (bodyFilePath c) EmptyString
                      then readString (body c)
                      else openFile (bodyFilePath c)))
         \/ (stream c = false /\ bodyFilePath c = EmptyString /\
             pbody = Some (body c) /\ bsp = None /\ l' = l1)
         \/ (stream c = false /\ bodyFilePath c <> EmptyString /\
             bsp = None /\ l' = l1 ++ [bodyFilePath c] /\
             exists data,
               ioutilReadFile w (bodyFilePath c) = inl data /\
               pbody = Some (String.string_of_list_byte data)))).
Proof.
  intros l1. unfold newBombardier, newBombardier_from.
  destruct (checkArgs w c) as [e|] eqn:Ec.
  { left. exists e. split; reflexivity. }
  right.
  assert (Work : forall bar0 : completionBarrier,
            testType c <> none ->
            let m :=
              (r <~ generateTLSConfig_call w c ;;
               match r with
               | inr err => io_ret (inr err)
               | inl tlsConfig =>
                   body <~
                     (if stream c then
                        io_ret (inl (None,
                                     Some (if String.eqb (bodyFilePath c) EmptyString
                                           then readString (body c)
                                           else openFile (bodyFilePath c))))
                      else if String.eqb (bodyFilePath c) EmptyString then
                        io_ret (inl (Some (body c), None))
                      else
                        r <~ ReadFile w (bodyFilePath c) ;;
                        io_ret match r with
                               | inl data =>
                                   inl (Some (String.string_of_list_byte data), None)
                               | inr e => inr e
                               end) ;;
                   match body with
                   | inr e => io_ret (inr e)
                   | inl (pbody, bsp) =>
                       let cc := mkClientOpts false (numConns c) (timeout c)
                                   tlsConfig (headers c) (url c) (method c)
                                   pbody bsp in
                       io_ret (inl (constructed c bar0
                                      (makeHTTPClient w (clientType c) cc)))
                   end
               end) in
            (exists msg, m l = (Fatal msg, l1))
            \/ (stream c = false /\ bodyFilePath c <> EmptyString /\
                exists e, ioutilReadFile w (bodyFilePath c) = inr e /\
                          m l = (Ret (inr e), l1 ++ [bodyFilePath c]))
            \/ (exists bar certs pbody bsp l',
                  m l = (Ret (inl (constructed c bar
                                     (makeHTTPClient w (clientType c)
                                        (optionsOf c certs pbody bsp)))), l') /\
                  ((stream c = true /\ pbody = None /\ l' = l1 /\
                    bsp = Some (if String.eqb (bodyFilePath c) EmptyString
                                then readString (body c)
                                else openFile (bodyFilePath c)))
                   \/ (stream c = false /\ bodyFilePath c = EmptyString /\
                       pbody = Some (body c) /\ bsp = None /\ l' = l1)
                   \/ (stream c = false /\ bodyFilePath c <> EmptyString /\
                       bsp = None /\ l' = l1 ++ [bodyFilePath c] /\
                       exists data,
                         ioutilReadFile w (bodyFilePath c) = inl data /\
                         pbody = Some (String.string_of_list_byte data))))).
  { intros bar0 HT m. subst m.
    unfold generateTLSConfig_call, io_bind, io_ret, ReadFile.
    destruct (generateTLSConfig_cases w c l) as [(certs & G)|(msg & G)];
      rewrite G; fold l1; [|left; exists msg; reflexivity].
    right.
    destruct (stream c) eqn:Es.
    - right.
      eexists bar0, certs, None, _, l1. split; [reflexivity|].
      left. repeat split; reflexivity.
    - destruct (String.eqb (bodyFilePath c) EmptyString) eqn:Eb.
      + right. apply String.eqb_eq in Eb.
        eexists bar0, certs, (Some (body c)), None, l1.
        split; [reflexivity|]. right; left. repeat split; try reflexivity.
        exact Eb.
      + apply String.eqb_neq in Eb.
        destruct (ioutilReadFile w (bodyFilePath c)) as [data|e] eqn:Er.
        * right.
          eexists bar0, certs, (Some (String.string_of_list_byte data)), None, _.
          split; [reflexivity|]. right; right.
          repeat split; try reflexivity; try exact Eb.
          exists data. split; reflexivity.
        * left. repeat split; try exact Eb. exists e. split; reflexivity. }
  unfold testType in *.
  destruct (numReqs c) as [R|] eqn:En; [|destruct (duration c) as [D|] eqn:Ed].
  - destruct (Work (newCountingCompletionBarrier R) ltac:(discriminate))
      as [H|[H|H]].
    + right; left. repeat split; try discriminate. exact H.
    + right; right; left. destruct H as (H1 & H2 & H3).
      repeat split; try discriminate; assumption.
    + right; right; right. repeat split; try discriminate. exact H.
  - destruct (Work (newTimedCompletionBarrier now D) ltac:(discriminate))
      as [H|[H|H]].
    + right; left. repeat split; try discriminate. exact H.
    + right; right; left. destruct H as (H1 & H2 & H3).
      repeat split; try discriminate; assumption.
    + right; right; right. repeat split; try discriminate. exact H.
  - left. repeat split. eexists. reflexivity.
Qed.

Lemma readable_cert (w : world) (c : config) (l : list string) :
  Forall (readable c l) (snd (readClientCert w (clientCert c) l)).
Proof.
  rewrite readClientCert_files. apply Forall_forall. intros f Hf.
  apply list_elem_of_In in Hf.
  destruct (String.eqb (clientCert c) EmptyString) eqn:E.
  - left. exact Hf.
  - apply String.eqb_neq in E. apply in_app_or in Hf.
    destruct Hf as [Hf|[<-|[]]]; [left; exact Hf|].
    right; left. split; [reflexivity | exact E].
Qed.

(** X13: [newBombardier] reads no file but the client certificate, when one
    is named, and the file of the request body, when one is named and the
    body is not streamed; with [stream] set the body file is not read
    during construction. *)
Theorem newBombardier_files (w : world) (now : Z) (c : config)
    (l : list string) :
  Forall (readable c l) (snd (newBombardier w now c l)).
Proof.
  pose proof (readable_cert w c l) as H1.
  assert (Hl : Forall (readable c l) l).
  { apply Forall_forall. intros f Hf. left. apply list_elem_of_In. exact Hf. }
  destruct (newBombardier_cases w now c l)
    as [(e & _ & ->)|[(_ & _ & msg & ->)|[(_ & _ & msg & ->)|
        [(_ & _ & Hs & Hb & e & _ & ->)|
         (_ & _ & bar & certs & pbody & bsp & l' & -> & H)]]]];
    cbn [snd]; try assumption.
  - apply Forall_app. split; [exact H1|]. apply Forall_singleton.
    right; right. repeat split; assumption.
  - destruct H as [(_ & _ & -> & _)|[(_ & _ & _ & _ & ->)|
                   (Hs & Hb & _ & -> & _)]]; try exact H1.
    apply Forall_app. split; [exact H1|]. apply Forall_singleton.
    right; right. repeat split; assumption.
Qed.

(** X14: [newBombardier] returns an error in three cases only:
    [checkArgs] rejects the configuration, and then no file has been read;
    [generateTLSConfig] has returned the error (lines 91-94); or the body
    is not streamed and the file of the body cannot be read. *)
Theorem newBombardier_errors (gen : config -> io (tlsConfig + string))
    (w : world) (now : Z) (c : config) (l l' : list string) (e : string) :
  newBombardier_from gen w now c l = (Ret (inr e), l') ->
  (checkArgs w c = Some e /\ l' = l) \/
  (checkArgs w c = None /\ gen c l = (Ret (inr e), l')) \/
  (checkArgs w c = None /\ stream c = false /\
   bodyFilePath c <> EmptyString /\
   ioutilReadFile w (bodyFilePath c) = inr e).
Proof.
  unfold newBombardier_from. intros H.
  destruct (checkArgs w c) as [e0|] eqn:Ec.
  { left. inversion H; subst. split; reflexivity. }
  right.
  assert (Work : forall bar0 : completionBarrier,
            (r <~ gen c ;;
             match r with
             | inr err => io_ret (inr err)
             | inl tlsConfig =>
                 body <~
                   (if stream c then
                      io_ret (inl (None,
                                   Some (if String.eqb (bodyFilePath c) EmptyString
                                         then readString (body c)
                                         else openFile (bodyFilePath c))))
                    else if String.eqb (bodyFilePath c) EmptyString then
                      io_ret (inl (Some (body c), None))
                    else
                      r <~ ReadFile w (bodyFilePath c) ;;
                      io_ret match r with
                             | inl data =>
                                 inl (Some (String.string_of_list_byte data), None)
                             | inr e => inr e
                             end) ;;
                 match body with
                 | inr e => io_ret (inr e)
                 | inl (pbody, bsp) =>
                     let cc := mkClientOpts false (numConns c) (timeout c)
                                 tlsConfig (headers c) (url c) (method c)
                                 pbody bsp in
                     io_ret (inl (constructed c bar0
                                    (makeHTTPClient w (clientType c) cc)))
                 end
             end) l = (Ret (inr e), l') ->
            gen c l = (Ret (inr e), l') \/
            (stream c = false /\ bodyFilePath c <> EmptyString /\
             ioutilReadFile w (bodyFilePath c) = inr e)).
  { intros bar0. unfold io_bind, io_ret, ReadFile.
    destruct (gen c l) as [[[cfg|e1]|msg|msg] l1]; try discriminate.
    - destruct (stream c); [discriminate|].
      destruct (String.eqb (bodyFilePath c) EmptyString) eqn:Eb;
        [discriminate|].
      apply String.eqb_neq in Eb.
      destruct (ioutilReadFile w (bodyFilePath c)) as [data|e1];
        [discriminate|].
      intros E. inversion E; subst. right. repeat split; assumption.
    - intros E. inversion E; subst. left. reflexivity. }
  unfold testType in H.
  destruct (numReqs c) as [R|]; [|destruct (duration c) as [D|]].
  - destruct (Work _ H) as [G|G]; [left | right]; split; assumption || reflexivity.
  - destruct (Work _ H) as [G|G]; [left | right]; split; assumption || reflexivity.
  - discriminate.
Qed.

Lemma newBombardier_errors_witness :
  (checkArgs no_files (config_body "body.json" false)
   = Some "open body.json: no such file or directory"%string
   /\ ["body.json"%string] = []) \/
  (checkArgs no_files (config_body "body.json" false) = None /\
   generateTLSConfig_call no_files (config_body "body.json" false) []
   = (Ret (inr "open body.json: no such file or directory"%string),
      ["body.json"%string])) \/
  (checkArgs no_files (config_body "body.json" false) = None /\
   stream (config_body "body.json" false) = false /\
   bodyFilePath (config_body "body.json" false) <> EmptyString /\
   ioutilReadFile no_files (bodyFilePath (config_body "body.json" false))
   = inr "open body.json: no such file or directory"%string).
Proof.
  apply (newBombardier_errors (generateTLSConfig_call no_files) no_files 0
           (config_body "body.json" false) []).
  vm_compute. reflexivity.
Defined.

Lemma makeHTTPClient_clientOf (w : world) (t : clientTyp) (c : config)
    (certs : list certificate) (pbody : option string)
    (bsp : option bodyStreamProducer) :
  makeHTTPClient w t (optionsOf c certs pbody bsp)
  = clientOf w t
      (mkClientOpts (match t with nhttp2 => true | _ => false end)
         (numConns c) (timeout c) (mkTLSConfig (insecure c) certs)
         (headers c) (url c) (method c) pbody bsp).
Proof. destruct t; reflexivity. Qed.

(** X15: the client of the record that [newBombardier] returns is built by
    [newFastHTTPClient] for [fhttp] and by [newHTTPClient] otherwise, from
    options that set [HTTP2] for [nhttp2] only, take the connections, the
    timeout, the headers, the URL and the method from the configuration,
    and carry either a body or a body producer: the producer when the body
    is streamed, else the body, which is the content of the body file
    whenever one is named. *)
Theorem newBombardier_client (w : world) (now : Z) (c : config)
    (l l' : list string) (b : bombardier) :
  newBombardier w now c l = (Ret (inl b), l') ->
  exists certs pbody bsp,
    client b
    = clientOf w (clientType c)
        (mkClientOpts (match clientType c with nhttp2 => true | _ => false end)
           (numConns c) (timeout c) (mkTLSConfig (insecure c) certs)
           (headers c) (url c) (method c) pbody bsp) /\
    (stream c = true ->
     pbody = None /\
     bsp = Some (if String.eqb (bodyFilePath c) EmptyString
                 then readString (body c) else openFile (bodyFilePath c))) /\
    (stream c = false ->
     bsp = None /\
     (bodyFilePath c = EmptyString -> pbody = Some (body c)) /\
     (forall data,
        bodyFilePath c <> EmptyString ->
        ioutilReadFile w (bodyFilePath c) = inl data ->
        pbody = Some (String.string_of_list_byte data))).
Proof.
  intros H.
  destruct (newBombardier_cases w now c l)
    as [(e0 & Hc & E)|[(_ & _ & msg & E)|[(_ & _ & msg & E)|
        [(Hc & _ & Hs & Hb & e0 & Hr & E)|
         (_ & _ & bar & certs & pbody & bsp & l0 & E & Hbody)]]]];
    rewrite E in H; inversion H; subst.
  exists certs, pbody, bsp. split.
  { cbn [client constructed]. apply makeHTTPClient_clientOf. }
  destruct Hbody as [(Hs & -> & _ & ->)|[(Hs & Hb & -> & -> & _)|
                     (Hs & Hb & -> & _ & data & Hr & ->)]].
  - split; [intros _; split; reflexivity | congruence].
  - split; [congruence|]. intros _. split; [reflexivity|].
    split; [reflexivity | congruence].
  - split; [congruence|]. intros _. split; [reflexivity|].
    split; [congruence|]. intros d _ Hd. congruence.
Qed.

Lemma newBombardier_client_witness :
  exists certs pbody bsp,
    client (constructed (config_body "body.json" true)
              (newCountingCompletionBarrier 3) ok200)
    = clientOf no_files nhttp2
        (mkClientOpts true 2 2000000000 (mkTLSConfig false certs) []
           "http://localhost" "POST" pbody bsp) /\
    (true = true ->
     pbody = None /\ bsp = Some (openFile "body.json")) /\
    (true = false ->
     bsp = None /\
     ("body.json"%string = EmptyString -> pbody = Some "inline"%string) /\
     (forall data,
        "body.json"%string <> EmptyString ->
        ioutilReadFile no_files "body.json" = inl data ->
        pbody = Some (String.string_of_list_byte data))).
Proof.
  apply (newBombardier_client no_files 0 (config_body "body.json" true) [] []).
  vm_compute. reflexivity.
Defined.

End ConstructionMore.

(** ** The books of a bombardment, once the workers have left *)

Section Books.

Lemma drained_app l1 l2 : drained (l1 ++ l2) = drained l1 + drained l2.
Proof.
  induction l1 as [|e l1 IH]; simpl; [reflexivity|].
  destruct e; rewrite ?IH; lia.
Qed.

Ltac books :=
  right; right; split; [intros []; reflexivity|];
  cbn; rewrite ?drained_app; cbn; rewrite ?Z.add_0_r; repeat split.

(** Only a request and a sample of the rate meter touch the books. *)
Lemma Step_books s s' :
  Step s s' ->
  sb s' = performSingleRequest (sb s) \/
  (exists t, sb s' = recordRps t (sb s)) \/
  same_books (sb s) (sb s').
Proof.
  intros HS.
  destruct HS as [i pc pc' b' E M|pc' b' M|pc' b' M| | | | | | | | | ];
    cbn [sb].
  - destruct M; try (left; reflexivity); books.
  - destruct M; try (right; left; eexists; reflexivity); books.
  - destruct M; books.
  - books.
  - books.
  - books.
  - books.
  - books.
  - books.
  - books.
  - books.
  - books.
Qed.

Lemma performSingleRequest_books b :
  let r := client b (calls b) in
  let b' := performSingleRequest b in
  calls b' = S (calls b) /\
  latencies b' = Increment (latencies b) (msTaken r) /\
  reqs b' = wrapi64 (reqs b + 1) /\
  drained (trace b') = drained (trace b) /\
  counter (counterOf (code r)) b'
  = wrap64 (counter (counterOf (code r)) b + 1) /\
  forall k, k <> counterOf (code r) -> counter k b' = counter k b.
Proof.
  intros r b'. subst b'. unfold performSingleRequest, client_do.
  fold r. unfold writeStatistics, AddUint64.
  destruct (err r); destruct (counterOf (code r)); cbn;
    rewrite ?drained_app; cbn; rewrite ?Z.add_0_r;
    (repeat split; try reflexivity; intros [] N; try congruence; reflexivity).
Qed.

Lemma statusTotal_counters b :
  statusTotal b
  = counter b1xx b + counter b2xx b + counter b3xx b + counter b4xx b
    + counter b5xx b + counter bothers b.
Proof. reflexivity. Qed.

Lemma samples_Increment (h : uhist) (k : Z) :
  Forall (fun e => 0 <= snd e) h -> samples h + 1 < 2 ^ 64 ->
  samples (Increment h k) = samples h + 1 /\
  Forall (fun e => 0 <= snd e) (Increment h k).
Proof.
  unfold samples. induction h as [|[k' v] t IH]; intros F Hs.
  - simpl. split; [reflexivity|]. repeat constructor. simpl. lia.
  - inversion F as [|? ? Hv Ft]; subst. simpl in Hv.
    assert (H0 : 0 <= fold_right Z.add 0 (map snd t)).
    { apply (sumZ_nonneg (map snd t)). apply Forall_map.
      eapply Forall_impl; [exact Ft|]. intros e He. exact He. }
    cbn [map fold_right snd] in Hs. simpl.
    destruct (k' =? k).
    + cbn [map fold_right snd]. rewrite wrap64_small by lia. split; [lia|].
      constructor; [simpl; lia | exact Ft].
    + cbn [map fold_right snd]. destruct IH as [E Fi]; [exact Ft | lia |].
      rewrite E. split; [lia|]. constructor; [exact Hv | exact Fi].
Qed.

Lemma balanced_perform b :
  Z.of_nat (S (calls b)) < 2 ^ 64 -> balanced b ->
  balanced (performSingleRequest b).
Proof.
  intros Hc (Hk & Ht & Fl & Hl).
  destruct (performSingleRequest_books b) as (Ec & El & _ & _ & Ek & Eo).
  set (r := client b (calls b)) in *.
  set (b' := performSingleRequest b) in *.
  set (k0 := counterOf (code r)) in *.
  assert (Hle : counter k0 b <= statusTotal b).
  { rewrite statusTotal_counters.
    pose proof (Hk b1xx). pose proof (Hk b2xx). pose proof (Hk b3xx).
    pose proof (Hk b4xx). pose proof (Hk b5xx). pose proof (Hk bothers).
    destruct k0; lia. }
  pose proof (Hk k0) as H0.
  rewrite wrap64_small in Ek by lia.
  destruct (samples_Increment (latencies b) (msTaken r) Fl ltac:(lia))
    as [Es Fi].
  split; [|split; [|split]].
  - intros k.
    assert (D : k = k0 \/ k <> k0).
    { clearbody k0. destruct k, k0;
        first [left; reflexivity | right; discriminate]. }
    destruct D as [->|N].
    + rewrite Ek. lia.
    + rewrite (Eo k N). apply Hk.
  - rewrite Ec, !statusTotal_counters.
    rewrite statusTotal_counters in Ht.
    destruct k0;
      repeat match goal with
             | |- context [counter ?k b'] =>
                 first [rewrite Ek | rewrite (Eo k) by discriminate]
             end; lia.
  - rewrite El. exact Fi.
  - rewrite El, Es, Ec. lia.
Qed.

Lemma calls_Step s s' :
  Step s s' -> (calls (sb s) <= calls (sb s'))%nat.
Proof.
  intros HS. destruct (Step_books s s' HS) as [E|[(t & E)|(_ & _ & E & _)]].
  - rewrite E. destruct (performSingleRequest_books (sb s)) as (-> & _). lia.
  - rewrite E. destruct (recordRps_frame t (sb s))
      as (_ & _ & _ & _ & _ & _ & -> & _). lia.
  - rewrite E. lia.
Qed.

Lemma balanced_same b b' : same_books b b' -> balanced b -> balanced b'.
Proof.
  intros (Ek & El & Ec & _) (Hk & Ht & Fl & Hl).
  split; [|split; [|split]].
  - intros k. rewrite Ek. apply Hk.
  - rewrite statusTotal_counters, !Ek, Ec, <- Ht. reflexivity.
  - rewrite El. exact Fl.
  - rewrite El, Ec. exact Hl.
Qed.

Lemma balanced_recordRps t b : balanced b -> balanced (recordRps t b).
Proof.
  intros (Hk & Ht & Fl & Hl). repeat split; assumption.
Qed.

Lemma balanced_Step s s' :
  Step s s' ->
  (Z.of_nat (calls (sb s)) < 2 ^ 64 -> balanced (sb s)) ->
  Z.of_nat (calls (sb s')) < 2 ^ 64 -> balanced (sb s').
Proof.
  intros HS P Hc. pose proof (calls_Step s s' HS) as Mono.
  specialize (P ltac:(lia)).
  destruct (Step_books s s' HS) as [E|[(t & E)|Sm]].
  - rewrite E in *. apply balanced_perform; [|exact P].
    destruct (performSingleRequest_books (sb s)) as (Ec & _).
    rewrite <- Ec. exact Hc.
  - rewrite E. apply balanced_recordRps. exact P.
  - apply (balanced_same _ _ Sm P).
Qed.

(** X17: once [b.workers.Wait()] has returned in [bombard], so when
    [printStats] reads them, the six status counters add up to the number
    of calls of the client, and so do the counts of the latency histogram:
    every request is in exactly one counter and has exactly one latency
    sample.  This holds under every schedule and for every kind of test,
    cancelled or not, as long as fewer than [2^64] requests were made. *)
Theorem books_balance (c : config) (bar : completionBarrier)
    (cl : nat -> response) (t0 : Z) (cs : list choice) (s : sys) :
  run cs (boot (constructed c bar cl) t0) = Some s ->
  joined (orch s) = true ->
  Z.of_nat (calls (sb s)) < 2 ^ 64 ->
  statusTotal (sb s) = Z.of_nat (calls (sb s)) /\
  samples (latencies (sb s)) = Z.of_nat (calls (sb s)) /\
  Forall (fun pc => pc = WExit) (gos s).
Proof.
  intros H J Hc.
  assert (P : Z.of_nat (calls (sb s)) < 2 ^ 64 -> balanced (sb s)).
  { apply (run_invariant
             (fun s => Z.of_nat (calls (sb s)) < 2 ^ 64 -> balanced (sb s)))
      with (cs := cs) (s := boot (constructed c bar cl) t0).
    - intros s1 s2 HS. apply (balanced_Step s1 s2 HS).
    - exact H.
    - intros _. split; [intros []; simpl; lia|].
      split; [reflexivity|]. split; [constructor | reflexivity]. }
  destruct (P Hc) as (_ & Ht & _ & Hl).
  split; [exact Ht|]. split; [exact Hl|].
  pose proof (run_wg_inv c bar cl t0 cs s H) as G.
  apply (all_exited _ s G).
  - unfold spawned. destruct (orch s); simpl in J; congruence.
  - destruct G as [_ _ _ _ Hj _]. apply Hj. exact J.
Qed.

Lemma books_balance_witness :
  let s := default boot_cancelled (run schedule_cancelled boot_cancelled) in
  statusTotal (sb s) = Z.of_nat (calls (sb s)) /\
  samples (latencies (sb s)) = Z.of_nat (calls (sb s)) /\
  Forall (fun pc => pc = WExit) (gos s).
Proof.
  apply (books_balance (config0 1 (Some 3) None EmptyString)
           (newCountingCompletionBarrier 3) ok200 0 schedule_cancelled).
  - vm_compute. reflexivity.
  - vm_compute. reflexivity.
  - vm_compute. reflexivity.
Defined.

Lemma metered_Step s s' :
  Step s s' ->
  (Z.of_nat (calls (sb s)) < 2 ^ 63 -> metered (sb s)) ->
  Z.of_nat (calls (sb s')) < 2 ^ 63 -> metered (sb s').
Proof.
  intros HS P Hc. pose proof (calls_Step s s' HS) as Mono.
  destruct (P ltac:(lia)) as (H0 & Hd & Hm).
  destruct (Step_books s s' HS) as [E|[(t & E)|(_ & _ & Ec & Er & Ed)]].
  - rewrite E in *.
    destruct (performSingleRequest_books (sb s)) as (Ec & _ & Er & Ed & _).
    rewrite Ec in Hc. unfold metered. rewrite Er, Ed, Ec.
    rewrite wrapi64_small by lia. lia.
  - rewrite E in *.
    destruct (recordRps_frame t (sb s))
      as (_ & _ & _ & _ & _ & _ & Ec & _ & _ & Er & Et).
    unfold metered. rewrite Er, Et, Ec, drained_app. simpl. lia.
  - unfold metered. rewrite Er, Ed, Ec. lia.
Qed.

(** X18: when [bombard] has returned, the request counter [b.reqs] is 0
    and the requests that the calls of [recordRps] took off it add up to
    the calls of the client: the samples of the rate meter hold every
    request once.  This holds under every schedule, as long as fewer than
    [2^63] requests were made. *)
Theorem requests_metered (c : config) (bar : completionBarrier)
    (cl : nat -> response) (t0 : Z) (cs : list choice) (s : sys) :
  run cs (boot (constructed c bar cl) t0) = Some s ->
  orch s = OReturned ->
  Z.of_nat (calls (sb s)) < 2 ^ 63 ->
  reqs (sb s) = 0 /\ drained (trace (sb s)) = Z.of_nat (calls (sb s)).
Proof.
  intros H Ho Hc.
  assert (P : Z.of_nat (calls (sb s)) < 2 ^ 63 -> metered (sb s)).
  { apply (run_invariant
             (fun s => Z.of_nat (calls (sb s)) < 2 ^ 63 -> metered (sb s)))
      with (cs := cs) (s := boot (constructed c bar cl) t0).
    - intros s1 s2 HS. apply (metered_Step s1 s2 HS).
    - exact H.
    - intros _. repeat split; simpl; lia. }
  destruct (P Hc) as (H0 & Hd & Hm).
  assert (Q : wg_inv (Z.to_nat (numConns c)) s /\ chan_inv s /\ meter_inv s).
  { apply (run_invariant
             (fun s => wg_inv (Z.to_nat (numConns c)) s /\ chan_inv s
                       /\ meter_inv s))
      with (cs := cs) (s := boot (constructed c bar cl) t0).
    - intros s1 s2 HS (G1 & C1 & M1). split; [|split].
      + apply (wg_inv_Step _ s1 s2 HS G1).
      + apply (chan_inv_Step _ s1 s2 HS G1 C1).
      + apply (meter_inv_Step _ s1 s2 HS G1 M1).
    - exact H.
    - split; [apply (wg_inv_boot (constructed c bar cl) t0); reflexivity|].
      split; [apply chan_inv_boot | reflexivity]. }
  destruct Q as (_ & [Ch _] & M). rewrite Ho in Ch. simpl in Ch.
  assert (Em : meter s = MExit).
  { destruct (meter s), (updater s); simpl in Ch; try lia; reflexivity. }
  unfold meter_inv in M. rewrite Em in M. destruct M as (_ & R0 & _).
  split; [exact R0 | lia].
Qed.

Lemma requests_metered_witness :
  let s := default boot_2x3 (run schedule_2x3 boot_2x3) in
  reqs (sb s) = 0 /\ drained (trace (sb s)) = Z.of_nat (calls (sb s)).
Proof.
  apply (requests_metered (config0 2 (Some 3) None EmptyString)
           (newCountingCompletionBarrier 3) ok200 0 schedule_2x3).
  - vm_compute. reflexivity.
  - vm_compute. reflexivity.
  - vm_compute. reflexivity.
Defined.

End Books.

(** ** The wait group and the channel of [bombard] *)

Section Joining.

Lemma run_joining c bar cl t0 cs s :
  run cs (boot (constructed c bar cl) t0) = Some s ->
  wg_inv (Z.to_nat (numConns c)) s /\ chan_inv s.
Proof.
  intros H.
  apply (run_invariant
           (fun s => wg_inv (Z.to_nat (numConns c)) s /\ chan_inv s))
    with (cs := cs) (s := boot (constructed c bar cl) t0).
  - intros s1 s2 HS (G1 & C1). split.
    + apply (wg_inv_Step _ s1 s2 HS G1).
    + apply (chan_inv_Step _ s1 s2 HS G1 C1).
  - exact H.
  - split; [apply (wg_inv_boot (constructed c bar cl) t0); reflexivity|].
    apply chan_inv_boot.
Qed.

(** X19: in every kind of test, cancelled or not, once [b.workers.Wait()]
    has returned in [bombard], all [numConns] worker goroutines have left
    their loop: [timeTaken] is taken, and [bombard] returns, only when no
    request is under way any more. *)
Theorem bombard_joins_workers (c : config) (bar : completionBarrier)
    (cl : nat -> response) (t0 : Z) (cs : list choice) (s : sys) :
  run cs (boot (constructed c bar cl) t0) = Some s ->
  joined (orch s) = true ->
  length (gos s) = Z.to_nat (numConns c) /\
  Forall (fun pc => pc = WExit) (gos s).
Proof.
  intros H J. destruct (run_joining c bar cl t0 cs s H) as [G _].
  assert (Sp : spawned s = true).
  { unfold spawned. destruct (orch s); simpl in J; congruence. }
  split.
  - destruct G as [_ _ Hg _ _ _]. rewrite Sp in Hg. exact Hg.
  - apply (all_exited _ s G Sp). destruct G as [_ _ _ _ Hj _].
    apply Hj. exact J.
Qed.

Lemma bombard_joins_workers_witness :
  let s := default boot_cancelled (run schedule_cancelled boot_cancelled) in
  length (gos s) = Z.to_nat 1 /\ Forall (fun pc => pc = WExit) (gos s).
Proof.
  apply (bombard_joins_workers (config0 1 (Some 3) None EmptyString)
           (newCountingCompletionBarrier 3) ok200 0 schedule_cancelled).
  - vm_compute. reflexivity.
  - vm_compute. reflexivity.
Defined.

(** X20: the wait group counts the worker goroutines that have not left
    their loop yet: a worker that is still running finds the counter at 1
    or more, so that its deferred [b.workers.Done()] never takes the
    counter below zero. *)
Theorem waitgroup_counts_running (c : config) (bar : completionBarrier)
    (cl : nat -> response) (t0 : Z) (cs : list choice) (s : sys) :
  run cs (boot (constructed c bar cl) t0) = Some s ->
  (spawned s = true -> Z.of_nat (workers (sb s)) = cntZ running (gos s)) /\
  (forall i pc, gos s !! i = Some pc -> pc <> WExit ->
                (1 <= workers (sb s))%nat).
Proof.
  intros H. destruct (run_joining c bar cl t0 cs s H) as [G _].
  assert (E : spawned s = true ->
              Z.of_nat (workers (sb s)) = cntZ running (gos s)).
  { intros Sp. destruct G as [_ Hw _ _ _ _]. rewrite Sp in Hw. exact Hw. }
  split; [exact E|]. intros i pc Hi Hpc.
  pose proof (E (spawned_lookup _ s i pc G Hi)) as Ew.
  assert (R : running pc = true) by (destruct pc; try reflexivity; congruence).
  pose proof (cntZ_lookup running (gos s) i pc Hi R). lia.
Qed.

Lemma waitgroup_counts_running_witness :
  let s := default boot_2x3 (run (take 9 schedule_2x3) boot_2x3) in
  (spawned s = true -> Z.of_nat (workers (sb s)) = cntZ running (gos s)) /\
  (forall i pc, gos s !! i = Some pc -> pc <> WExit ->
                (1 <= workers (sb s))%nat).
Proof.
  apply (waitgroup_counts_running (config0 2 (Some 3) None EmptyString)
           (newCountingCompletionBarrier 3) ok200 0 (take 9 schedule_2x3)).
  vm_compute. reflexivity.
Defined.

(** X21: the two sends on [b.doneChan] never block: whenever the rate
    meter or the bar updater is about to send its token, the channel,
    which holds two, has room, and the send is a step. *)
Theorem doneChan_sends_never_block (c : config) (bar : completionBarrier)
    (cl : nat -> response) (t0 : Z) (cs : list choice) (s : sys) :
  run cs (boot (constructed c bar cl) t0) = Some s ->
  (doneChan (sb s) <= 2)%nat /\
  (meter s = MSend -> forall tick, is_Some (step (RateMeter tick) s)) /\
  (updater s = USend -> is_Some (step BarUpdater s)).
Proof.
  intros H. destruct (run_joining c bar cl t0 cs s H) as [_ [Ch _]].
  assert (B : (doneChan (sb s) <= 2)%nat).
  { destruct (meter s), (updater s), (orch s); simpl in Ch; lia. }
  split; [exact B|]. split.
  - intros Em tick. simpl. unfold rateMeter, send. rewrite Em in *.
    destruct (Nat.ltb_spec (doneChan (sb s)) 2) as [_|Hge];
      [eexists; reflexivity|].
    destruct (updater s), (orch s); simpl in Ch; lia.
  - intros Eu. simpl. unfold barUpdater, send. rewrite Eu in *.
    destruct (Nat.ltb_spec (doneChan (sb s)) 2) as [_|Hge];
      [eexists; reflexivity|].
    destruct (meter s), (orch s); simpl in Ch; lia.
Qed.

Lemma doneChan_sends_never_block_witness :
  let s := default boot_2x3 (run (take 21 schedule_2x3) boot_2x3) in
  (doneChan (sb s) <= 2)%nat /\
  (meter s = MSend -> forall tick, is_Some (step (RateMeter tick) s)) /\
  (updater s = USend -> is_Some (step BarUpdater s)).
Proof.
  apply (doneChan_sends_never_block (config0 2 (Some 3) None EmptyString)
           (newCountingCompletionBarrier 3) ok200 0 (take 21 schedule_2x3)).
  vm_compute. reflexivity.
Defined.

(** X22: when [bombard] has returned, the rate meter and the bar updater
    have both run to their end, and the channel is empty: [bombard] took
    the two tokens, one of each. *)
Theorem bombard_returns_after_observers (c : config) (bar : completionBarrier)
    (cl : nat -> response) (t0 : Z) (cs : list choice) (s : sys) :
  run cs (boot (constructed c bar cl) t0) = Some s ->
  orch s = OReturned ->
  meter s = MExit /\ updater s = UExit /\ doneChan (sb s) = 0%nat.
Proof.
  intros H Ho. destruct (run_joining c bar cl t0 cs s H) as [_ [Ch _]].
  rewrite Ho in Ch.
  destruct (meter s), (updater s); simpl in Ch; try lia;
    repeat split; lia.
Qed.

Lemma bombard_returns_after_observers_witness :
  let s := default boot_cancelled (run schedule_cancelled boot_cancelled) in
  meter s = MExit /\ updater s = UExit /\ doneChan (sb s) = 0%nat.
Proof.
  apply (bombard_returns_after_observers (config0 1 (Some 3) None EmptyString)
           (newCountingCompletionBarrier 3) ok200 0 schedule_cancelled).
  - vm_compute. reflexivity.
  - vm_compute. reflexivity.
Defined.

End Joining.
